(** * The pql in-memory evaluator

    A shallow embedding of the evaluator of github.com/runreveal/pql
    (package [pql]: [Eval], [eval], [evalExpr], [evalFuncs],
    [stringToBool], [boolToString]) together with the properties of it
    that the specification of the project states.

    Go strings are byte sequences, so they are Rocq [string]s (lists of
    8-bit [ascii]); Go's [int] is the 64-bit signed integer, carried by
    [Z] with its range written out where the code depends on it; the
    [map[string]string] of identifiers is a [gmap string string]. *)

From Stdlib Require Import ZArith String Ascii List DecimalString DecimalPos.
From stdpp Require Import gmap strings list.

Set Warnings "-register-all".
Local Open Scope string_scope.
Local Open Scope list_scope.
Local Open Scope Z_scope.

(** ** The syntax tree consumed by the evaluator *)

Module parser.

(** Modelled from the spec: the token kinds of package [parser] that can
    label an operator of a unary or binary expression.  The evaluator
    names [TokenPlus], [TokenMinus], [TokenAnd], [TokenOr], [TokenEq] and
    [TokenNE]; the others are the remaining expression punctuation and
    keywords the spec lists. *)
Inductive TokenKind : Set :=
| TokenAnd | TokenOr | TokenIn | TokenNot
| TokenAssign | TokenEq | TokenNE
| TokenLT | TokenLE | TokenGT | TokenGE
| TokenPlus | TokenMinus | TokenStar | TokenSlash | TokenMod
| TokenCaseInsensitiveEq | TokenCaseInsensitiveNE.

(** Modelled from the spec: the kind of a [BasicLit]. *)
Inductive LitKind : Set := LitString | LitLong | LitReal.

(** Modelled from the spec: an identifier is a name plus a quoted flag. *)
Record Ident : Set := { Name : string; Quoted : bool }.

(** Modelled from the spec: the closed family of expression nodes (spans
    left out: the evaluator never reads them). *)
Inductive Expr : Set :=
| ParenExpr (X : Expr)
| BasicLit (Kind : LitKind) (Value : string)
| QualifiedIdent (Parts : list Ident)
| UnaryExpr (Op : TokenKind) (X : Expr)
| BinaryExpr (X : Expr) (Op : TokenKind) (Y : Expr)
| InExpr (X : Expr) (Vals : list Expr)
| CallExpr (Func : Ident) (Args : list Expr)
| IndexExpr (X : Expr) (Index : Expr).

(** Modelled from the spec: a sort term with its optional direction and
    null ordering. *)
Record SortTerm : Set :=
  { SortX : Expr; Asc : option bool; NullsFirst : option bool }.

(** Modelled from the spec: data sources. *)
Inductive TabularDataSource : Set :=
| TableRef (Table : Ident).

(** Modelled from the spec: the tagged union of pipeline operators.  The
    right operand of a join is a pipeline of its own, given here by its
    source and its operators. *)
Inductive TabularOperator : Set :=
| CountOperator
| TakeOperator (RowCount : Expr)
| TopOperator (RowCount : Expr) (By : list SortTerm)
| WhereOperator (Predicate : Expr)
| SortOperator (Terms : list SortTerm)
| ProjectOperator (Cols : list (option Ident * Expr))
| ExtendOperator (Cols : list (Ident * Expr))
| SummarizeOperator (Aggregates : list (Ident * Expr)) (GroupBy : list Expr)
| JoinOperator (Flavor : string) (RightSource : TabularDataSource)
               (RightOperators : list TabularOperator) (On : list Expr)
| AsOperator (Alias : Ident)
| RenderOperator.

(** Modelled from the spec: a pipeline has one source and zero or more
    operators, applied left to right. *)
Record TabularExpr : Set :=
  { Source : TabularDataSource; Operators : list TabularOperator }.

(** Modelled from the spec: the dynamic type name that [%T] prints for
    an operator, after the three names the evaluator mentions. *)
Definition operatorType (op : TabularOperator) : string :=
  match op with
  | CountOperator => "*parser.CountOperator"
  | TakeOperator _ => "*parser.TakeOperator"
  | TopOperator _ _ => "*parser.TopOperator"
  | WhereOperator _ => "*parser.WhereOperator"
  | SortOperator _ => "*parser.SortOperator"
  | ProjectOperator _ => "*parser.ProjectOperator"
  | ExtendOperator _ => "*parser.ExtendOperator"
  | SummarizeOperator _ _ => "*parser.SummarizeOperator"
  | JoinOperator _ _ _ _ => "*parser.JoinOperator"
  | AsOperator _ => "*parser.AsOperator"
  | RenderOperator => "*parser.RenderOperator"
  end.

(** Modelled from the spec: the dynamic type name that [%T] prints for
    an expression. *)
Definition exprType (x : Expr) : string :=
  match x with
  | ParenExpr _ => "*parser.ParenExpr"
  | BasicLit _ _ => "*parser.BasicLit"
  | QualifiedIdent _ => "*parser.QualifiedIdent"
  | UnaryExpr _ _ => "*parser.UnaryExpr"
  | BinaryExpr _ _ _ => "*parser.BinaryExpr"
  | InExpr _ _ => "*parser.InExpr"
  | CallExpr _ _ => "*parser.CallExpr"
  | IndexExpr _ _ => "*parser.IndexExpr"
  end.

End parser.

Import parser.

(** ** Errors and results *)

(** One constructor per error the evaluator can return: the
    [fmt.Errorf] calls of [eval], [evalExpr] and [evalFuncs], the two
    errors of [strconv.Atoi], and whatever [parser.Parse] reports. *)
Inductive error : Set :=
| ErrParse (msg : string)
| ErrUnknownTable (name : string)            (* unknown table %q *)
| ErrUnhandledDataSource (type : string)     (* unhandled data source %T *)
| ErrSyntax (s : string)                     (* strconv.Atoi: invalid syntax *)
| ErrRange (s : string)                      (* strconv.Atoi: value out of range *)
| ErrNegativeRowCount                        (* negative row count *)
| ErrUnhandledOperator (type : string)       (* unhandled operator %T *)
| ErrQualifiedIdent                          (* qualified identifiers not supported *)
| ErrUnrecognizedIdentifier (name : string)  (* unrecognized identifier %q *)
| ErrUnhandledUnaryOperator (op : TokenKind) (* unhandled unary operator %v *)
| ErrUnhandledBinaryOperator (op : TokenKind)(* unhandled binary operator %v *)
| ErrUnknownFunction (name : string)         (* unknown function %s *)
| ErrNotArity                                (* not(x) takes exactly one argument *)
| ErrStrcatArity                             (* strcat(x, ...) takes at least one argument *)
| ErrUnhandledExpression (type : string).    (* unhandled expression %T *)

(** A Go [(T, error)] pair: the value, or the non-nil error. *)
Inductive result (A : Type) : Type :=
| Ok (a : A)
| Err (e : error).
Arguments Ok {A} a.
Arguments Err {A} e.

(** The outcome of a call that may also panic (an index out of range,
    a nil dereference): it returns a value, returns an error, or
    panics. *)
Inductive exec (A : Type) : Type :=
| Returns (a : A)
| Fails (e : error)
| Panics.
Arguments Returns {A} a.
Arguments Fails {A} e.
Arguments Panics {A}.

(** ** Strings and booleans *)

Definition stringToBool (s : string) : bool :=
  negb (String.eqb s "") && negb (String.eqb s "0").

Definition boolToString (b : bool) : string :=
  if b then "1" else "0".

(** [strings.CutPrefix(s, "-")]: the rest of [s] after a leading [-],
    or [None] when [s] does not start with one. *)
Definition cutMinus (s : string) : option string :=
  match s with
  | String "-"%char rest => Some rest
  | _ => None
  end.

(** ** Functions callable from expressions *)

Definition evalFuncs : gmap string (list string -> result string) :=
  <["not" := fun args =>
      match args with
      | [x] => Ok (boolToString (negb (stringToBool x)))
      | _ => Err ErrNotArity
      end]>
  (<["strcat" := fun args =>
      match args with
      | [] => Err ErrStrcatArity
      | _ => Ok (String.concat "" args)
      end]> ∅).

(** ** Expression evaluation *)

Fixpoint evalExpr (x : Expr) (idents : gmap string string) : result string :=
  match x with
  | ParenExpr x => evalExpr x idents
  | BasicLit _ Value => Ok Value
  | QualifiedIdent Parts =>
      match Parts with
      | [part] =>
          match idents !! parser.Name part with
          | None => Err (ErrUnrecognizedIdentifier (parser.Name part))
          | Some value => Ok value
          end
      | _ => Err ErrQualifiedIdent
      end
  | UnaryExpr Op X =>
      match evalExpr X idents with
      | Err e => Err e
      | Ok inner =>
          match Op with
          | TokenPlus => Ok inner
          | TokenMinus =>
              match cutMinus inner with
              | Some pos => Ok pos
              | None => Ok ("-" +:+ inner)
              end
          | _ => Err (ErrUnhandledUnaryOperator Op)
          end
      end
  | BinaryExpr X Op Y =>
      match evalExpr X idents with
      | Err e => Err e
      | Ok a =>
          let shortCircuit :=
            match Op with
            | TokenAnd => negb (stringToBool a)
            | TokenOr => stringToBool a
            | _ => false
            end in
          if shortCircuit then Ok a else
          match evalExpr Y idents with
          | Err e => Err e
          | Ok b =>
              match Op with
              | TokenEq => Ok (boolToString (String.eqb a b))
              | TokenNE => Ok (boolToString (negb (String.eqb a b)))
              | TokenAnd | TokenOr => Ok b
              | _ => Err (ErrUnhandledBinaryOperator Op)
              end
          end
      end
  | InExpr X Vals =>
      match evalExpr X idents with
      | Err e => Err e
      | Ok a =>
          (fix loop (ys : list Expr) : result string :=
             match ys with
             | [] => Ok (boolToString false)
             | y :: ys' =>
                 match evalExpr y idents with
                 | Err e => Err e
                 | Ok b =>
                     if String.eqb a b then Ok (boolToString true)
                     else loop ys'
                 end
             end) Vals
      end
  | CallExpr Func Args =>
      match evalFuncs !! parser.Name Func with
      | None => Err (ErrUnknownFunction (parser.Name Func))
      | Some f =>
          match
            (fix loop (xs : list Expr) (args : list string)
               : result (list string) :=
               match xs with
               | [] => Ok args
               | a :: xs' =>
                   match evalExpr a idents with
                   | Err e => Err e
                   | Ok aa => loop xs' (args ++ [aa])%list
                   end
               end) Args []
          with
          | Err e => Err e
          | Ok args => f args
          end
      end
  | IndexExpr _ _ => Err (ErrUnhandledExpression (exprType x))
  end.

(** ** [strconv] *)

(** [strconv.Itoa]: the decimal representation of an integer. *)
Definition Itoa (n : Z) : string := NilZero.string_of_int (Z.to_int n).

Definition maxUint64 : Z := 2 ^ 64 - 1.

(** The value of a decimal digit byte. *)
Definition digitVal (c : ascii) : option Z :=
  let b := Z.of_N (N_of_ascii c) in
  if (48 <=? b) && (b <=? 57) then Some (b - 48) else None.

(** The digit loop of [strconv.ParseUint(s, 10, 64)].  [n] is the value
    read so far; the unsigned 64-bit wrap-around test [n1 < n] of the
    library is the comparison of the exact sum with [maxUint64]. *)
Fixpoint parseUintLoop (s0 s : string) (n : Z) : result Z :=
  match s with
  | EmptyString => Ok n
  | String c rest =>
      match digitVal c with
      | None => Err (ErrSyntax s0)
      | Some d =>
          if n >=? maxUint64 / 10 + 1 then Err (ErrRange s0)
          else
            let n1 := n * 10 + d in
            if n1 >? maxUint64 then Err (ErrRange s0)
            else parseUintLoop s0 rest n1
      end
  end.

Definition ParseUint (s0 s : string) : result Z :=
  match s with
  | EmptyString => Err (ErrSyntax s0)
  | _ => parseUintLoop s0 s 0
  end.

(** [strconv.Atoi], which is [strconv.ParseInt(s, 10, 0)] converted to
    [int]: an optional sign, then decimal digits, then the range check
    against the 64-bit [int].  (The fast path of [Atoi] for short
    strings computes the same; a range error of [ParseUint] is a range
    error of [ParseInt] as well.) *)
Definition Atoi (s : string) : result Z :=
  match s with
  | EmptyString => Err (ErrSyntax s)
  | String c rest =>
      let neg := Ascii.eqb c "-" in
      let digits := if Ascii.eqb c "+" || neg then rest else s in
      match ParseUint s digits with
      | Err e => Err e
      | Ok un =>
          let cutoff := 2 ^ 63 in
          if negb neg && (un >=? cutoff) then Err (ErrRange s)
          else if neg && (un >? cutoff) then Err (ErrRange s)
          else Ok (if neg then - un else un)
      end
  end.

(** ** Tables and pipelines *)

(** An in-memory table. *)
Record Table : Set :=
  { Name : string;
    Columns : list string;
    Data : list (list string) }.

(** The identifiers a [where] predicate starts from. *)
Definition builtinIdents : gmap string string :=
  <["null" := ""]> (<["true" := "1"]> (<["false" := "0"]> ∅)).

(** The inner loop of [where]: [idents[curr.Columns[i]] = val] for the
    cells of [row] from index [i] on.  Indexing [Columns] past its end
    panics. *)
Fixpoint fillRow (Columns : list string) (i : nat) (row : list string)
    (idents : gmap string string) : exec (gmap string string) :=
  match row with
  | [] => Returns idents
  | val :: row' =>
      match Columns !! i with
      | None => Panics
      | Some c => fillRow Columns (S i) row' (<[c := val]> idents)
      end
  end.

(** The row loop of [where].  The identifier map is the one map of the
    whole loop: what a row wrote stays for the rows after it. *)
Fixpoint whereLoop (Predicate : Expr) (Columns : list string)
    (rows : list (list string)) (idents : gmap string string)
    (newData : list (list string)) : exec (list (list string)) :=
  match rows with
  | [] => Returns newData
  | row :: rows' =>
      match fillRow Columns 0 row idents with
      | Panics => Panics
      | Fails e => Fails e
      | Returns idents' =>
          match evalExpr Predicate idents' with
          | Err e => Fails e
          | Ok result =>
              whereLoop Predicate Columns rows' idents'
                (if stringToBool result then (newData ++ [row])%list
                 else newData)
          end
      end
  end.

(** One iteration of the operator loop of [eval]. *)
Definition evalOperator (op : TabularOperator) (curr : Table) : exec Table :=
  match op with
  | CountOperator =>
      Returns {| Name := "";
                 Columns := ["count()"];
                 Data := [[Itoa (Z.of_nat (length (Data curr)))]] |}
  | TakeOperator RowCount =>
      match evalExpr RowCount ∅ with
      | Err e => Fails e
      | Ok rowCount =>
          match Atoi rowCount with
          | Err e => Fails e
          | Ok n =>
              if n <? 0 then Fails ErrNegativeRowCount
              else
                Returns
                  {| Name := "";
                     Columns := Columns curr;
                     Data := take (Z.to_nat (Z.min n (Z.of_nat (length (Data curr)))))
                                  (Data curr) |}
          end
      end
  | WhereOperator Predicate =>
      match whereLoop Predicate (Columns curr) (Data curr) builtinIdents [] with
      | Panics => Panics
      | Fails e => Fails e
      | Returns newData =>
          Returns {| Name := ""; Columns := Columns curr; Data := newData |}
      end
  | _ => Fails (ErrUnhandledOperator (operatorType op))
  end.

(** The operator loop of [eval], from the table [curr]. *)
Fixpoint evalOperators (ops : list TabularOperator) (curr : Table) : exec Table :=
  match ops with
  | [] => Returns curr
  | op :: ops' =>
      match evalOperator op curr with
      | Panics => Panics
      | Fails e => Fails e
      | Returns next => evalOperators ops' next
      end
  end.

(** [eval].  A table reference is the only data source of the syntax
    tree, so the [default] case of the switch on the source, the error
    [ErrUnhandledDataSource], has no input here. *)
Definition eval (x : TabularExpr) (tables : gmap string Table) : exec Table :=
  match Source x with
  | TableRef Table =>
      match tables !! parser.Name Table with
      | None => Fails (ErrUnknownTable (parser.Name Table))
      | Some curr => evalOperators (Operators x) curr
      end
  end.

(** The table map of [Eval]: a later table replaces an earlier one of the
    same name. *)
Definition tableMap (tables : list Table) : gmap string Table :=
  foldl (fun m tab => <[Name tab := tab]> m) ∅ tables.

Section Eval.

(** [parser.Parse], of which the evaluator only uses the result. *)
Variable Parse : string -> result TabularExpr.

(** [Eval]. *)
Definition Eval (source : string) (tables : list Table) : exec Table :=
  match Parse source with
  | Err e => Fails e
  | Ok expr => eval expr (tableMap tables)
  end.

End Eval.

(** [Eval] on the slice of pointers that the caller passes: an element
    may be nil, and [tab.Name] in the loop that builds the table map
    then panics.  The map never holds nil, and from there on [eval] is
    the function above. *)
Module pql.

Section Eval.

Variable Parse : string -> result TabularExpr.

(** [for _, tab := range tables { tableMap[tab.Name] = tab }] *)
Fixpoint tableMapLoop (tables : list (option Table)) (m : gmap string Table)
    : exec (gmap string Table) :=
  match tables with
  | [] => Returns m
  | None :: _ => Panics
  | Some tab :: tables' => tableMapLoop tables' (<[Name tab := tab]> m)
  end.

Definition Eval (source : string) (tables : list (option Table)) : exec Table :=
  match Parse source with
  | Err e => Fails e
  | Ok expr =>
      match tableMapLoop tables ∅ with
      | Panics => Panics
      | Fails e => Fails e
      | Returns m => eval expr m
      end
  end.

End Eval.

End pql.

(** ** The evaluator on a store

    The same code once more, this time with what Go keeps in memory made
    explicit: a [*Table] is a location of a table object, a slice is a
    header (array, offset, length, capacity) over a backing array, and
    [append] writes into the backing array when the capacity allows.
    The functions thread the store and are otherwise the ones above. *)

(** Locations are indices into the store. *)
Abbreviation loc := nat (only parsing).

Record slice : Set := { arr : loc; off : nat; len : nat; cap : nat }.

(** The nil slice: no element and no capacity, so that its array is never
    read or written. *)
Definition nilSlice : slice := {| arr := 0%nat; off := 0%nat; len := 0%nat; cap := 0%nat |}.

(** A [Table] value in memory. *)
Record TableStruct : Set :=
  { tName : string; tColumns : slice; tData : slice }.

Record store : Set :=
  { tableObjs : list TableStruct;        (* the Table objects, by location *)
    stringArrays : list (list string);   (* backing arrays of []string *)
    rowArrays : list (list slice) }.     (* backing arrays of [][]string *)

(** A computation on the store that returns, fails or panics. *)
Definition run (A : Type) : Type := store -> exec A * store.

Definition ret {A : Type} (a : A) : run A := fun h => (Returns a, h).
Definition raise {A : Type} (e : error) : run A := fun h => (Fails e, h).
Definition panic {A : Type} : run A := fun h => (Panics, h).

Definition bind {A B : Type} (m : run A) (k : A -> run B) : run B :=
  fun h =>
    match m h with
    | (Returns a, h') => k a h'
    | (Fails e, h') => (Fails e, h')
    | (Panics, h') => (Panics, h')
    end.

Notation "x <- m ;; k" := (bind m (fun x => k))
  (at level 100, m at next level, right associativity).

(** [*p] *)
Definition loadTable (p : loc) : run TableStruct :=
  fun h =>
    match tableObjs h !! p with
    | Some t => (Returns t, h)
    | None => (Panics, h)
    end.

(** [&Table{...}] *)
Definition newTableObj (t : TableStruct) : run loc :=
  fun h =>
    (Returns (length (tableObjs h)),
     {| tableObjs := tableObjs h ++ [t];
        stringArrays := stringArrays h;
        rowArrays := rowArrays h |}).

(** [*p = t] *)
Definition storeTable (p : loc) (t : TableStruct) : run unit :=
  fun h =>
    match tableObjs h !! p with
    | Some _ =>
        (Returns tt,
         {| tableObjs := <[p := t]> (tableObjs h);
            stringArrays := stringArrays h;
            rowArrays := rowArrays h |})
    | None => (Panics, h)
    end.

(** [[]string{...}] *)
Definition newStrings (l : list string) : run slice :=
  fun h =>
    (Returns {| arr := length (stringArrays h); off := 0%nat;
                len := length l; cap := length l |},
     {| tableObjs := tableObjs h;
        stringArrays := stringArrays h ++ [l];
        rowArrays := rowArrays h |}).

(** The backing array of a [[][]string] with the elements [l]. *)
Definition allocRows (l : list slice) (h : store) : store :=
  {| tableObjs := tableObjs h;
     stringArrays := stringArrays h;
     rowArrays := rowArrays h ++ [l] |}.

(** [[][]string{...}] *)
Definition newRows (l : list slice) : run slice :=
  fun h =>
    (Returns {| arr := length (rowArrays h); off := 0%nat;
                len := length l; cap := length l |},
     allocRows l h).

(** [make([][]string, 0, n)] *)
Definition makeRows (n : nat) : run slice :=
  fun h =>
    (Returns {| arr := length (rowArrays h); off := 0%nat; len := 0%nat; cap := n |},
     allocRows (replicate n nilSlice) h).

(** [s[i]] on a [[]string]: the index is checked against the length. *)
Definition indexString (s : slice) (i : nat) : run string :=
  fun h =>
    if (i <? len s)%nat then
      match stringArrays h !! arr s with
      | Some a =>
          match a !! (off s + i)%nat with
          | Some v => (Returns v, h)
          | None => (Panics, h)
          end
      | None => (Panics, h)
      end
    else (Panics, h).

(** [s[i]] on a [[][]string]. *)
Definition indexRow (s : slice) (i : nat) : run slice :=
  fun h =>
    if (i <? len s)%nat then
      match rowArrays h !! arr s with
      | Some a =>
          match a !! (off s + i)%nat with
          | Some v => (Returns v, h)
          | None => (Panics, h)
          end
      | None => (Panics, h)
      end
    else (Panics, h).

(** The elements of a [[][]string], read from its backing array. *)
Definition rowElems (h : store) (s : slice) : list slice :=
  match rowArrays h !! arr s with
  | Some a => take (len s) (drop (off s) a)
  | None => []
  end.

(** [append(s, row)]: within the capacity the element is written into
    the backing array of [s], in place; beyond it the elements move to a
    new, larger array. *)
Definition appendRow (s : slice) (row : slice) : run slice :=
  fun h =>
    if (len s <? cap s)%nat then
      match rowArrays h !! arr s with
      | Some a =>
          if (off s + len s <? length a)%nat then
            (Returns {| arr := arr s; off := off s;
                        len := S (len s); cap := cap s |},
             {| tableObjs := tableObjs h;
                stringArrays := stringArrays h;
                rowArrays :=
                  <[arr s := <[(off s + len s)%nat := row]> a]> (rowArrays h) |})
          else (Panics, h)
      | None => (Panics, h)
      end
    else
      let newcap := Nat.max (S (len s)) (2 * cap s)%nat in
      (Returns {| arr := length (rowArrays h); off := 0%nat;
                  len := S (len s); cap := newcap |},
       allocRows (rowElems h s ++ row :: replicate (newcap - S (len s))%nat nilSlice) h).

(** [for i, val := range row { idents[curr.Columns[i]] = val }], with
    [n] cells left from index [i]. *)
Fixpoint fillRowS (curr : loc) (row : slice) (n i : nat)
    (idents : gmap string string) : run (gmap string string) :=
  match n with
  | O => ret idents
  | S n' =>
      val <- indexString row i ;;
      t <- loadTable curr ;;
      c <- indexString (tColumns t) i ;;
      fillRowS curr row n' (S i) (<[c := val]> idents)
  end.

(** [for _, row := range curr.Data { ... }] of [where], over the slice
    [data] that [range] read once, with [n] rows left from index [i]. *)
Fixpoint whereLoopS (Predicate : Expr) (curr newTable : loc) (data : slice)
    (n i : nat) (idents : gmap string string) : run unit :=
  match n with
  | O => ret tt
  | S n' =>
      row <- indexRow data i ;;
      idents' <- fillRowS curr row (len row) 0%nat idents ;;
      match evalExpr Predicate idents' with
      | Err e => raise e
      | Ok result =>
          _ <- (if stringToBool result then
                  t <- loadTable newTable ;;
                  data' <- appendRow (tData t) row ;;
                  storeTable newTable
                    {| tName := tName t; tColumns := tColumns t; tData := data' |}
                else ret tt) ;;
          whereLoopS Predicate curr newTable data n' (S i) idents'
      end
  end.

Definition evalOperatorS (op : TabularOperator) (curr : loc) : run loc :=
  match op with
  | CountOperator =>
      columns <- newStrings ["count()"] ;;
      t <- loadTable curr ;;
      cell <- newStrings [Itoa (Z.of_nat (len (tData t)))] ;;
      data <- newRows [cell] ;;
      newTableObj {| tName := ""; tColumns := columns; tData := data |}
  | TakeOperator RowCount =>
      match evalExpr RowCount ∅ with
      | Err e => raise e
      | Ok rowCount =>
          match Atoi rowCount with
          | Err e => raise e
          | Ok n =>
              if n <? 0 then raise ErrNegativeRowCount
              else
                t <- loadTable curr ;;
                newTableObj
                  {| tName := "";
                     tColumns := tColumns t;
                     tData :=
                       {| arr := arr (tData t);
                          off := off (tData t);
                          len := Z.to_nat (Z.min n (Z.of_nat (len (tData t))));
                          cap := cap (tData t) |} |}
          end
      end
  | WhereOperator Predicate =>
      t <- loadTable curr ;;
      data <- makeRows (len (tData t)) ;;
      newTable <- newTableObj
                    {| tName := ""; tColumns := tColumns t; tData := data |} ;;
      t' <- loadTable curr ;;
      _ <- whereLoopS Predicate curr newTable (tData t') (len (tData t')) 0%nat
             builtinIdents ;;
      ret newTable
  | _ => raise (ErrUnhandledOperator (operatorType op))
  end.

Fixpoint evalOperatorsS (ops : list TabularOperator) (curr : loc) : run loc :=
  match ops with
  | [] => ret curr
  | op :: ops' =>
      next <- evalOperatorS op curr ;;
      evalOperatorsS ops' next
  end.

Definition evalS (x : TabularExpr) (tables : gmap string loc) : run loc :=
  match Source x with
  | TableRef Table =>
      match tables !! parser.Name Table with
      | None => raise (ErrUnknownTable (parser.Name Table))
      | Some curr => evalOperatorsS (Operators x) curr
      end
  end.

(** [for _, tab := range tables { tableMap[tab.Name] = tab }] *)
Fixpoint tableMapS (tables : list loc) (m : gmap string loc)
    : run (gmap string loc) :=
  match tables with
  | [] => ret m
  | tab :: tables' =>
      t <- loadTable tab ;;
      tableMapS tables' (<[tName t := tab]> m)
  end.

Section EvalS.

Variable Parse : string -> result TabularExpr.

Definition EvalS (source : string) (tables : list loc) : run loc :=
  match Parse source with
  | Err e => raise e
  | Ok expr =>
      m <- tableMapS tables ∅ ;;
      evalS expr m
  end.

End EvalS.

(** What a slice of strings holds in a store, if it lies within its
    backing array. *)
Definition readStrings (h : store) (s : slice) : option (list string) :=
  match stringArrays h !! arr s with
  | Some a =>
      if decide (off s + len s <= length a)%nat
      then Some (take (len s) (drop (off s) a))
      else None
  | None => None
  end.

Definition readRows (h : store) (s : slice) : option (list slice) :=
  match rowArrays h !! arr s with
  | Some a =>
      if decide (off s + len s <= length a)%nat
      then Some (take (len s) (drop (off s) a))
      else None
  | None => None
  end.

(** The table a location holds in a store: its name, its columns and
    every cell of its rows. *)
Definition readTable (h : store) (p : loc) : option Table :=
  t ← tableObjs h !! p;
  columns ← readStrings h (tColumns t);
  rows ← readRows h (tData t);
  data ← mapM (readStrings h) rows;
  Some {| Name := tName t; Columns := columns; Data := data |}.

(** A store extends another when everything the first holds is still
    there, unchanged. *)
Definition extends (h h' : store) : Prop :=
  tableObjs h `prefix_of` tableObjs h' /\
  stringArrays h `prefix_of` stringArrays h' /\
  rowArrays h `prefix_of` rowArrays h'.

(** ** Abbreviations for examples *)

Definition lit (s : string) : Expr := BasicLit LitString s.
Definition num (s : string) : Expr := BasicLit LitLong s.
Definition ident (s : string) : Expr :=
  QualifiedIdent [{| parser.Name := s; Quoted := false |}].
Definition call (f : string) (args : list Expr) : Expr :=
  CallExpr {| parser.Name := f; Quoted := false |} args.
Definition pipeline (t : string) (ops : list TabularOperator) : TabularExpr :=
  {| Source := TableRef {| parser.Name := t; Quoted := false |};
     Operators := ops |}.

(** The table of the specification's evaluator scenario. *)
Definition T_ab : Table :=
  {| Name := "T"; Columns := ["a"; "b"];
     Data := [["1"; "2"]; ["3"; "0"]; ["5"; "4"]] |}.

(** A store that holds the table of the scenario at location 0. *)
Definition store_ab : store :=
  {| tableObjs :=
       [{| tName := "T";
           tColumns := {| arr := 0%nat; off := 0%nat; len := 2%nat; cap := 2%nat |};
           tData := {| arr := 0%nat; off := 0%nat; len := 3%nat; cap := 3%nat |} |}];
     stringArrays := [["a"; "b"]; ["1"; "2"]; ["3"; "0"]; ["5"; "4"]];
     rowArrays :=
       [[{| arr := 1%nat; off := 0%nat; len := 2%nat; cap := 2%nat |};
         {| arr := 2%nat; off := 0%nat; len := 2%nat; cap := 2%nat |};
         {| arr := 3%nat; off := 0%nat; len := 2%nat; cap := 2%nat |}]] |}.

(** What a run leaves at the location it returns. *)
Definition resultTable (r : exec loc * store) : exec Table :=
  match r.1 with
  | Returns p =>
      match readTable r.2 p with
      | Some t => Returns t
      | None => Panics
      end
  | Fails e => Fails e
  | Panics => Panics
  end.

(** The store while [where] runs over the table object [t]: the store
    [TO], [SA], [RA] of before, then the table under construction, with
    [k] rows so far, and the backing array [rowsA] that [make] gave it. *)
Definition building (TO : list TableStruct) (SA : list (list string))
    (RA : list (list slice)) (t : TableStruct) (k : nat) (rowsA : list slice)
    : store :=
  {| tableObjs :=
       TO ++ [{| tName := "";
                 tColumns := tColumns t;
                 tData := {| arr := length RA; off := 0%nat;
                             len := k; cap := len (tData t) |} |}];
     stringArrays := SA;
     rowArrays := RA ++ [rowsA] |}.

(** ** The command line: its inputs (package [main])

    The command opens its input files through the operating system.
    What the system answers is no code of the command, so it is a
    parameter: [osOpen], [rawRead] and [rawClose] say what [os.Open],
    the [Read] and the [Close] of a reader return, given what happened
    before.  The functions record what they do as events, in order. *)

(** An open file, by its descriptor; [os.Stdin] is descriptor 0. *)
Abbreviation File := nat (only parsing).
Definition Stdin : File := 0%nat.

(** The errors of the system calls; [io.EOF] is told apart by the code. *)
Inductive oserror : Set :=
| EOF
| ErrUnexpectedEOF
| OsError (msg : string).

(** The readers the command builds: an [os.File], a [nopReadCloser]
    around a reader, and a [multiReadCloser] over a list of readers. *)
Inductive Reader : Set :=
| osFile (f : File)
| nopReadCloser (r : Reader)
| multiReadCloser (readers : list Reader).

Inductive event : Set :=
| EvOpen (path : string) (r : File + oserror)
| EvRead (r : Reader) (data : string) (err : option oserror)
| EvClose (r : Reader) (err : option oserror)
| EvStderr (msg : string)              (* a line printed on standard error *)
| EvLog (err : error)                  (* logError(err) *)
| EvWrite (record : list string).      (* w.Write(record) on the CSV writer *)

(** A computation that adds to the events. *)
Definition io (A : Type) : Type := list event -> A * list event.

Definition ioret {A : Type} (a : A) : io A := fun tr => (a, tr).

Definition iobind {A B : Type} (m : io A) (k : A -> io B) : io B :=
  fun tr => let (a, tr') := m tr in k a tr'.

Notation "x <~ m ;; k" := (iobind m (fun x => k))
  (at level 100, m at next level, right associativity).

(** The files that a list of events opened, and the readers it closed. *)
Definition openedFiles (evs : list event) : list Reader :=
  flat_map (fun ev => match ev with
                      | EvOpen _ (inl f) => [osFile f]
                      | _ => []
                      end) evs.

Definition closedReaders (evs : list event) : list Reader :=
  flat_map (fun ev => match ev with
                      | EvClose r _ => [r]
                      | _ => []
                      end) evs.

(** The readers whose [Close] reaches the system: all but a
    [nopReadCloser], whose [Close] does nothing. *)
Definition closable (readers : list Reader) : list Reader :=
  List.filter (fun r => match r with nopReadCloser _ => false | _ => true end)
              readers.

(** Every [os.Open] among the events [evs] that follow the trace [tr]
    has the result the system gave at that point. *)
Fixpoint opensAnswered (osOpen : list event -> string -> File + oserror)
    (tr evs : list event) : Prop :=
  match evs with
  | [] => True
  | ev :: evs' =>
      match ev with
      | EvOpen path r => r = osOpen tr path
      | _ => True
      end /\
      opensAnswered osOpen (tr ++ [ev]) evs'
  end.

Section Inputs.

Variable osOpen : list event -> string -> File + oserror.
Variable rawRead : list event -> Reader -> nat -> string * option oserror.
Variable rawClose : list event -> Reader -> option oserror.
Variable IsTerminal : File -> bool.

(** [os.Open(path)] *)
Definition openFile (path : string) : io (File + oserror) :=
  fun tr => (osOpen tr path, tr ++ [EvOpen path (osOpen tr path)]).

(** [r.Read(p)] with [len(p) = n]: a [nopReadCloser] reads from the
    reader it embeds. *)
Fixpoint readerRead (r : Reader) (n : nat) : io (string * option oserror) :=
  match r with
  | nopReadCloser r' => readerRead r' n
  | _ => fun tr =>
           (rawRead tr r n,
            tr ++ [EvRead r (rawRead tr r n).1 (rawRead tr r n).2])
  end.

(** [r.Close()]: [nopReadCloser.Close] returns nil and does nothing. *)
Definition readerClose (r : Reader) : io (option oserror) :=
  match r with
  | nopReadCloser _ => ioret None
  | _ => fun tr => (rawClose tr r, tr ++ [EvClose r (rawClose tr r)])
  end.

(** [for _, c := range readers { c.Close() }] *)
Fixpoint closeAll (readers : list Reader) : io unit :=
  match readers with
  | [] => ioret tt
  | c :: readers' =>
      _ <~ readerClose c ;;
      closeAll readers'
  end.

(** The loop of [makeInput] over the paths, with the readers opened so
    far. *)
Fixpoint makeInputLoop (args : list string) (readers : list Reader)
    : io (Reader + oserror) :=
  match args with
  | [] => ioret (inl (multiReadCloser readers))
  | path :: args' =>
      if String.eqb path "-" then
        makeInputLoop args' (readers ++ [nopReadCloser (osFile Stdin)])
      else
        r <~ openFile path ;;
        match r with
        | inr err =>
            _ <~ closeAll readers ;;
            ioret (inr err)
        | inl f => makeInputLoop args' (readers ++ [osFile f])
        end
  end.

Definition makeInput (args : list string) : io (Reader + oserror) :=
  match args with
  | [] => ioret (inl (nopReadCloser (osFile Stdin)))
  | [arg] =>
      if String.eqb arg "-" then ioret (inl (nopReadCloser (osFile Stdin)))
      else
        r <~ openFile arg ;;
        ioret match r with
              | inl f => inl (osFile f)
              | inr err => inr err
              end
  | _ => makeInputLoop args []
  end.

(** [isTerminal]: the loop unwraps [nopReadCloser]s. *)
Fixpoint isTerminal (r : Reader) : bool :=
  match r with
  | osFile f => IsTerminal f
  | nopReadCloser r' => isTerminal r'
  | multiReadCloser _ => false
  end.

(** [multiReadCloser.Read(p)] with [len(p) = n], on the readers the
    object holds: the data and error returned, and the readers it holds
    afterwards. *)
Fixpoint mrcRead (readers : list Reader) (n : nat)
    : io (string * option oserror * list Reader) :=
  match readers with
  | [] => ioret ("", Some EOF, [])
  | r :: rest =>
      res <~ readerRead r n ;;
      match res.2 with
      | Some EOF =>
          _ <~ readerClose r ;;
          if (0 <? String.length res.1)%nat then
            ioret (res.1,
                   match rest with [] => Some EOF | _ => None end,
                   rest)
          else mrcRead rest n
      | err => ioret (res.1, err, readers)
      end
  end.

(** The loop of [multiReadCloser.Close]. *)
Fixpoint mrcCloseLoop (readers : list Reader) (firstError : option oserror)
    : io (option oserror) :=
  match readers with
  | [] => ioret firstError
  | rc :: readers' =>
      err <~ readerClose rc ;;
      mrcCloseLoop readers'
        (match firstError with None => err | Some _ => firstError end)
  end.

(** [multiReadCloser.Close()]: the error returned, and the readers
    held afterwards (none). *)
Definition mrcClose (readers : list Reader)
    : io (option oserror * list Reader) :=
  err <~ mrcCloseLoop readers None ;;
  ioret (err, []).

(** A call on a [multiReadCloser]. *)
Inductive mrcCall : Set :=
| CallRead (n : nat)
| CallClose.

(** A sequence of calls, from the readers held at first. *)
Fixpoint mrcCalls (calls : list mrcCall) (readers : list Reader)
    : io (list Reader) :=
  match calls with
  | [] => ioret readers
  | CallRead n :: calls' =>
      res <~ mrcRead readers n ;;
      mrcCalls calls' res.2
  | CallClose :: calls' =>
      res <~ mrcClose readers ;;
      mrcCalls calls' res.2
  end.

End Inputs.

(** ** The command line: [eval] (package [main])

    [runEval] loads tables from CSV files and evaluates the statements
    of its input.  Of [encoding/csv] the model takes what the successive
    [Read] calls on a file return, up to the end of the file
    ([csvFile]); of [bufio.Scanner], the lines it yields; of the parser,
    [SplitStatements], [Scan] and [Parse]; of [path/filepath], [Base].
    A record written to the CSV writer is an event. *)

(** The errors that [runEval] returns. *)
Inductive clierror : Set :=
| OpenError (err : oserror)                    (* the error of os.Open *)
| ReadError (path : string) (err : oserror)    (* read %s: %v *)
| StatementsFailed.  (* one or more statements could not be compiled *)

(** How a call of [runEval] ends: it returns (an error or nil), or it
    panics. *)
Inductive outcome : Set :=
| Done (err : option clierror)
| Panicked.

(** [strings.HasSuffix] and [strings.TrimSuffix]. *)
Definition HasSuffix (s suffix : string) : bool :=
  (String.length suffix <=? String.length s)%nat &&
  String.eqb (String.substring (String.length s - String.length suffix)
                               (String.length suffix) s)
             suffix.

Definition TrimSuffix (s suffix : string) : string :=
  if HasSuffix s suffix
  then String.substring 0 (String.length s - String.length suffix) s
  else s.



(** [w.Write(result.Columns); w.WriteAll(result.Data)]: the errors of
    the writer are not looked at. *)
Definition writeTable (result : Table) : io unit :=
  fun tr => (tt, tr ++ EvWrite (Columns result) :: map EvWrite (Data result)).

Module main.

Section RunEval.

Variable osOpen : list event -> string -> File + oserror.
Variable rawClose : list event -> Reader -> option oserror.
Variable IsTerminal : File -> bool.
Variable csvFile : list event -> File -> list (list string + oserror).
Variable Base : string -> string.
Variable Token : Type.
Variable SplitStatements : string -> list string.
Variable Scan : string -> list Token.
Variable Parse : string -> result TabularExpr.

(** The loop of [readTable] over the remaining [Read] results. *)
Fixpoint readRowsLoop (path : string) (reads : list (list string + oserror))
    (data : list (list string)) : list (list string) + clierror :=
  match reads with
  | [] => inl data                                   (* io.EOF *)
  | inr EOF :: _ => inl data
  | inr err :: _ => inr (ReadError path err)
  | inl row :: reads' => readRowsLoop path reads' (data ++ [row])
  end.

(** [readTable]: the file is closed on every way out, by [defer]. *)
Definition readTable (path : string) : io (Table + clierror) :=
  r <~ openFile osOpen path ;;
  match r with
  | inr err => ioret (inr (OpenError err))
  | inl f =>
      fun tr =>
        let reads := csvFile tr f in
        let res :=
          match reads with
          | [] | inr EOF :: _ => inr (ReadError path ErrUnexpectedEOF)
          | inr err :: _ => inr (ReadError path err)
          | inl columns :: reads' =>
              match readRowsLoop path reads' [] with
              | inr err => inr err
              | inl data =>
                  inl {| Name := TrimSuffix (Base path) ".csv";
                         Columns := columns;
                         Data := data |}
              end
          end in
        (res, (readerClose rawClose (osFile f) tr).2)
  end.

(** The loop of [runEval] that loads the tables. *)
Fixpoint readTables (tablePaths : list string) (tables : list Table)
    : io (list Table + clierror) :=
  match tablePaths with
  | [] => ioret (inl tables)
  | path :: tablePaths' =>
      r <~ readTable path ;;
      match r with
      | inr err => ioret (inr err)
      | inl tab => readTables tablePaths' (tables ++ [tab])
      end
  end.

(** The loop of [runEval] over the statements that are complete: the
    final error so far, or a panic of [Eval]. *)
Fixpoint evalStatements (tables : list Table) (statements : list string)
    (finalError : option clierror) : io outcome :=
  match statements with
  | [] => ioret (Done finalError)
  | stmt :: statements' =>
      match Eval Parse stmt tables with
      | Panics => ioret Panicked
      | Fails err =>
          fun tr =>
            evalStatements tables statements' (Some StatementsFailed)
                           (tr ++ [EvLog err])
      | Returns result =>
          _ <~ writeTable result ;;
          evalStatements tables statements' finalError
      end
  end.

(** The loop of [runEval] over the lines of the input, with the text
    that holds no complete statement yet: the final error and that text,
    or a panic. *)
Fixpoint scanLines (tables : list Table) (lines : list string) (sb : string)
    (finalError : option clierror) : io (outcome * string) :=
  match lines with
  | [] => ioret (Done finalError, sb)
  | line :: lines' =>
      let sb := sb +:+ line +:+ String "010" "" in
      let statements := SplitStatements sb in
      match statements with
      | [_] => scanLines tables lines' sb finalError
      | [] => ioret (Panicked, sb)        (* statements[:len(statements)-1] *)
      | _ =>
          r <~ evalStatements tables (removelast statements) finalError ;;
          match r with
          | Panicked => ioret (Panicked, sb)
          | Done finalError' =>
              scanLines tables lines' (List.last statements "") finalError'
          end
      end
  end.

(** [runEval], for the lines that the scanner yields from [source]. *)
Definition runEval (tablePaths : list string) (source : Reader)
    (lines : list string) : io outcome :=
  _ <~ (if isTerminal IsTerminal source
        then fun tr =>
               (tt, tr ++ [EvStderr
                 "Reading from terminal (use semicolons to end statements)..."])
        else ioret tt) ;;
  r <~ readTables tablePaths [] ;;
  match r with
  | inr err => ioret (Done (Some err))
  | inl tables =>
      r <~ scanLines tables lines "" None ;;
      match r with
      | (Panicked, _) => ioret Panicked
      | (Done finalError, stmt) =>
          if (0 <? length (Scan stmt))%nat then
            match Eval Parse stmt tables with
            | Panics => ioret Panicked
            | Fails err =>
                fun tr => (Done (Some StatementsFailed), tr ++ [EvLog err])
            | Returns result =>
                _ <~ writeTable result ;;
                ioret (Done finalError)
            end
          else ioret (Done finalError)
      end
  end.

End RunEval.

End main.

(** ** Notions used to state the properties *)

(** What unary minus does to a string: drop a leading [-], or else put
    one in front. *)
Definition toggleMinus (s : string) : string :=
  match s with
  | String "-"%char rest => rest
  | _ => "-" +:+ s
  end.

(** The map [whereLoop] holds after the fill step of the last of
    [rows]: the rows are filled in turn into the one map. *)
Fixpoint fillRows (Columns : list string) (rows : list (list string))
    (idents : gmap string string) : exec (gmap string string) :=
  match rows with
  | [] => Returns idents
  | row :: rows' =>
      match fillRow Columns 0 row idents with
      | Panics => Panics
      | Fails e => Fails e
      | Returns idents' => fillRows Columns rows' idents'
      end
  end.

(** The operators [eval] implements. *)
Definition handledOperator (op : TabularOperator) : bool :=
  match op with
  | CountOperator | TakeOperator _ | WhereOperator _ => true
  | _ => false
  end.

(** Whether [x] has an identifier at a place that [evalExpr] reaches
    whenever everything before it evaluated: not the right operand of
    [and]/[or], and not an element of an [in] list after the first. *)
Fixpoint evaluatesIdent (x : Expr) : bool :=
  match x with
  | ParenExpr X => evaluatesIdent X
  | BasicLit _ _ => false
  | QualifiedIdent _ => true
  | UnaryExpr _ X => evaluatesIdent X
  | BinaryExpr X Op Y =>
      evaluatesIdent X ||
      match Op with
      | TokenAnd | TokenOr => false
      | _ => evaluatesIdent Y
      end
  | InExpr X Vals =>
      evaluatesIdent X ||
      match Vals with
      | y :: _ => evaluatesIdent y
      | [] => false
      end
  | CallExpr _ Args =>
      (fix any (xs : list Expr) : bool :=
         match xs with
         | [] => false
         | a :: xs' => evaluatesIdent a || any xs'
         end) Args
  | IndexExpr _ _ => false
  end.

(** The identifiers of one row, as the specification describes them: the
    built-in bindings, overridden by the row's cells under the names of
    their columns, from left to right. *)
Definition bindRow (Columns row : list string) (idents : gmap string string)
    : gmap string string :=
  foldl (fun m cv => <[cv.1 := cv.2]> m) idents (zip Columns row).

Definition rowIdents (Columns row : list string) : gmap string string :=
  bindRow Columns row builtinIdents.

(** Whether [where] keeps a row, read from the specification: the
    predicate evaluates, without error, to a truthy string. *)
Definition keepsRow (Predicate : Expr) (Columns row : list string) : bool :=
  match evalExpr Predicate (rowIdents Columns row) with
  | Ok s => stringToBool s
  | Err _ => false
  end.

(** The error of the first row on which the predicate fails, if any. *)
Fixpoint firstError (Predicate : Expr) (Columns : list string)
    (rows : list (list string)) : option error :=
  match rows with
  | [] => None
  | row :: rows' =>
      match evalExpr Predicate (rowIdents Columns row) with
      | Err e => Some e
      | Ok _ => firstError Predicate Columns rows'
      end
  end.

(** A table is rectangular when every row has one cell per column. *)
Definition rectangular (t : Table) : Prop :=
  Forall (fun row => length row = length (Columns t)) (Data t).

(** The integer that a string of decimal digits denotes, continuing
    from [acc]. *)
Fixpoint digitsValue (s : string) (acc : Z) : option Z :=
  match s with
  | EmptyString => Some acc
  | String c rest =>
      match digitVal c with
      | None => None
      | Some d => digitsValue rest (acc * 10 + d)
      end
  end.

(** The integer of which [s] is a decimal representation: an optional
    sign, then at least one decimal digit. *)
Definition decimalInt (s : string) : option Z :=
  match s with
  | EmptyString => None
  | String c rest =>
      if Ascii.eqb c "-" then
        match rest with
        | EmptyString => None
        | _ => Z.opp <$> digitsValue rest 0
        end
      else if Ascii.eqb c "+" then
        match rest with
        | EmptyString => None
        | _ => digitsValue rest 0
        end
      else digitsValue s 0
  end.

(** A result that is an error. *)
Definition isErr {A : Type} (r : result A) : Prop := exists e, r = Err e.

(** Computations that only read. *)
Definition readonly {A : Type} (m : run A) : Prop := forall h, (m h).2 = h.

(** During [where], with [h0] the store at the time of the call:
    nothing of [h0] has changed, the table under construction is not one
    of [h0], and neither is the backing array of its rows. *)
Definition buildingInv (h0 : store) (newTable : loc) (h : store) : Prop :=
  extends h0 h /\
  (length (tableObjs h0) <= newTable)%nat /\
  (forall t, tableObjs h !! newTable = Some t ->
             (length (rowArrays h0) <= arr (tData t))%nat).

(** What a run on the store must do, given what the evaluator on table
    values does. *)
Definition refines (pure : exec Table) (r : exec loc * store) : Prop :=
  match pure with
  | Returns T' => exists p', r.1 = Returns p' /\ readTable r.2 p' = Some T'
  | Fails e => r.1 = Fails e
  | Panics => r.1 = Panics
  end.

(** The table map on the store names the locations of the tables that
    the table map on values holds. *)
Definition mapsAgree (h : store) (m : gmap string loc) (M : gmap string Table)
    : Prop :=
  forall name,
    match M !! name with
    | Some T => exists p, m !! name = Some p /\ readTable h p = Some T
    | None => m !! name = None
    end.

(** [reaches idents x y]: evaluating [x] on [idents] evaluates its
    subexpression [y], everything that is evaluated before [y] having
    returned a value.  The right operand of [and]/[or] is reached when
    the left one does not decide, a value of [in] when no value before
    it is equal to the left operand, an argument of a call when the
    function exists. *)
Inductive reaches (idents : gmap string string) : Expr -> Expr -> Prop :=
| reaches_here (x : Expr) : reaches idents x x
| reaches_paren (X y : Expr) :
    reaches idents X y -> reaches idents (ParenExpr X) y
| reaches_unary (Op : TokenKind) (X y : Expr) :
    reaches idents X y -> reaches idents (UnaryExpr Op X) y
| reaches_left (X : Expr) (Op : TokenKind) (Y y : Expr) :
    reaches idents X y -> reaches idents (BinaryExpr X Op Y) y
| reaches_right (X : Expr) (Op : TokenKind) (Y y : Expr) (a : string) :
    evalExpr X idents = Ok a ->
    (Op = TokenAnd -> stringToBool a = true) ->
    (Op = TokenOr -> stringToBool a = false) ->
    reaches idents Y y -> reaches idents (BinaryExpr X Op Y) y
| reaches_in_left (X : Expr) (Vals : list Expr) (y : Expr) :
    reaches idents X y -> reaches idents (InExpr X Vals) y
| reaches_in_val (X : Expr) (pre : list Expr) (v : Expr) (post : list Expr)
    (y : Expr) (a : string) :
    evalExpr X idents = Ok a ->
    Forall (fun p => exists b, evalExpr p idents = Ok b /\ b <> a) pre ->
    reaches idents v y -> reaches idents (InExpr X (pre ++ v :: post)) y
| reaches_arg (Func : Ident) (pre : list Expr) (v : Expr) (post : list Expr)
    (y : Expr) :
    is_Some (evalFuncs !! parser.Name Func) ->
    Forall (fun p => exists b, evalExpr p idents = Ok b) pre ->
    reaches idents v y -> reaches idents (CallExpr Func (pre ++ v :: post)) y.

(** ** Notions used to state further properties *)

(** The values of the arguments of a call, in order, or the first
    error. *)
Fixpoint evalArgs (xs : list Expr) (idents : gmap string string)
    : result (list string) :=
  match xs with
  | [] => Ok []
  | a :: xs' =>
      match evalExpr a idents with
      | Err e => Err e
      | Ok aa =>
          match evalArgs xs' idents with
          | Err e => Err e
          | Ok vs => Ok (aa :: vs)
          end
      end
  end.

(** The names that [x] looks up: those of its identifiers of one part. *)
Fixpoint identNames (x : Expr) : list string :=
  match x with
  | ParenExpr X => identNames X
  | BasicLit _ _ => []
  | QualifiedIdent Parts =>
      match Parts with
      | [part] => [parser.Name part]
      | _ => []
      end
  | UnaryExpr _ X => identNames X
  | BinaryExpr X _ Y => identNames X ++ identNames Y
  | InExpr X Vals =>
      identNames X ++
      (fix all (ys : list Expr) : list string :=
         match ys with
         | [] => []
         | y :: ys' => identNames y ++ all ys'
         end) Vals
  | CallExpr _ Args =>
      (fix all (ys : list Expr) : list string :=
         match ys with
         | [] => []
         | y :: ys' => identNames y ++ all ys'
         end) Args
  | IndexExpr _ _ => []
  end.

(** The operators that only select rows. *)
Definition selectsRows (op : TabularOperator) : bool :=
  match op with
  | TakeOperator _ | WhereOperator _ => true
  | _ => false
  end.



(** What [encoding/csv] promises with its default [FieldsPerRecord]: the
    records it returns without error all have as many fields as the
    first. *)
Definition sameFieldCount (reads : list (list string + oserror)) : Prop :=
  match reads with
  | inl columns :: reads' =>
      Forall (fun r => match r with
                       | inl row => length row = length columns
                       | inr _ => True
                       end) reads'
  | _ => True
  end.



(** For the examples of [runEval]: a splitter that cuts at the first
    semicolon, a scanner whose tokens are the characters other than
    spaces and line ends, a parser that knows the statement [T | count],
    and the records of a CSV file. *)
Definition splitAtSemicolon (s : string) : list string :=
  match String.index 0 ";" s with
  | Some i => [String.substring 0 i s;
               String.substring (S i) (String.length s - S i) s]
  | None => [s]
  end.

Definition scanChars (s : string) : list ascii :=
  List.filter (fun c => negb (Ascii.eqb c " " || Ascii.eqb c "010"))
              (list_ascii_of_string s).

Definition parseCount (s : string) : result TabularExpr :=
  if String.eqb (string_of_list_ascii (scanChars s)) "T|count"
  then Ok (pipeline "T" [CountOperator])
  else Err (ErrParse s).

Definition csv_ab : list (list string + oserror) :=
  [inl ["a"; "b"]; inl ["1"; "2"]; inl ["3"; "0"]].


(** * Properties *)

(** ** The definitions at work *)

Example evalExpr_strcat :
  evalExpr (call "strcat" [lit "a"; lit "b"]) ∅ = Ok "ab".
Proof. vm_compute. reflexivity. Qed.

Example Atoi_examples :
  Atoi "42" = Ok 42 /\ Atoi "-7" = Ok (-7) /\ Atoi "+007" = Ok 7 /\
  Atoi "" = Err (ErrSyntax "") /\ Atoi "-" = Err (ErrSyntax "-") /\
  Atoi "1.5" = Err (ErrSyntax "1.5") /\
  Atoi "9223372036854775807" = Ok 9223372036854775807 /\
  Atoi "9223372036854775808" = Err (ErrRange "9223372036854775808") /\
  Atoi "-9223372036854775808" = Ok (-9223372036854775808).
Proof. vm_compute. repeat split; reflexivity. Qed.

Example Itoa_examples : Itoa 0 = "0" /\ Itoa 3 = "3" /\ Itoa 120 = "120".
Proof. vm_compute. repeat split; reflexivity. Qed.

Example eval_scenario :
  eval (pipeline "T" [WhereOperator (ident "b"); TakeOperator (num "5")])
       (tableMap [T_ab])
  = Returns {| Name := ""; Columns := ["a"; "b"];
               Data := [["1"; "2"]; ["5"; "4"]] |}.
Proof. vm_compute. reflexivity. Qed.

(** ** Truthiness *)

Lemma stringToBool_false (s : string) :
  stringToBool s = false <-> s = "" \/ s = "0".
Proof.
  unfold stringToBool.
  destruct (String.eqb_spec s "") as [->|H1]; [simpl; tauto|].
  destruct (String.eqb_spec s "0") as [->|H2]; [simpl; tauto|].
  simpl. split; [discriminate | intros [?|?]; contradiction].
Qed.

Lemma stringToBool_true (s : string) :
  stringToBool s = true <-> s <> "" /\ s <> "0".
Proof.
  destruct (stringToBool s) eqn:E.
  - split; [intros _|reflexivity].
    split; intros ->; discriminate.
  - apply stringToBool_false in E.
    split; [discriminate | intros [H1 H2]; destruct E; contradiction].
Qed.

Lemma boolToString_eqb (a b : string) :
  boolToString (String.eqb a b) = if decide (a = b) then "1" else "0".
Proof.
  destruct (String.eqb_spec a b); destruct (decide (a = b)); simpl; congruence.
Qed.

(** ** [and] and [or] *)

(** C2: [X and Y] is the value of [X], whatever [Y] is (so without
    evaluating it, and without any error of it), when that value is
    falsy, and is otherwise the outcome of [Y]; [X or Y] is the value of
    [X] when it is truthy and otherwise the outcome of [Y].  The value
    returned is an operand's string as it is. *)
Theorem and_or_short_circuit
    (X Y : Expr) (idents : gmap string string) (a : string)
    (HX : evalExpr X idents = Ok a) :
  ((a = "" \/ a = "0") ->
     evalExpr (BinaryExpr X TokenAnd Y) idents = Ok a) /\
  ((a <> "" /\ a <> "0") ->
     evalExpr (BinaryExpr X TokenAnd Y) idents = evalExpr Y idents) /\
  ((a <> "" /\ a <> "0") ->
     evalExpr (BinaryExpr X TokenOr Y) idents = Ok a) /\
  ((a = "" \/ a = "0") ->
     evalExpr (BinaryExpr X TokenOr Y) idents = evalExpr Y idents) /\
  (forall (op : TokenKind) (r : string),
     op = TokenAnd \/ op = TokenOr ->
     evalExpr (BinaryExpr X op Y) idents = Ok r ->
     r = a \/ evalExpr Y idents = Ok r).
Proof.
  repeat split.
  - intros Hf. apply stringToBool_false in Hf.
    simpl. rewrite HX. simpl. rewrite Hf. reflexivity.
  - intros Ht. apply stringToBool_true in Ht.
    simpl. rewrite HX. simpl. rewrite Ht. simpl.
    destruct (evalExpr Y idents); reflexivity.
  - intros Ht. apply stringToBool_true in Ht.
    simpl. rewrite HX. simpl. rewrite Ht. reflexivity.
  - intros Hf. apply stringToBool_false in Hf.
    simpl. rewrite HX. simpl. rewrite Hf.
    destruct (evalExpr Y idents); reflexivity.
  - intros op r [-> | ->]; simpl; rewrite HX; simpl;
      destruct (stringToBool a); simpl;
      try (intros [= ->]; left; reflexivity);
      destruct (evalExpr Y idents); intros [= ->]; right; reflexivity.
Qed.

(** A falsy left operand hides the unknown function on the right. *)
Lemma and_or_short_circuit_witness :
  evalExpr (BinaryExpr (lit "0") TokenAnd (call "nosuch" [])) ∅ = Ok "0".
Proof.
  apply (and_or_short_circuit (lit "0") (call "nosuch" []) ∅ "0");
    [reflexivity | right; reflexivity].
Defined.

(** ** Equality, inequality and membership *)

Lemma evalExpr_in_loop (idents : gmap string string) (a : string)
    (Vals : list Expr) (vs : list string) :
  Forall2 (fun y v => evalExpr y idents = Ok v) Vals vs ->
  (fix loop (ys : list Expr) : result string :=
     match ys with
     | [] => Ok (boolToString false)
     | y :: ys' =>
         match evalExpr y idents with
         | Err e => Err e
         | Ok b => if String.eqb a b then Ok (boolToString true) else loop ys'
         end
     end) Vals
  = Ok (if decide (a ∈ vs) then "1" else "0").
Proof.
  induction 1 as [|y v Vals vs Hy _ IH].
  - destruct (decide (a ∈ [])) as [Hin|_]; [inversion Hin | reflexivity].
  - rewrite Hy. destruct (String.eqb_spec a v) as [->|Hne].
    + rewrite decide_True by left. reflexivity.
    + rewrite IH. destruct (decide (a ∈ vs)) as [Hin|Hnin].
      * rewrite decide_True by (right; exact Hin). reflexivity.
      * rewrite decide_False; [reflexivity|].
        intros Hin. apply elem_of_cons in Hin as [?|?]; contradiction.
Qed.

(** C5: with operands evaluating to the strings [a] and [b], [==] is
    ["1"] when the two strings are equal and ["0"] otherwise, [!=] is
    the opposite, and [a in (v1, ..., vn)] is ["1"] when [a] is equal to
    one of the evaluated [vi] and ["0"] otherwise.  Equality of Rocq
    strings is equality byte for byte. *)
Theorem eq_ne_in_byte_equality
    (X Y : Expr) (Vals : list Expr) (idents : gmap string string)
    (a b : string) (vs : list string)
    (HX : evalExpr X idents = Ok a)
    (HY : evalExpr Y idents = Ok b)
    (HVals : Forall2 (fun y v => evalExpr y idents = Ok v) Vals vs) :
  evalExpr (BinaryExpr X TokenEq Y) idents
    = Ok (if decide (a = b) then "1" else "0") /\
  evalExpr (BinaryExpr X TokenNE Y) idents
    = Ok (if decide (a = b) then "0" else "1") /\
  evalExpr (InExpr X Vals) idents
    = Ok (if decide (a ∈ vs) then "1" else "0").
Proof.
  repeat split.
  - simpl. rewrite HX, HY. simpl. f_equal. apply boolToString_eqb.
  - simpl. rewrite HX, HY. simpl. f_equal.
    destruct (String.eqb_spec a b); destruct (decide (a = b));
      simpl; congruence.
  - cbn [evalExpr]. rewrite HX. apply evalExpr_in_loop. exact HVals.
Qed.

Lemma eq_ne_in_byte_equality_witness :
  evalExpr (BinaryExpr (lit "ab") TokenEq (lit "aB")) ∅ = Ok "0" /\
  evalExpr (BinaryExpr (lit "ab") TokenNE (lit "aB")) ∅ = Ok "1" /\
  evalExpr (InExpr (lit "ab") [lit "x"; lit "ab"]) ∅ = Ok "1".
Proof.
  apply (eq_ne_in_byte_equality (lit "ab") (lit "aB") [lit "x"; lit "ab"]
           ∅ "ab" "aB" ["x"; "ab"]);
    [reflexivity | reflexivity | repeat constructor].
Defined.

(** ** Unary minus *)

Lemma evalExpr_minus (X : Expr) (idents : gmap string string) (s : string) :
  evalExpr X idents = Ok s ->
  evalExpr (UnaryExpr TokenMinus X) idents = Ok (toggleMinus s).
Proof.
  intros HX. simpl. rewrite HX. unfold cutMinus, toggleMinus.
  destruct s as [|c rest]; [reflexivity|].
  destruct c as [[] [] [] [] [] [] [] []]; reflexivity.
Qed.

Lemma toggleMinus_cons (c : ascii) (rest : string) :
  c <> "-"%char -> toggleMinus (String c rest) = "-" +:+ String c rest.
Proof.
  intros Hc. unfold toggleMinus.
  destruct c as [[] [] [] [] [] [] [] []]; try reflexivity.
  contradiction Hc. reflexivity.
Qed.

Lemma toggleMinus_twice (s : string) :
  toggleMinus (toggleMinus s) = s <-> ~ (exists u, s = "--" +:+ u).
Proof.
  destruct s as [|c rest].
  - simpl. split; [intros _ [u Hu]; discriminate | reflexivity].
  - destruct (decide (c = "-"%char)) as [->|Hc].
    + change (toggleMinus (String "-" rest)) with rest.
      destruct rest as [|d rest'].
      * simpl. split; [intros _ [u Hu]; discriminate | reflexivity].
      * destruct (decide (d = "-"%char)) as [->|Hd].
        -- change (toggleMinus (String "-" rest')) with rest'.
           split.
           ++ intros Heq. apply (f_equal String.length) in Heq.
              simpl in Heq. lia.
           ++ intros Hn. contradiction Hn. exists rest'. reflexivity.
        -- rewrite toggleMinus_cons by assumption.
           split; [|reflexivity].
           intros _ [u Hu]. injection Hu as Hu _. congruence.
    + rewrite toggleMinus_cons by assumption.
      split; [|reflexivity].
      intros _ [u Hu]. injection Hu as Hu _. congruence.
Qed.

(** C6, as the claim states it, at the string [--5]: the first minus
    gives [-5], the second gives [5]. *)
Lemma double_minus_counterexample :
  evalExpr (lit "--5") ∅ = Ok "--5" /\
  evalExpr (UnaryExpr TokenMinus (lit "--5")) ∅ = Ok "-5" /\
  evalExpr (UnaryExpr TokenMinus (UnaryExpr TokenMinus (lit "--5"))) ∅
    = Ok "5" /\
  "5" <> "--5".
Proof. repeat split. discriminate. Qed.

(** C6 (amended): unary minus drops a leading [-] from its operand's
    string and puts one in front otherwise; applying it twice to an
    expression of value [s] gives [s] again exactly when [s] does not
    begin with two [-]. *)
Theorem minus_toggles
    (X : Expr) (idents : gmap string string) (s : string)
    (HX : evalExpr X idents = Ok s) :
  evalExpr (UnaryExpr TokenMinus X) idents = Ok (toggleMinus s) /\
  (forall rest, s = "-" +:+ rest ->
     evalExpr (UnaryExpr TokenMinus X) idents = Ok rest) /\
  ((forall rest, s <> "-" +:+ rest) ->
     evalExpr (UnaryExpr TokenMinus X) idents = Ok ("-" +:+ s)) /\
  (evalExpr (UnaryExpr TokenMinus (UnaryExpr TokenMinus X)) idents = Ok s
     <-> ~ (exists u, s = "--" +:+ u)).
Proof.
  pose proof (evalExpr_minus X idents s HX) as H1.
  pose proof (evalExpr_minus _ idents _ H1) as H2.
  repeat split.
  - exact H1.
  - intros rest ->. exact H1.
  - intros Hn. rewrite H1. f_equal.
    destruct s as [|c rest]; [reflexivity|].
    apply toggleMinus_cons. intros ->. apply (Hn rest). reflexivity.
  - rewrite H2. intros [= Heq]. apply toggleMinus_twice. exact Heq.
  - intros Hn. rewrite H2. f_equal. apply toggleMinus_twice. exact Hn.
Qed.

Lemma minus_toggles_witness :
  evalExpr (UnaryExpr TokenMinus (lit "-5")) ∅ = Ok "5" /\
  evalExpr (UnaryExpr TokenMinus (UnaryExpr TokenMinus (lit "-5"))) ∅
    = Ok "-5".
Proof.
  destruct (minus_toggles (lit "-5") ∅ "-5" eq_refl) as (H1 & _ & _ & H4).
  split; [exact H1|].
  apply H4. intros [u Hu]. discriminate Hu.
Defined.

(** ** Induction on expressions *)

Section Expr_induction.

Variable P : Expr -> Prop.
Hypothesis HParen : forall X, P X -> P (ParenExpr X).
Hypothesis HLit : forall k v, P (BasicLit k v).
Hypothesis HIdent : forall parts, P (QualifiedIdent parts).
Hypothesis HUnary : forall op X, P X -> P (UnaryExpr op X).
Hypothesis HBinary : forall X op Y, P X -> P Y -> P (BinaryExpr X op Y).
Hypothesis HIn : forall X Vals, P X -> Forall P Vals -> P (InExpr X Vals).
Hypothesis HCall : forall f Args, Forall P Args -> P (CallExpr f Args).
Hypothesis HIndex : forall X i, P X -> P i -> P (IndexExpr X i).

Lemma Expr_nested_ind : forall x : Expr, P x.
Proof.
  fix IH 1. intros [X|k v|parts|op X|X op Y|X Vals|f Args|X i].
  - apply HParen, IH.
  - apply HLit.
  - apply HIdent.
  - apply HUnary, IH.
  - apply HBinary; apply IH.
  - apply HIn; [apply IH|].
    induction Vals as [|y ys IHys]; constructor; [apply IH | exact IHys].
  - apply HCall.
    induction Args as [|y ys IHys]; constructor; [apply IH | exact IHys].
  - apply HIndex; apply IH.
Qed.

End Expr_induction.

(** ** Errors of expressions *)

Lemma evalFuncs_lookup (name : string) :
  is_Some (evalFuncs !! name) <-> name = "not" \/ name = "strcat".
Proof.
  unfold evalFuncs. split.
  - intros [f Hf].
    destruct (decide (name = "not")) as [|Hn]; [left; assumption|].
    destruct (decide (name = "strcat")) as [|Hs]; [right; assumption|].
    rewrite !lookup_insert_ne, lookup_empty in Hf by congruence.
    discriminate.
  - intros [-> | ->].
    + rewrite lookup_insert_eq. eauto.
    + rewrite lookup_insert_ne by discriminate.
      rewrite lookup_insert_eq. eauto.
Qed.

Lemma evalExpr_unknown_function (Func : Ident) (Args : list Expr)
    (idents : gmap string string) :
  parser.Name Func <> "not" -> parser.Name Func <> "strcat" ->
  evalExpr (CallExpr Func Args) idents
  = Err (ErrUnknownFunction (parser.Name Func)).
Proof.
  intros Hn Hs. cbn [evalExpr].
  destruct (evalFuncs !! parser.Name Func) as [f|] eqn:E; [|reflexivity].
  assert (is_Some (evalFuncs !! parser.Name Func)) as H by eauto.
  apply evalFuncs_lookup in H as [?|?]; contradiction.
Qed.

(** The argument loop of a call: the values of the arguments in order,
    or the first error. *)
Lemma evalExpr_args_loop (idents : gmap string string) (xs : list Expr) :
  forall args : list string,
  Exists (fun a => isErr (evalExpr a idents)) xs ->
  isErr
    ((fix loop (xs : list Expr) (args : list string) : result (list string) :=
        match xs with
        | [] => Ok args
        | a :: xs' =>
            match evalExpr a idents with
            | Err e => Err e
            | Ok aa => loop xs' (args ++ [aa])%list
            end
        end) xs args).
Proof.
  induction xs as [|a xs IH]; intros args Hex.
  - inversion Hex.
  - destruct (evalExpr a idents) as [aa|e] eqn:Ea.
    + apply IH. inversion Hex as [? ? [e He]|]; subst; [congruence|assumption].
    + exists e. reflexivity.
Qed.

Lemma evalExpr_nil_ident (x : Expr) :
  evaluatesIdent x = true -> isErr (evalExpr x ∅).
Proof.
  induction x as [X IH|k v|parts|op X IH|X op Y IHX IHY|X Vals IHX IHV
                 |f Args IHA|X i _ _] using Expr_nested_ind;
    cbn [evaluatesIdent evalExpr]; intros H.
  - auto.
  - discriminate.
  - destruct parts as [|part [|? ?]]; try (eexists; reflexivity).
  - destruct (IH H) as [e ->]. eexists; reflexivity.
  - destruct (evalExpr X ∅) as [a|e] eqn:EX; [|eexists; reflexivity].
    destruct (evaluatesIdent X); [destruct (IHX eq_refl); discriminate|].
    simpl in H.
    destruct op; try discriminate;
      destruct (IHY H) as [e ->]; eexists; reflexivity.
  - destruct (evalExpr X ∅) as [a|e] eqn:EX; [|eexists; reflexivity].
    destruct (evaluatesIdent X); [destruct (IHX eq_refl); discriminate|].
    simpl in H. destruct Vals as [|y ys]; [discriminate|].
    inversion IHV as [|? ? IHy _]; subst.
    destruct (IHy H) as [e ->]. eexists; reflexivity.
  - destruct (evalFuncs !! parser.Name f) as [fn|]; [|eexists; reflexivity].
    assert (Exists (fun a => isErr (evalExpr a ∅)) Args) as Hex.
    { clear fn. induction Args as [|a Args IH]; [discriminate|].
      inversion IHA as [|? ? Ha HAs]; subst.
      destruct (evaluatesIdent a) eqn:Ea.
      - left. auto.
      - right. apply IH; assumption. }
    destruct (evalExpr_args_loop ∅ Args [] Hex) as [e ->].
    eexists; reflexivity.
  - discriminate.
Qed.

(** ** The loops of [eval] *)

Lemma evalOperators_app (pre post : list TabularOperator) (curr : Table) :
  evalOperators (pre ++ post) curr
  = match evalOperators pre curr with
    | Returns t => evalOperators post t
    | Fails e => Fails e
    | Panics => Panics
    end.
Proof.
  revert curr. induction pre as [|op pre IH]; intros curr; [reflexivity|].
  simpl. destruct (evalOperator op curr); auto.
Qed.

Lemma fillRow_not_Fails (Columns row : list string) :
  forall i idents e, fillRow Columns i row idents <> Fails e.
Proof.
  induction row as [|v row IH]; intros i idents e; simpl; [discriminate|].
  destruct (Columns !! i); [apply IH | discriminate].
Qed.

(** A name that labels none of the columns the row reaches keeps its
    binding. *)
Lemma fillRow_keeps (Columns row : list string) (name : string) :
  forall i idents idents',
  fillRow Columns i row idents = Returns idents' ->
  (forall j, (j < length row)%nat -> Columns !! (i + j)%nat <> Some name) ->
  idents' !! name = idents !! name.
Proof.
  induction row as [|v row IH]; intros i idents idents' Hfill Hno; simpl in *.
  - congruence.
  - destruct (Columns !! i) as [c|] eqn:Ec; [|discriminate].
    rewrite (IH _ _ _ Hfill).
    + apply lookup_insert_ne. intros ->.
      apply (Hno 0%nat); [lia|]. rewrite Nat.add_0_r. exact Ec.
    + intros j Hj. replace (S i + j)%nat with (i + S j)%nat by lia.
      apply Hno. lia.
Qed.

Lemma fillRow_outside (Columns row : list string) (name : string)
    (i : nat) (idents idents' : gmap string string) :
  name ∉ Columns ->
  fillRow Columns i row idents = Returns idents' ->
  idents' !! name = idents !! name.
Proof.
  intros Hout Hfill. apply (fillRow_keeps _ _ _ _ _ _ Hfill).
  intros j _ Hj. apply Hout. eapply list_elem_of_lookup_2. exact Hj.
Qed.

(** The cell under the last column of a name is what the name is bound
    to after the row is filled in. *)
Lemma fillRow_last (Columns row : list string) (name v : string) :
  forall i j idents idents',
  fillRow Columns i row idents = Returns idents' ->
  Columns !! (i + j)%nat = Some name ->
  row !! j = Some v ->
  (forall j', (j < j' < length row)%nat ->
              Columns !! (i + j')%nat <> Some name) ->
  idents' !! name = Some v.
Proof.
  induction row as [|w row IH]; intros i j idents idents' Hfill Hc Hv Hno;
    [discriminate|].
  simpl in Hfill.
  destruct (Columns !! i) as [c|] eqn:Ec; [|discriminate].
  destruct j as [|j].
  - rewrite Nat.add_0_r in Hc. injection Hv as ->.
    assert (c = name) as -> by congruence.
    rewrite (fillRow_keeps _ _ name _ _ _ Hfill).
    + apply lookup_insert_eq.
    + intros j' Hj'. replace (S i + j')%nat with (i + S j')%nat by lia.
      apply Hno. simpl. lia.
  - apply (IH (S i) j _ _ Hfill).
    + replace (S i + j)%nat with (i + S j)%nat by lia. exact Hc.
    + exact Hv.
    + intros j' Hj'. replace (S i + j')%nat with (i + S j')%nat by lia.
      apply Hno. simpl. lia.
Qed.

(** A row no longer than the column list is filled in without a panic,
    into the map the specification describes. *)
Lemma fillRow_bindRow (Columns row : list string) :
  forall i idents,
  (i + length row <= length Columns)%nat ->
  fillRow Columns i row idents = Returns (bindRow (drop i Columns) row idents).
Proof.
  induction row as [|v row IH]; intros i idents Hlen; simpl in *.
  - unfold bindRow. rewrite zip_with_nil_r. reflexivity.
  - destruct (Columns !! i) as [c|] eqn:Ec.
    + rewrite IH by lia. rewrite (drop_S _ _ _ Ec). reflexivity.
    + apply lookup_ge_None in Ec. lia.
Qed.

(** A row longer than the column list makes [where] panic. *)
Lemma fillRow_panics (Columns row : list string) :
  forall i idents,
  (i <= length Columns < i + length row)%nat ->
  fillRow Columns i row idents = Panics.
Proof.
  induction row as [|v row IH]; intros i idents Hlen; simpl in *; [lia|].
  destruct (Columns !! i) as [c|] eqn:Ec; [|reflexivity].
  apply IH. apply lookup_lt_Some in Ec. lia.
Qed.

Lemma bindRow_outside (Columns row : list string) (name : string) :
  forall idents,
  name ∉ Columns -> bindRow Columns row idents !! name = idents !! name.
Proof.
  unfold bindRow. revert row.
  induction Columns as [|c cs IH]; intros row idents Hout; [reflexivity|].
  destruct row as [|v row]; [reflexivity|]. simpl.
  rewrite IH by (intros Hin; apply Hout; right; exact Hin).
  apply lookup_insert_ne. intros ->. apply Hout. left.
Qed.

Lemma bindRow_agree (Columns row : list string) (name : string) :
  forall idents idents',
  length row = length Columns ->
  (name ∉ Columns -> idents !! name = idents' !! name) ->
  bindRow Columns row idents !! name = bindRow Columns row idents' !! name.
Proof.
  unfold bindRow. revert row.
  induction Columns as [|c cs IH]; intros row idents idents' Hlen Hag.
  - simpl. apply Hag. intros Hin. inversion Hin.
  - destruct row as [|v row]; [discriminate|]. simpl.
    apply IH; [simpl in Hlen; lia|].
    intros Hout. destruct (decide (c = name)) as [->|Hne].
    + rewrite !lookup_insert_eq. reflexivity.
    + rewrite !lookup_insert_ne by assumption.
      apply Hag. intros Hin. apply elem_of_cons in Hin as [?|?]; congruence.
Qed.

(** On a rectangular table the shared map holds, at every row, the
    identifiers of that row alone. *)
Lemma fillRow_rowIdents (Columns row : list string)
    (idents : gmap string string) :
  length row = length Columns ->
  (forall name, name ∉ Columns -> idents !! name = builtinIdents !! name) ->
  fillRow Columns 0 row idents = Returns (rowIdents Columns row).
Proof.
  intros Hlen Hinv. rewrite fillRow_bindRow by (simpl; lia).
  rewrite drop_0. f_equal. apply map_eq. intros name.
  apply bindRow_agree; auto.
Qed.

Lemma whereLoop_rectangular (Predicate : Expr) (Columns : list string)
    (rows : list (list string)) :
  forall idents newData,
  Forall (fun row => length row = length Columns) rows ->
  (forall name, name ∉ Columns -> idents !! name = builtinIdents !! name) ->
  whereLoop Predicate Columns rows idents newData
  = match firstError Predicate Columns rows with
    | Some e => Fails e
    | None =>
        Returns (newData ++ List.filter (keepsRow Predicate Columns) rows)%list
    end.
Proof.
  induction rows as [|row rows IH]; intros idents newData Hrect Hinv.
  - simpl. rewrite app_nil_r. reflexivity.
  - inversion Hrect as [|? ? Hrow Hrows]; subst.
    cbn [whereLoop firstError List.filter].
    rewrite (fillRow_rowIdents _ _ _ Hrow Hinv).
    unfold keepsRow at 1.
    destruct (evalExpr Predicate (rowIdents Columns row)) as [s|e];
      [|reflexivity].
    rewrite IH; [|assumption|].
    + destruct (firstError Predicate Columns rows); [reflexivity|].
      destruct (stringToBool s); [|reflexivity].
      rewrite <- app_assoc. reflexivity.
    + intros name Hout. unfold rowIdents. apply bindRow_outside. exact Hout.
Qed.

Lemma whereLoop_app (Predicate : Expr) (Columns : list string)
    (pre post : list (list string)) :
  forall idents newData,
  whereLoop Predicate Columns (pre ++ post) idents newData
  = match whereLoop Predicate Columns pre idents newData with
    | Returns newData' =>
        match fillRows Columns pre idents with
        | Returns idents' => whereLoop Predicate Columns post idents' newData'
        | Fails e => Fails e
        | Panics => Panics
        end
    | Fails e => Fails e
    | Panics => Panics
    end.
Proof.
  induction pre as [|row pre IH]; intros idents newData; [reflexivity|].
  cbn [app whereLoop fillRows].
  destruct (fillRow Columns 0 row idents) as [idents'|e|]; try reflexivity.
  destruct (evalExpr Predicate idents'); [apply IH | reflexivity].
Qed.

Lemma fillRows_outside (Columns : list string) (name : string)
    (rows : list (list string)) :
  forall idents idents',
  name ∉ Columns ->
  fillRows Columns rows idents = Returns idents' ->
  idents' !! name = idents !! name.
Proof.
  induction rows as [|row rows IH]; intros idents idents' Hout Hfill;
    simpl in Hfill.
  - congruence.
  - destruct (fillRow Columns 0 row idents) as [m| |] eqn:E;
      try discriminate.
    rewrite (IH _ _ Hout Hfill). eapply fillRow_outside; eassumption.
Qed.

Lemma firstError_None (Predicate : Expr) (Columns : list string)
    (rows : list (list string)) :
  firstError Predicate Columns rows = None <->
  Forall (fun row => exists s, evalExpr Predicate (rowIdents Columns row) = Ok s)
         rows.
Proof.
  induction rows as [|row rows IH]; simpl.
  - split; [constructor | reflexivity].
  - destruct (evalExpr Predicate (rowIdents Columns row)) as [s|e] eqn:E.
    + rewrite IH. split.
      * intros H. constructor; [eauto | exact H].
      * intros H. inversion H; assumption.
    + split; [discriminate|].
      intros H. inversion H as [|? ? [s Hs] _]; subst. congruence.
Qed.

(** ** [where] *)

(** C1, as the claim states it, at the table [T(a,b)] and the predicate
    [c]: no row makes the predicate evaluate to a truthy string, so the
    claim promises the table with no rows, and [where] returns the
    error of the first row instead. *)
Lemma where_counterexample :
  List.filter (keepsRow (ident "c") (Columns T_ab)) (Data T_ab) = [] /\
  evalOperator (WhereOperator (ident "c")) T_ab
  = Fails (ErrUnrecognizedIdentifier "c").
Proof. vm_compute. split; reflexivity. Qed.

(** Rows that do not have one cell per column: a longer row makes the
    index into the columns panic, and a shorter row is judged with what
    the row before it left in the map for the columns it lacks. *)
Example where_ragged_rows :
  evalOperator (WhereOperator (ident "a"))
               {| Name := "T"; Columns := ["a"]; Data := [["1"; "2"]] |}
  = Panics /\
  keepsRow (ident "b") ["a"; "b"] ["0"] = false /\
  evalOperator (WhereOperator (ident "b"))
               {| Name := "T"; Columns := ["a"; "b"];
                  Data := [["1"; "1"]; ["0"]] |}
  = Returns {| Name := ""; Columns := ["a"; "b"];
               Data := [["1"; "1"]; ["0"]] |}.
Proof. vm_compute. repeat split; reflexivity. Qed.

(** C1 (amended): on a table whose rows have one cell per column, when
    the predicate evaluates without error on every row, [where] returns
    the columns of its input and exactly the rows, in their order, on
    which the predicate is truthy (nonempty and not ["0"]); when the
    predicate fails on a row, [where] returns the first such error.  In
    the scenario of the specification, [T | where b | take 5] returns
    the rows [(1,2)] and [(5,4)]. *)
Theorem where_filters :
  (forall (Predicate : Expr) (curr : Table),
     rectangular curr ->
     Forall (fun row =>
               exists s, evalExpr Predicate (rowIdents (Columns curr) row) = Ok s)
            (Data curr) ->
     evalOperator (WhereOperator Predicate) curr
     = Returns
         {| Name := "";
            Columns := Columns curr;
            Data := List.filter
                      (fun row =>
                         match evalExpr Predicate (rowIdents (Columns curr) row) with
                         | Ok s => negb (String.eqb s "") && negb (String.eqb s "0")
                         | Err _ => false
                         end)
                      (Data curr) |}) /\
  (forall (Predicate : Expr) (curr : Table) (e : error),
     rectangular curr ->
     firstError Predicate (Columns curr) (Data curr) = Some e ->
     evalOperator (WhereOperator Predicate) curr = Fails e) /\
  eval (pipeline "T" [WhereOperator (ident "b"); TakeOperator (num "5")])
       (tableMap [T_ab])
  = Returns {| Name := ""; Columns := ["a"; "b"];
               Data := [["1"; "2"]; ["5"; "4"]] |}.
Proof.
  split; [|split].
  - intros Predicate curr Hrect Hok. apply firstError_None in Hok.
    unfold evalOperator.
    rewrite whereLoop_rectangular; [|exact Hrect|reflexivity].
    rewrite Hok. reflexivity.
  - intros Predicate curr e Hrect He. unfold evalOperator.
    rewrite whereLoop_rectangular; [|exact Hrect|reflexivity].
    rewrite He. reflexivity.
  - vm_compute. reflexivity.
Qed.

Lemma where_filters_witness :
  evalOperator (WhereOperator (ident "b")) T_ab
  = Returns {| Name := ""; Columns := ["a"; "b"];
               Data := [["1"; "2"]; ["5"; "4"]] |} /\
  evalOperator (WhereOperator (call "nosuch" [])) T_ab
  = Fails (ErrUnknownFunction "nosuch").
Proof.
  split.
  - refine (eq_trans (proj1 where_filters (ident "b") T_ab _ _) _).
    + repeat constructor.
    + repeat constructor; eexists; vm_compute; reflexivity.
    + vm_compute. reflexivity.
  - apply (proj1 (proj2 where_filters)).
    + repeat constructor.
    + vm_compute. reflexivity.
Defined.

(** ** Identifiers *)

Lemma whereLoop_constant_ident (Columns : list string) (name v : string)
    (q : bool) (rows : list (list string)) :
  forall idents newData,
  name ∉ Columns ->
  Forall (fun row => (length row <= length Columns)%nat) rows ->
  idents !! name = Some v ->
  whereLoop (QualifiedIdent [{| parser.Name := name; Quoted := q |}])
            Columns rows idents newData
  = Returns (newData ++ if stringToBool v then rows else [])%list.
Proof.
  induction rows as [|row rows IH]; intros idents newData Hout Hlen Hv.
  - simpl. destruct (stringToBool v); rewrite app_nil_r; reflexivity.
  - inversion Hlen as [|? ? Hrow Hrows]; subst.
    cbn [whereLoop].
    rewrite fillRow_bindRow by (simpl; lia). rewrite drop_0.
    cbn [evalExpr parser.Name].
    rewrite bindRow_outside, Hv by assumption.
    rewrite IH; try assumption.
    + destruct (stringToBool v); [|reflexivity].
      rewrite <- app_assoc. reflexivity.
    + rewrite bindRow_outside by assumption. exact Hv.
Qed.

(** C3, as the claim states it, fails in the row count of [take], where
    [true] is not bound at all, and on a table with a column called
    [true], where the identifier is the cell of the row: ["0"] here, so
    that the row is dropped. *)
Lemma builtin_binding_counterexample :
  evalOperator (TakeOperator (ident "true")) T_ab
  = Fails (ErrUnrecognizedIdentifier "true") /\
  fillRow ["true"] 0 ["0"] builtinIdents
  = Returns (<["true" := "0"]> builtinIdents) /\
  evalExpr (ident "true") (<["true" := "0"]> builtinIdents) = Ok "0" /\
  evalOperator (WhereOperator (ident "true"))
               {| Name := "T"; Columns := ["true"]; Data := [["0"]; ["7"]] |}
  = Returns {| Name := ""; Columns := ["true"]; Data := [["7"]] |}.
Proof. vm_compute. repeat split; reflexivity. Qed.

(** C3 (amended): in a [where] predicate over a table that has no column
    of that name, the identifiers [true], [false] and [null], quoted or
    not, evaluate to ["1"], ["0"] and [""] at every row; in the row
    count of [take] no identifier is bound and they are an
    unrecognized-identifier error. *)
Theorem builtin_idents_bind :
  (forall (Columns : list string) (rows : list (list string))
          (idents' : gmap string string) (q : bool),
     fillRows Columns rows builtinIdents = Returns idents' ->
     ("true" ∉ Columns ->
        evalExpr (QualifiedIdent [{| parser.Name := "true"; Quoted := q |}]) idents'
        = Ok "1") /\
     ("false" ∉ Columns ->
        evalExpr (QualifiedIdent [{| parser.Name := "false"; Quoted := q |}]) idents'
        = Ok "0") /\
     ("null" ∉ Columns ->
        evalExpr (QualifiedIdent [{| parser.Name := "null"; Quoted := q |}]) idents'
        = Ok "")) /\
  (forall (curr : Table) (q : bool),
     Forall (fun row => (length row <= length (Columns curr))%nat) (Data curr) ->
     ("true" ∉ Columns curr ->
        evalOperator
          (WhereOperator (QualifiedIdent [{| parser.Name := "true"; Quoted := q |}]))
          curr
        = Returns {| Name := ""; Columns := Columns curr; Data := Data curr |}) /\
     ("false" ∉ Columns curr ->
        evalOperator
          (WhereOperator (QualifiedIdent [{| parser.Name := "false"; Quoted := q |}]))
          curr
        = Returns {| Name := ""; Columns := Columns curr; Data := [] |}) /\
     ("null" ∉ Columns curr ->
        evalOperator
          (WhereOperator (QualifiedIdent [{| parser.Name := "null"; Quoted := q |}]))
          curr
        = Returns {| Name := ""; Columns := Columns curr; Data := [] |})) /\
  (forall (name : string) (q : bool) (curr : Table),
     evalOperator
       (TakeOperator (QualifiedIdent [{| parser.Name := name; Quoted := q |}]))
       curr
     = Fails (ErrUnrecognizedIdentifier name)).
Proof.
  split; [|split].
  - intros Columns rows idents' q Hfill.
    repeat split; intros Hout; cbn [evalExpr parser.Name];
      rewrite (fillRows_outside _ _ _ _ _ Hout Hfill); reflexivity.
  - intros curr q Hlen.
    repeat split; intros Hout; unfold evalOperator.
    + rewrite (whereLoop_constant_ident _ _ "1") by auto. reflexivity.
    + rewrite (whereLoop_constant_ident _ _ "0") by auto. reflexivity.
    + rewrite (whereLoop_constant_ident _ _ "") by auto. reflexivity.
  - intros name q curr. reflexivity.
Qed.

Lemma builtin_idents_bind_witness :
  evalOperator (WhereOperator (ident "true")) T_ab
  = Returns {| Name := ""; Columns := ["a"; "b"]; Data := Data T_ab |} /\
  evalExpr (ident "null") (<["b" := "2"]> (<["a" := "1"]> builtinIdents))
  = Ok "".
Proof.
  split.
  - apply (proj1 (proj2 builtin_idents_bind) T_ab false).
    + repeat constructor.
    + intros Hin. vm_compute in Hin.
      repeat (apply elem_of_cons in Hin as [Hin|Hin]; [discriminate|]).
      inversion Hin.
  - apply (proj1 builtin_idents_bind ["a"; "b"] [["1"; "2"]] _ false).
    + reflexivity.
    + intros Hin.
      repeat (apply elem_of_cons in Hin as [Hin|Hin]; [discriminate|]).
      inversion Hin.
Defined.

(** C9, as the claim states it, fails on a row that has no cell in the
    column: over the columns [a] and [true], the row [x] leaves [true]
    bound to the built-in ["1"], and the row is kept; after the row
    [y, 0] it leaves [true] bound to the cell ["0"] of that earlier
    row, and the row is dropped. *)
Lemma column_overrides_counterexample :
  fillRow ["a"; "true"] 0 ["x"] builtinIdents
  = Returns (<["a" := "x"]> builtinIdents) /\
  evalExpr (ident "true") (<["a" := "x"]> builtinIdents) = Ok "1" /\
  evalOperator (WhereOperator (ident "true"))
               {| Name := "T"; Columns := ["a"; "true"]; Data := [["x"]] |}
  = Returns {| Name := ""; Columns := ["a"; "true"]; Data := [["x"]] |} /\
  evalOperator (WhereOperator (ident "true"))
               {| Name := "T"; Columns := ["a"; "true"];
                  Data := [["y"; "0"]; ["x"]] |}
  = Returns {| Name := ""; Columns := ["a"; "true"]; Data := [] |}.
Proof. vm_compute. repeat split; reflexivity. Qed.

(** C9 (amended): when a row is filled into the identifier map,
    whatever the map held before (the built-in constants seeded before
    the loop, or what earlier rows wrote), the name of a column in which
    the row has a cell is bound to that cell (of the last such column,
    should several share the name); so over a table whose rows have one
    cell per column, [true], [false] or [null] naming a column
    evaluates, in the predicate, to the cell and not to the constant,
    and [where] over that identifier keeps the rows whose cell is
    truthy. *)
Theorem column_overrides_builtin :
  (forall (Columns row : list string) (idents idents' : gmap string string)
          (i : nat) (name v : string) (q : bool),
     fillRow Columns 0 row idents = Returns idents' ->
     Columns !! i = Some name ->
     row !! i = Some v ->
     (forall j, (i < j < length row)%nat -> Columns !! j <> Some name) ->
     evalExpr (QualifiedIdent [{| parser.Name := name; Quoted := q |}]) idents'
     = Ok v) /\
  (forall (curr : Table) (i : nat) (name : string) (q : bool),
     rectangular curr ->
     Columns curr !! i = Some name ->
     (forall j, (i < j)%nat -> Columns curr !! j <> Some name) ->
     evalOperator
       (WhereOperator (QualifiedIdent [{| parser.Name := name; Quoted := q |}]))
       curr
     = Returns {| Name := "";
                  Columns := Columns curr;
                  Data := List.filter (fun row => stringToBool (nth i row ""))
                                      (Data curr) |}).
Proof.
  split.
  - intros Columns row idents idents' i name v q Hfill Hcol Hcell Hlast.
    cbn [evalExpr parser.Name].
    rewrite (fillRow_last Columns row name v 0 i idents idents');
      auto.
  - intros curr i name q Hrect Hcol Hlast.
    assert (forall row, length row = length (Columns curr) ->
              rowIdents (Columns curr) row !! name = Some (nth i row ""))
      as Hrow.
    { intros row Hlen.
      apply (fillRow_last (Columns curr) row name _ 0 i builtinIdents).
      - apply fillRow_rowIdents; auto.
      - exact Hcol.
      - apply lookup_lt_Some in Hcol.
        destruct (lookup_lt_is_Some_2 row i) as [x Hx]; [lia|].
        rewrite (nth_lookup_Some _ _ "" _ Hx). exact Hx.
      - intros j Hj. apply Hlast. lia. }
    unfold evalOperator.
    rewrite whereLoop_rectangular; [|exact Hrect|reflexivity].
    assert (firstError (QualifiedIdent [{| parser.Name := name; Quoted := q |}])
              (Columns curr) (Data curr) = None) as ->.
    { apply firstError_None. eapply Forall_impl; [exact Hrect|].
      intros row Hlen. cbn [evalExpr parser.Name].
      rewrite (Hrow row Hlen). eauto. }
    simpl. do 2 f_equal.
    apply List.filter_ext_in. intros row Hin.
    unfold keepsRow. cbn [evalExpr parser.Name].
    rewrite Hrow; [reflexivity|].
    exact (proj1 (List.Forall_forall _ _) Hrect row Hin).
Qed.

Lemma column_overrides_builtin_witness :
  evalExpr (ident "null") (<["null" := "7"]> builtinIdents) = Ok "7" /\
  evalOperator (WhereOperator (ident "false"))
               {| Name := "T"; Columns := ["k"; "false"];
                  Data := [["x"; "1"]; ["y"; "0"]; ["z"; "no"]] |}
  = Returns {| Name := ""; Columns := ["k"; "false"];
               Data := [["x"; "1"]; ["z"; "no"]] |}.
Proof.
  split.
  - apply (proj1 column_overrides_builtin ["null"] ["7"] builtinIdents _
             0%nat "null" "7" false); try reflexivity.
    intros j Hj. simpl in Hj. lia.
  - refine (eq_trans
              (proj2 column_overrides_builtin
                 {| Name := "T"; Columns := ["k"; "false"];
                    Data := [["x"; "1"]; ["y"; "0"]; ["z"; "no"]] |}
                 1%nat "false" false _ _ _) _).
    + repeat constructor.
    + reflexivity.
    + intros [|[|j]] Hj; try lia; simpl; discriminate.
    + vm_compute. reflexivity.
Defined.


(** ** What the evaluator does not implement *)

Lemma evalExpr_in_loop_error (idents : gmap string string) (a : string)
    (pre : list Expr) (v : Expr) (post : list Expr) (e : error) :
  Forall (fun p => exists b, evalExpr p idents = Ok b /\ b <> a) pre ->
  evalExpr v idents = Err e ->
  (fix loop (ys : list Expr) : result string :=
     match ys with
     | [] => Ok (boolToString false)
     | y :: ys' =>
         match evalExpr y idents with
         | Err e => Err e
         | Ok b => if String.eqb a b then Ok (boolToString true) else loop ys'
         end
     end) (pre ++ v :: post)
  = Err e.
Proof.
  intros Hpre Hv. induction Hpre as [|p pre (b & Hp & Hne) _ IH]; cbn [app].
  - rewrite Hv. reflexivity.
  - rewrite Hp. destruct (String.eqb_spec a b) as [->|_]; [contradiction|].
    exact IH.
Qed.

Lemma evalExpr_args_loop_error (idents : gmap string string)
    (pre : list Expr) (v : Expr) (post : list Expr) (e : error) :
  Forall (fun p => exists b, evalExpr p idents = Ok b) pre ->
  evalExpr v idents = Err e ->
  forall args : list string,
  (fix loop (xs : list Expr) (args : list string) : result (list string) :=
     match xs with
     | [] => Ok args
     | a :: xs' =>
         match evalExpr a idents with
         | Err e => Err e
         | Ok aa => loop xs' (args ++ [aa])%list
         end
     end) (pre ++ v :: post) args
  = Err e.
Proof.
  intros Hpre Hv. induction Hpre as [|p pre (b & Hp) _ IH]; intros args;
    cbn [app].
  - rewrite Hv. reflexivity.
  - rewrite Hp. apply IH.
Qed.

(** An error at a place that the evaluation reaches is the result of the
    whole expression. *)
Lemma evalExpr_reaches_error (idents : gmap string string) (x y : Expr)
    (e : error) :
  reaches idents x y ->
  evalExpr y idents = Err e ->
  evalExpr x idents = Err e.
Proof.
  intros Hreach Hy.
  induction Hreach as [x|X y _ IH|Op X y _ IH|X Op Y y _ IH
                      |X Op Y y a HX Hand Hor _ IH|X Vals y _ IH
                      |X pre v post y a HX Hpre _ IH
                      |Func pre v post y [f Hf] Hpre _ IH];
    cbn [evalExpr].
  - exact Hy.
  - exact (IH Hy).
  - rewrite (IH Hy). reflexivity.
  - rewrite (IH Hy). reflexivity.
  - rewrite HX, (IH Hy). cbv zeta.
    destruct Op; try reflexivity.
    + rewrite Hand by reflexivity. reflexivity.
    + rewrite Hor by reflexivity. reflexivity.
  - rewrite (IH Hy). reflexivity.
  - rewrite HX. apply evalExpr_in_loop_error; [exact Hpre | exact (IH Hy)].
  - rewrite Hf.
    rewrite (evalExpr_args_loop_error idents pre v post e Hpre (IH Hy)).
    reflexivity.
Qed.

(** C8: the functions are [not] and [strcat] and a call of any other
    name is the unknown-function error; a binary operator other than
    [==], [!=], [and], [or] and a unary operator other than [+], [-]
    end in an error (of an operand, or else the unhandled-operator
    one); a pipeline operator other than [count], [take], [where] is
    the unhandled-operator error.  An error of a subexpression that the
    evaluation reaches, however deep, is the result of the whole
    expression; in the row count of [take], or in the predicate of
    [where] on a row, it is the result of the operator; and an error of
    an operator ends [eval] and [Eval] with that error and no table,
    whatever the operators before it produced and whatever rows [where]
    had kept. *)
Theorem unsupported_is_error :
  (forall name : string,
     is_Some (evalFuncs !! name) <-> name = "not" \/ name = "strcat") /\
  (forall (Func : Ident) (Args : list Expr) (idents : gmap string string),
     parser.Name Func <> "not" -> parser.Name Func <> "strcat" ->
     evalExpr (CallExpr Func Args) idents
     = Err (ErrUnknownFunction (parser.Name Func))) /\
  (forall (X Y : Expr) (op : TokenKind) (idents : gmap string string),
     op <> TokenEq -> op <> TokenNE -> op <> TokenAnd -> op <> TokenOr ->
     evalExpr (BinaryExpr X op Y) idents
     = match evalExpr X idents with
       | Err e => Err e
       | Ok _ =>
           match evalExpr Y idents with
           | Err e => Err e
           | Ok _ => Err (ErrUnhandledBinaryOperator op)
           end
       end) /\
  (forall (X : Expr) (op : TokenKind) (idents : gmap string string),
     op <> TokenPlus -> op <> TokenMinus ->
     evalExpr (UnaryExpr op X) idents
     = match evalExpr X idents with
       | Err e => Err e
       | Ok _ => Err (ErrUnhandledUnaryOperator op)
       end) /\
  (forall (op : TabularOperator) (curr : Table),
     handledOperator op = false ->
     evalOperator op curr = Fails (ErrUnhandledOperator (operatorType op))) /\
  (forall (idents : gmap string string) (x y : Expr) (e : error),
     reaches idents x y ->
     evalExpr y idents = Err e ->
     evalExpr x idents = Err e) /\
  (forall (RowCount y : Expr) (curr : Table) (e : error),
     reaches ∅ RowCount y ->
     evalExpr y ∅ = Err e ->
     evalOperator (TakeOperator RowCount) curr = Fails e) /\
  (forall (Predicate y : Expr) (curr : Table) (pre post : list (list string))
          (row : list string) (kept : list (list string))
          (idents idents' : gmap string string) (e : error),
     Data curr = (pre ++ row :: post)%list ->
     whereLoop Predicate (Columns curr) pre builtinIdents [] = Returns kept ->
     fillRows (Columns curr) pre builtinIdents = Returns idents ->
     fillRow (Columns curr) 0 row idents = Returns idents' ->
     reaches idents' Predicate y ->
     evalExpr y idents' = Err e ->
     evalOperator (WhereOperator Predicate) curr = Fails e) /\
  (forall (Parse : string -> result TabularExpr) (source : string)
          (x : TabularExpr) (tables : list Table) (src : Ident)
          (curr t : Table) (pre post : list TabularOperator)
          (op : TabularOperator) (e : error),
     Parse source = Ok x ->
     Source x = TableRef src ->
     tableMap tables !! parser.Name src = Some curr ->
     Operators x = (pre ++ op :: post)%list ->
     evalOperators pre curr = Returns t ->
     evalOperator op t = Fails e ->
     eval x (tableMap tables) = Fails e /\
     Eval Parse source tables = Fails e).
Proof.
  repeat apply conj.
  - exact evalFuncs_lookup.
  - exact evalExpr_unknown_function.
  - intros X Y op idents H1 H2 H3 H4. cbn [evalExpr].
    destruct (evalExpr X idents) as [a|e]; [|reflexivity].
    destruct op; try contradiction; cbv zeta;
      destruct (evalExpr Y idents); reflexivity.
  - intros X op idents H1 H2. cbn [evalExpr].
    destruct (evalExpr X idents) as [a|e]; [|reflexivity].
    destruct op; try contradiction; reflexivity.
  - intros op curr Hop. destruct op; try discriminate; reflexivity.
  - exact evalExpr_reaches_error.
  - intros RowCount y curr e Hreach Hy. unfold evalOperator.
    rewrite (evalExpr_reaches_error _ _ _ _ Hreach Hy). reflexivity.
  - intros Predicate y curr pre post row kept idents idents' e
           Hdata Hpre Hfills Hfill Hreach Hy.
    unfold evalOperator.
    rewrite Hdata, whereLoop_app, Hpre, Hfills.
    cbn [whereLoop].
    rewrite Hfill, (evalExpr_reaches_error _ _ _ _ Hreach Hy). reflexivity.
  - intros Parse source x tables src curr t pre post op e
           Hparse Hsrc Htab Hops Hpre Hop.
    assert (eval x (tableMap tables) = Fails e) as Heval.
    { unfold eval. rewrite Hsrc, Htab, Hops, evalOperators_app, Hpre.
      simpl. rewrite Hop. reflexivity. }
    split; [exact Heval|]. unfold Eval. rewrite Hparse. exact Heval.
Qed.

Lemma unsupported_is_error_witness :
  evalExpr (call "tolower" [lit "A"]) ∅ = Err (ErrUnknownFunction "tolower") /\
  evalExpr (BinaryExpr (lit "1") TokenPlus (lit "2")) ∅
  = Err (ErrUnhandledBinaryOperator TokenPlus) /\
  evalExpr (UnaryExpr TokenNot (lit "1")) ∅
  = Err (ErrUnhandledUnaryOperator TokenNot) /\
  Eval (fun _ => Ok (pipeline "T" [WhereOperator (ident "b");
                                   SortOperator []; CountOperator]))
       "T | where b | sort | count" [T_ab]
  = Fails (ErrUnhandledOperator "*parser.SortOperator") /\
  evalOperator
    (TakeOperator (call "strcat" [lit "1"; ParenExpr (UnaryExpr TokenMinus
                                                        (call "f" []))]))
    T_ab
  = Fails (ErrUnknownFunction "f") /\
  evalOperator
    (WhereOperator
       (call "not" [BinaryExpr (ident "a") TokenAnd
                      (InExpr (ident "b")
                         [lit "7"; BinaryExpr (lit "1") TokenStar (lit "2");
                          call "g" []])]))
    T_ab
  = Fails (ErrUnhandledBinaryOperator TokenStar).
Proof.
  destruct unsupported_is_error
    as (_ & Hcall & Hbin & Hun & Hop & _ & Htake & Hwh & Hab).
  repeat apply conj.
  - apply Hcall; discriminate.
  - apply (Hbin (lit "1") (lit "2") TokenPlus ∅); discriminate.
  - apply (Hun (lit "1") TokenNot ∅); discriminate.
  - apply (Hab _ _ (pipeline "T" [WhereOperator (ident "b");
                                  SortOperator []; CountOperator])
               _ {| parser.Name := "T"; Quoted := false |} T_ab
               {| Name := ""; Columns := ["a"; "b"];
                  Data := [["1"; "2"]; ["5"; "4"]] |}
               [WhereOperator (ident "b")] [CountOperator] (SortOperator []));
      try (apply Hop); try (vm_compute; reflexivity).
  - apply (Htake _ (call "f" [])).
    + apply (reaches_arg _ _ [lit "1"] _ []).
      * eexists. vm_compute. reflexivity.
      * repeat constructor. eexists. reflexivity.
      * apply reaches_paren, reaches_unary, reaches_here.
    + apply Hcall; discriminate.
  - apply (Hwh _ (BinaryExpr (lit "1") TokenStar (lit "2")) T_ab
               [] [["3"; "0"]; ["5"; "4"]] ["1"; "2"] []
               builtinIdents (<["b" := "2"]> (<["a" := "1"]> builtinIdents)));
      try (vm_compute; reflexivity).
    + apply (reaches_arg _ _ [] _ []).
      * eexists. vm_compute. reflexivity.
      * constructor.
      * apply (reaches_right _ _ _ _ _ "1").
        -- reflexivity.
        -- intros _. reflexivity.
        -- discriminate.
        -- apply (reaches_in_val _ _ [lit "7"] _ [call "g" []] _ "2").
           ++ reflexivity.
           ++ repeat constructor. exists "7". split; [reflexivity|discriminate].
           ++ apply reaches_here.
Defined.

(** ** The row count of [take] *)

(** C10, as the claim states it, at the row count [2 or x]: the left
    operand is truthy, the identifier is never evaluated, and [take]
    succeeds. *)
Lemma take_ident_counterexample :
  evaluatesIdent (BinaryExpr (num "2") TokenOr (ident "x")) = false /\
  evalExpr (ident "x") ∅ = Err (ErrUnrecognizedIdentifier "x") /\
  evalOperator (TakeOperator (BinaryExpr (num "2") TokenOr (ident "x"))) T_ab
  = Returns {| Name := ""; Columns := ["a"; "b"];
               Data := [["1"; "2"]; ["3"; "0"]] |}.
Proof. vm_compute. repeat split; reflexivity. Qed.

(** C10 (amended): the row count of [take] is evaluated with no
    identifier in scope: an identifier of one part, [true], [false] and
    [null] among them, is the unrecognized-identifier error there, and a
    row count with an identifier at a place that is evaluated (not the
    right operand of [and]/[or], not a later element of an [in] list)
    makes [take], and with it the whole evaluation, end in an error. *)
Theorem take_has_no_identifiers :
  (forall (name : string) (q : bool),
     evalExpr (QualifiedIdent [{| parser.Name := name; Quoted := q |}]) ∅
     = Err (ErrUnrecognizedIdentifier name)) /\
  (forall (name : string) (q : bool) (curr : Table),
     evalOperator
       (TakeOperator (QualifiedIdent [{| parser.Name := name; Quoted := q |}]))
       curr
     = Fails (ErrUnrecognizedIdentifier name)) /\
  (forall (RowCount : Expr) (curr : Table),
     evaluatesIdent RowCount = true ->
     exists e, evalExpr RowCount ∅ = Err e /\
               evalOperator (TakeOperator RowCount) curr = Fails e) /\
  (forall (RowCount : Expr) (pre post : list TabularOperator) (curr t : Table),
     evaluatesIdent RowCount = true ->
     evalOperators pre curr = Returns t ->
     exists e, evalOperators (pre ++ TakeOperator RowCount :: post) curr
               = Fails e).
Proof.
  assert (forall RowCount curr, evaluatesIdent RowCount = true ->
            exists e, evalExpr RowCount ∅ = Err e /\
                      evalOperator (TakeOperator RowCount) curr = Fails e)
    as Htake.
  { intros RowCount curr H.
    destruct (evalExpr_nil_ident RowCount H) as [e He].
    exists e. split; [exact He|].
    unfold evalOperator. rewrite He. reflexivity. }
  repeat apply conj.
  - reflexivity.
  - reflexivity.
  - exact Htake.
  - intros RowCount pre post curr t H Hpre.
    destruct (Htake RowCount t H) as (e & _ & He).
    exists e. rewrite evalOperators_app, Hpre. cbn [evalOperators].
    rewrite He. reflexivity.
Qed.

Lemma take_has_no_identifiers_witness :
  exists e,
    evalOperators [CountOperator;
                   TakeOperator (call "strcat" [lit "1"; ident "null"]);
                   CountOperator] T_ab
    = Fails e.
Proof.
  apply (proj2 (proj2 (proj2 take_has_no_identifiers))
           (call "strcat" [lit "1"; ident "null"])
           [CountOperator] [CountOperator] T_ab
           {| Name := ""; Columns := ["count()"]; Data := [["3"]] |});
    vm_compute; reflexivity.
Defined.

(** ** [strconv.Atoi] *)

Lemma digitVal_range (c : ascii) (d : Z) : digitVal c = Some d -> 0 <= d <= 9.
Proof.
  unfold digitVal.
  destruct (_ && _) eqn:E; [|discriminate].
  intros [= <-]. apply andb_true_iff in E as [H1 H2]. lia.
Qed.

Lemma digitsValue_ge (s : string) :
  forall acc v, 0 <= acc -> digitsValue s acc = Some v -> acc <= v.
Proof.
  induction s as [|c rest IH]; intros acc v Hacc; simpl.
  - intros [= <-]. lia.
  - destruct (digitVal c) as [d|] eqn:Ed; [|discriminate].
    apply digitVal_range in Ed. intros Hv.
    apply IH in Hv; lia.
Qed.

Lemma parseUintLoop_spec (s0 s : string) :
  forall n, 0 <= n <= maxUint64 ->
  match digitsValue s n with
  | None => isErr (parseUintLoop s0 s n)
  | Some v =>
      parseUintLoop s0 s n
      = if v <=? maxUint64 then Ok v else Err (ErrRange s0)
  end.
Proof.
  induction s as [|c rest IH]; intros n Hn; cbn [digitsValue parseUintLoop].
  - destruct (Z.leb_spec n maxUint64); [reflexivity | lia].
  - destruct (digitVal c) as [d|] eqn:Ed; [|eexists; reflexivity].
    pose proof (digitVal_range _ _ Ed) as Hd.
    change (maxUint64 / 10 + 1) with 1844674407370955162.
    cbv zeta.
    destruct (Z.geb_spec n 1844674407370955162) as [Hcut|Hcut].
    + destruct (digitsValue rest (n * 10 + d)) as [v|] eqn:Ev;
        [|eexists; reflexivity].
      apply digitsValue_ge in Ev; [|lia].
      destruct (Z.leb_spec v maxUint64) as [Hle|]; [|reflexivity].
      unfold maxUint64 in Hle. lia.
    + destruct (Z.gtb_spec (n * 10 + d) maxUint64) as [Hov|Hok].
      * destruct (digitsValue rest (n * 10 + d)) as [v|] eqn:Ev;
          [|eexists; reflexivity].
        apply digitsValue_ge in Ev; [|lia].
        destruct (Z.leb_spec v maxUint64) as [Hle|]; [lia | reflexivity].
      * apply IH. lia.
Qed.

Lemma ParseUint_Ok (s0 s : string) (v : Z) :
  ParseUint s0 s = Ok v <->
  s <> "" /\ digitsValue s 0 = Some v /\ v <= maxUint64.
Proof.
  unfold ParseUint. destruct s as [|c rest].
  - split; [discriminate | intros [H _]; contradiction].
  - pose proof (parseUintLoop_spec s0 (String c rest) 0) as H.
    assert (0 <= 0 <= maxUint64) as H0 by (unfold maxUint64; lia).
    specialize (H H0).
    destruct (digitsValue (String c rest) 0) as [w|].
    + rewrite H. destruct (Z.leb_spec w maxUint64).
      * split.
        -- intros [= ->]. repeat split; [discriminate | assumption].
        -- intros (_ & [= ->] & _). reflexivity.
      * split; [discriminate | intros (_ & [= ->] & ?); lia].
    + destruct H as [e ->].
      split; [discriminate | intros (_ & ? & _); discriminate].
Qed.

(** [Atoi] accepts exactly the decimal representations of the integers
    of the 64-bit [int]. *)
Lemma Atoi_Ok (s : string) (n : Z) :
  Atoi s = Ok n <-> decimalInt s = Some n /\ - 2 ^ 63 <= n < 2 ^ 63.
Proof.
  unfold Atoi, decimalInt. destruct s as [|c rest].
  - split; [discriminate | intros [? _]; discriminate].
  - set (s := String c rest).
    destruct (Ascii.eqb c "-") eqn:Eminus.
    + rewrite orb_true_r. cbn [negb andb].
      destruct (ParseUint s rest) as [un|e] eqn:Eu.
      * apply ParseUint_Ok in Eu as (Hne & Hv & Hmax).
        destruct rest as [|d rest']; [contradiction|].
        rewrite Hv. cbn [fmap option_fmap option_map].
        destruct (Z.gtb_spec un (2 ^ 63)).
        -- split; [discriminate | intros [[= <-] ?]; lia].
        -- split; [intros [= <-]; split; [reflexivity|] | intros [[= <-] _]; reflexivity].
           apply digitsValue_ge in Hv; lia.
      * split; [discriminate|].
        intros [Hd Hr]. destruct rest as [|d rest']; [discriminate|].
        destruct (digitsValue (String d rest') 0) as [v|] eqn:Ev;
          [|discriminate].
        injection Hd as <-.
        assert (ParseUint s (String d rest') = Ok v) as Hp.
        { apply ParseUint_Ok. repeat split; [discriminate | assumption|].
          unfold maxUint64. lia. }
        congruence.
    + rewrite orb_false_r. cbn [negb andb].
      destruct (Ascii.eqb c "+") eqn:Eplus.
      * destruct (ParseUint s rest) as [un|e] eqn:Eu.
        -- apply ParseUint_Ok in Eu as (Hne & Hv & Hmax).
           destruct rest as [|d rest']; [contradiction|].
           rewrite Hv.
           destruct (Z.geb_spec un (2 ^ 63)).
           ++ split; [discriminate | intros [[= <-] ?]; lia].
           ++ split; [intros [= <-]; split; [reflexivity|] | intros [[= <-] _]; reflexivity].
              apply digitsValue_ge in Hv; lia.
        -- split; [discriminate|].
           intros [Hd Hr]. destruct rest as [|d rest']; [discriminate|].
           assert (ParseUint s (String d rest') = Ok n) as Hp.
           { apply ParseUint_Ok. repeat split; [discriminate | assumption|].
             unfold maxUint64. lia. }
           congruence.
      * destruct (ParseUint s s) as [un|e] eqn:Eu.
        -- apply ParseUint_Ok in Eu as (Hne & Hv & Hmax).
           fold s. rewrite Hv.
           destruct (Z.geb_spec un (2 ^ 63)).
           ++ split; [discriminate | intros [[= <-] ?]; lia].
           ++ split; [intros [= <-]; split; [reflexivity|] | intros [[= <-] _]; reflexivity].
              apply digitsValue_ge in Hv; lia.
        -- split; [discriminate|].
           fold s. intros [Hd Hr].
           assert (ParseUint s s = Ok n) as Hp.
           { apply ParseUint_Ok. repeat split; [discriminate | assumption|].
             unfold maxUint64. lia. }
           congruence.
Qed.

(** ** [take] *)

(** C4, as the claim states it, at the row count [9223372036854775808]:
    the string is the decimal representation of an integer that is not
    negative, and [take] returns the range error of [strconv.Atoi]. *)
Lemma take_counterexample :
  evalExpr (num "9223372036854775808") ∅ = Ok "9223372036854775808" /\
  decimalInt "9223372036854775808" = Some 9223372036854775808 /\
  0 <= 9223372036854775808 /\
  evalOperator (TakeOperator (num "9223372036854775808")) T_ab
  = Fails (ErrRange "9223372036854775808").
Proof. vm_compute. repeat split; try reflexivity. discriminate. Qed.

(** C4 (amended): when the row count of [take] evaluates to the string
    [s], [take] returns an error exactly when [s] is not the decimal
    representation of an integer between 0 and the largest [int],
    [2^63 - 1]: when it is no decimal integer at all, a negative one, or
    one too large; otherwise it returns the columns of its input and
    its first [min(n, number of rows)] rows.  When the row count itself
    fails to evaluate, [take] returns that error. *)
Theorem take_row_count :
  (forall (RowCount : Expr) (curr : Table) (s : string),
     evalExpr RowCount ∅ = Ok s ->
     ((exists e, evalOperator (TakeOperator RowCount) curr = Fails e) <->
      ~ (exists n, decimalInt s = Some n /\ 0 <= n < 2 ^ 63)) /\
     (forall n, decimalInt s = Some n -> 0 <= n < 2 ^ 63 ->
        evalOperator (TakeOperator RowCount) curr
        = Returns
            {| Name := "";
               Columns := Columns curr;
               Data := take (Nat.min (Z.to_nat n) (length (Data curr)))
                            (Data curr) |}) /\
     (forall n, decimalInt s = Some n -> - 2 ^ 63 <= n < 0 ->
        evalOperator (TakeOperator RowCount) curr = Fails ErrNegativeRowCount)) /\
  (forall (RowCount : Expr) (curr : Table) (e : error),
     evalExpr RowCount ∅ = Err e ->
     evalOperator (TakeOperator RowCount) curr = Fails e).
Proof.
  split.
  - intros RowCount curr s HN. unfold evalOperator. rewrite HN.
    destruct (Atoi s) as [n|e] eqn:EA.
    + apply Atoi_Ok in EA as [Hd Hr]. rewrite Hd.
      destruct (Z.ltb_spec n 0) as [Hneg|Hpos].
      * split; [split|split].
        -- intros _ (m & [= <-] & Hm). lia.
        -- eauto.
        -- intros m [= <-] Hm. lia.
        -- reflexivity.
      * split; [split|split].
        -- intros [e He]. discriminate.
        -- intros Hno. contradiction Hno. exists n. split; [reflexivity | lia].
        -- intros m [= <-] _. rewrite Z2Nat.inj_min, Nat2Z.id. reflexivity.
        -- intros m [= <-] Hm. lia.
    + assert (forall m, decimalInt s = Some m -> - 2 ^ 63 <= m < 2 ^ 63 -> False)
        as Hno.
      { intros m Hd Hm.
        assert (Atoi s = Ok m) as HA by (apply Atoi_Ok; split; assumption).
        congruence. }
      split; [split|split].
      * intros _ (m & Hd & Hm). apply (Hno m Hd). lia.
      * eauto.
      * intros m Hd Hm. exfalso. apply (Hno m Hd). lia.
      * intros m Hd Hm. exfalso. apply (Hno m Hd). lia.
  - intros RowCount curr e HN. unfold evalOperator. rewrite HN. reflexivity.
Qed.

Lemma take_row_count_witness :
  evalOperator (TakeOperator (num "2")) T_ab
  = Returns {| Name := ""; Columns := ["a"; "b"];
               Data := [["1"; "2"]; ["3"; "0"]] |} /\
  evalOperator (TakeOperator (UnaryExpr TokenMinus (num "1"))) T_ab
  = Fails ErrNegativeRowCount /\
  evalOperator (TakeOperator (ident "n")) T_ab
  = Fails (ErrUnrecognizedIdentifier "n").
Proof.
  destruct take_row_count as [Hok Herr].
  repeat apply conj.
  - destruct (Hok (num "2") T_ab "2" eq_refl) as (_ & H & _).
    apply (H 2); [reflexivity | lia].
  - destruct (Hok (UnaryExpr TokenMinus (num "1")) T_ab "-1" eq_refl)
      as (_ & _ & H).
    apply (H (-1)); [reflexivity | lia].
  - apply Herr. reflexivity.
Defined.

(** ** The store: what a call leaves in place *)

Lemma extends_refl (h : store) : extends h h.
Proof. repeat split; reflexivity. Qed.

Lemma extends_trans (h1 h2 h3 : store) :
  extends h1 h2 -> extends h2 h3 -> extends h1 h3.
Proof.
  intros (A1 & B1 & C1) (A2 & B2 & C2).
  repeat split; etransitivity; eassumption.
Qed.

Lemma prefix_insert_ge {A : Type} (l0 l : list A) (i : nat) (x : A) :
  l0 `prefix_of` l -> (length l0 <= i)%nat -> l0 `prefix_of` <[i := x]> l.
Proof.
  intros [k ->] Hi. rewrite insert_app_r_alt by exact Hi.
  apply prefix_app_r. reflexivity.
Qed.

Lemma extends_allocRows (h0 h : store) (l : list slice) :
  extends h0 h -> extends h0 (allocRows l h).
Proof.
  intros (A & B & C). repeat split; simpl; try assumption.
  apply prefix_app_r. exact C.
Qed.

Lemma readonly_bind {A B : Type} (m : run A) (k : A -> run B) :
  readonly m -> (forall a, readonly (k a)) -> readonly (bind m k).
Proof.
  intros Hm Hk h. unfold bind. specialize (Hm h).
  destruct (m h) as [[a|e|] h']; simpl in Hm; subst h';
    [apply Hk | reflexivity | reflexivity].
Qed.

Lemma readonly_ret {A : Type} (a : A) : readonly (ret a).
Proof. intros h. reflexivity. Qed.

Lemma readonly_loadTable (p : loc) : readonly (loadTable p).
Proof. intros h. unfold loadTable. destruct (_ !! _); reflexivity. Qed.

Lemma readonly_indexString (s : slice) (i : nat) : readonly (indexString s i).
Proof.
  intros h. unfold indexString.
  destruct (_ <? _)%nat; [|reflexivity].
  destruct (_ !! _) as [a|]; [|reflexivity].
  destruct (_ !! _); reflexivity.
Qed.

Lemma readonly_indexRow (s : slice) (i : nat) : readonly (indexRow s i).
Proof.
  intros h. unfold indexRow.
  destruct (_ <? _)%nat; [|reflexivity].
  destruct (_ !! _) as [a|]; [|reflexivity].
  destruct (_ !! _); reflexivity.
Qed.

Lemma readonly_fillRowS (curr : loc) (row : slice) (n : nat) :
  forall i idents, readonly (fillRowS curr row n i idents).
Proof.
  induction n as [|n IH]; intros i idents; cbn [fillRowS].
  - apply readonly_ret.
  - apply readonly_bind; [apply readonly_indexString|]. intros val.
    apply readonly_bind; [apply readonly_loadTable|]. intros t.
    apply readonly_bind; [apply readonly_indexString|]. intros c.
    apply IH.
Qed.

Lemma readonly_tableMapS (tables : list loc) :
  forall m, readonly (tableMapS tables m).
Proof.
  induction tables as [|tab tables IH]; intros m; cbn [tableMapS].
  - apply readonly_ret.
  - apply readonly_bind; [apply readonly_loadTable|]. intros t. apply IH.
Qed.

Section Frame.

(** The store at the time of the call. *)
Variable h0 : store.

Lemma appendRow_frame (s row : slice) (h : store) :
  extends h0 h ->
  (length (rowArrays h0) <= arr s)%nat ->
  extends h0 (appendRow s row h).2 /\
  tableObjs (appendRow s row h).2 = tableObjs h /\
  (forall d, (appendRow s row h).1 = Returns d ->
             (length (rowArrays h0) <= arr d)%nat).
Proof.
  intros Hext Hfresh. unfold appendRow.
  destruct (len s <? cap s)%nat.
  - destruct (rowArrays h !! arr s) as [a|]; [|simpl; intuition discriminate].
    destruct (off s + len s <? length a)%nat; [|simpl; intuition discriminate].
    simpl. split; [|split; [reflexivity|]].
    + destruct Hext as (A & B & C). repeat split; simpl; try assumption.
      apply prefix_insert_ge; assumption.
    + intros d [= <-]. exact Hfresh.
  - simpl. split; [|split; [reflexivity|]].
    + apply extends_allocRows. exact Hext.
    + intros d [= <-]. simpl.
      destruct Hext as (_ & _ & C). apply prefix_length in C. exact C.
Qed.

Lemma storeTable_frame (newTable : loc) (t : TableStruct) (h : store) :
  buildingInv h0 newTable h ->
  (length (rowArrays h0) <= arr (tData t))%nat ->
  buildingInv h0 newTable (storeTable newTable t h).2.
Proof.
  intros (Hext & Hnew & Hobj) Hfresh. unfold storeTable.
  destruct (tableObjs h !! newTable) as [old|] eqn:E;
    unfold buildingInv, extends; cbn [snd tableObjs stringArrays rowArrays].
  - split; [|split; [exact Hnew|]].
    + destruct Hext as (A & B & C). repeat split; try assumption.
      apply prefix_insert_ge; assumption.
    + intros t'. apply lookup_lt_Some in E.
      rewrite list_lookup_insert_eq by exact E. intros [= <-]. exact Hfresh.
  - destruct Hext as (A & B & C). repeat split; try assumption.
    intros t0 Ht0. congruence.
Qed.

Lemma whereLoopS_frame (Predicate : Expr) (curr newTable : loc) (data : slice)
    (n : nat) :
  forall i idents h,
  buildingInv h0 newTable h ->
  buildingInv h0 newTable (whereLoopS Predicate curr newTable data n i idents h).2.
Proof.
  induction n as [|n IH]; intros i idents h Hinv; cbn [whereLoopS].
  - exact Hinv.
  - unfold bind at 1.
    pose proof (readonly_indexRow data i h) as Hr.
    destruct (indexRow data i h) as [[row|e|] h1]; simpl in Hr; subst h1;
      try exact Hinv.
    unfold bind at 1.
    pose proof (readonly_fillRowS curr row (len row) 0 idents h) as Hf.
    destruct (fillRowS curr row (len row) 0 idents h) as [[idents'|e|] h1];
      simpl in Hf; subst h1; try exact Hinv.
    destruct (evalExpr Predicate idents') as [result|e]; [|exact Hinv].
    unfold bind at 1.
    destruct (stringToBool result).
    + unfold bind at 1. unfold loadTable at 1.
      destruct (tableObjs h !! newTable) as [t|] eqn:Et; [|exact Hinv].
      unfold bind at 1.
      destruct Hinv as (Hext & Hnew & Hobj).
      destruct (appendRow_frame (tData t) row h Hext (Hobj t Et))
        as (Hext' & Htabs & Hd).
      destruct (appendRow (tData t) row h) as [[data'|e|] h1];
        simpl in Hext', Htabs, Hd;
        try (cbn [snd];
             split; [exact Hext' | split; [exact Hnew | rewrite Htabs; exact Hobj]]).
      assert (buildingInv h0 newTable h1) as Hinv1
        by (split; [exact Hext' | split; [exact Hnew | rewrite Htabs; exact Hobj]]).
      pose proof (storeTable_frame newTable
                    {| tName := tName t; tColumns := tColumns t; tData := data' |}
                    h1 Hinv1 (Hd data' eq_refl)) as Hinv2.
      destruct (storeTable newTable _ h1) as [[[]|e|] h2]; simpl in Hinv2;
        try exact Hinv2.
      apply IH. exact Hinv2.
    + cbn [ret]. apply IH. exact Hinv.
Qed.

Lemma evalOperatorS_frame (op : TabularOperator) (curr : loc) (h : store) :
  extends h0 h -> extends h0 (evalOperatorS op curr h).2.
Proof.
  intros Hext. pose proof Hext as (A & B & C).
  destruct op; cbn [evalOperatorS]; try exact Hext.
  - (* count *)
    unfold bind, newStrings, loadTable, newRows, newTableObj. simpl.
    destruct (tableObjs h !! curr) as [t|]; simpl;
      repeat split; simpl; repeat apply prefix_app_r; assumption.
  - (* take *)
    destruct (evalExpr RowCount ∅) as [rowCount|e]; [|exact Hext].
    destruct (Atoi rowCount) as [n|e]; [|exact Hext].
    destruct (n <? 0); [exact Hext|].
    unfold bind, loadTable, newTableObj.
    destruct (tableObjs h !! curr) as [t|]; simpl; [|exact Hext].
    repeat split; simpl; try assumption. apply prefix_app_r. assumption.
  - (* where *)
    unfold bind at 1. unfold loadTable at 1.
    destruct (tableObjs h !! curr) as [t|] eqn:Et; [|exact Hext].
    unfold bind at 1. unfold makeRows at 1.
    unfold bind at 1. unfold newTableObj at 1.
    set (h1 := {| tableObjs := _ ++ [_] |}).
    assert (buildingInv h0 (length (tableObjs (allocRows (replicate (len (tData t)) nilSlice) h))) h1)
      as Hinv.
    { subst h1. repeat split; simpl.
      - apply prefix_app_r. assumption.
      - assumption.
      - apply prefix_app_r. assumption.
      - apply prefix_length. assumption.
      - intros t'. rewrite lookup_app_r by reflexivity.
        rewrite Nat.sub_diag. intros [= <-]. simpl.
        apply prefix_length. assumption. }
    unfold bind at 1.
    pose proof (readonly_loadTable curr h1) as Hr.
    destruct (loadTable curr h1) as [[t'|e|] h2]; simpl in Hr; subst h2;
      try apply Hinv.
    unfold bind at 1.
    pose proof (whereLoopS_frame Predicate curr _ (tData t') (len (tData t')) 0
                  builtinIdents h1 Hinv) as Hw.
    destruct (whereLoopS _ _ _ _ _ _ _ h1) as [[[]|e|] h2]; apply Hw.
Qed.

Lemma evalOperatorsS_frame (ops : list TabularOperator) :
  forall curr h,
  extends h0 h -> extends h0 (evalOperatorsS ops curr h).2.
Proof.
  induction ops as [|op ops IH]; intros curr h Hext; cbn [evalOperatorsS].
  - exact Hext.
  - unfold bind.
    pose proof (evalOperatorS_frame op curr h Hext) as H1.
    destruct (evalOperatorS op curr h) as [[next|e|] h1]; simpl in H1;
      try exact H1.
    apply IH. exact H1.
Qed.

Lemma EvalS_frame (Parse : string -> result TabularExpr) (source : string)
    (tables : list loc) :
  extends h0 (EvalS Parse source tables h0).2.
Proof.
  unfold EvalS. destruct (Parse source) as [expr|e]; [|apply extends_refl].
  unfold bind.
  pose proof (readonly_tableMapS tables ∅ h0) as Hr.
  destruct (tableMapS tables ∅ h0) as [[m|e|] h1]; simpl in Hr; subst h1;
    try apply extends_refl.
  unfold evalS. destruct (Source expr) as [src].
  destruct (m !! parser.Name src) as [curr|]; [|apply extends_refl].
  apply evalOperatorsS_frame. apply extends_refl.
Qed.

End Frame.

Lemma readStrings_extends (h h' : store) (s : slice) (l : list string) :
  extends h h' -> readStrings h s = Some l -> readStrings h' s = Some l.
Proof.
  intros (_ & B & _). unfold readStrings.
  destruct (stringArrays h !! arr s) as [a|] eqn:E; [|discriminate].
  rewrite (prefix_lookup_Some _ _ _ _ E B). auto.
Qed.

Lemma readRows_extends (h h' : store) (s : slice) (l : list slice) :
  extends h h' -> readRows h s = Some l -> readRows h' s = Some l.
Proof.
  intros (_ & _ & C). unfold readRows.
  destruct (rowArrays h !! arr s) as [a|] eqn:E; [|discriminate].
  rewrite (prefix_lookup_Some _ _ _ _ E C). auto.
Qed.

Lemma readTable_extends (h h' : store) (p : loc) (T : Table) :
  extends h h' -> readTable h p = Some T -> readTable h' p = Some T.
Proof.
  intros Hext. pose proof Hext as (A & _ & _). unfold readTable.
  destruct (tableObjs h !! p) as [t|] eqn:Et; [|discriminate].
  rewrite (prefix_lookup_Some _ _ _ _ Et A). cbn [mbind option_bind].
  destruct (readStrings h (tColumns t)) as [columns|] eqn:Ec; [|discriminate].
  rewrite (readStrings_extends _ _ _ _ Hext Ec). cbn [mbind option_bind].
  destruct (readRows h (tData t)) as [rows|] eqn:Er; [|discriminate].
  rewrite (readRows_extends _ _ _ _ Hext Er). cbn [mbind option_bind].
  destruct (mapM (readStrings h) rows) as [data|] eqn:Ed; [|discriminate].
  assert (mapM (readStrings h') rows = Some data) as ->; [|auto].
  apply mapM_Some. apply mapM_Some in Ed.
  eapply Forall2_impl; [exact Ed|].
  intros s l. apply readStrings_extends. exact Hext.
Qed.

(** C7: whatever a call of [Eval] does (return a table, return an error,
    panic), every table object, every backing array of strings and every
    backing array of rows that the store held before the call is in the
    store after it, unchanged; so a table of the caller reads after the
    call as it read before: same name, same columns, same rows and
    cells. *)
Theorem Eval_leaves_tables
    (Parse : string -> result TabularExpr) (source : string)
    (tables : list loc) (h : store) :
  extends h (EvalS Parse source tables h).2 /\
  (forall (p : loc) (t : TableStruct),
     tableObjs h !! p = Some t ->
     tableObjs (EvalS Parse source tables h).2 !! p = Some t) /\
  (forall (p : loc) (T : Table),
     readTable h p = Some T ->
     readTable (EvalS Parse source tables h).2 p = Some T).
Proof.
  pose proof (EvalS_frame h Parse source tables) as Hext.
  split; [exact Hext|]. split.
  - intros p t Ht. destruct Hext as (A & _ & _).
    exact (prefix_lookup_Some _ _ _ _ Ht A).
  - intros p T. apply readTable_extends. exact Hext.
Qed.

(** The scenario on the store: the result is built, by [append] writing
    in place, next to the table of the caller, which reads as before. *)
Lemma Eval_leaves_tables_witness :
  readTable store_ab 0%nat = Some T_ab /\
  resultTable
    (EvalS (fun _ => Ok (pipeline "T" [WhereOperator (ident "b");
                                       TakeOperator (num "5")]))
           "T | where b | take 5" [0%nat] store_ab)
  = Returns {| Name := ""; Columns := ["a"; "b"];
               Data := [["1"; "2"]; ["5"; "4"]] |} /\
  readTable
    (EvalS (fun _ => Ok (pipeline "T" [WhereOperator (ident "b");
                                       TakeOperator (num "5")]))
           "T | where b | take 5" [0%nat] store_ab).2 0%nat
  = Some T_ab.
Proof.
  split; [vm_compute; reflexivity|].
  split; [vm_compute; reflexivity|].
  apply Eval_leaves_tables. vm_compute. reflexivity.
Defined.

(** ** The store: the two evaluators agree *)

Lemma readStrings_length (h : store) (s : slice) (l : list string) :
  readStrings h s = Some l -> length l = len s.
Proof.
  unfold readStrings. destruct (_ !! _) as [a|]; [|discriminate].
  destruct (decide _) as [Hle|]; [|discriminate].
  intros [= <-]. rewrite length_take, length_drop. lia.
Qed.

Lemma readRows_length (h : store) (s : slice) (l : list slice) :
  readRows h s = Some l -> length l = len s.
Proof.
  unfold readRows. destruct (_ !! _) as [a|]; [|discriminate].
  destruct (decide _) as [Hle|]; [|discriminate].
  intros [= <-]. rewrite length_take, length_drop. lia.
Qed.

(** Indexing a slice that reads as [l] is indexing [l], with the panic
    past its end. *)
Lemma indexString_read (h : store) (s : slice) (l : list string) (i : nat) :
  readStrings h s = Some l ->
  indexString s i h
  = (match l !! i with Some v => Returns v | None => Panics end, h).
Proof.
  intros Hread. pose proof (readStrings_length _ _ _ Hread) as Hlen.
  unfold readStrings in Hread. unfold indexString.
  destruct (stringArrays h !! arr s) as [a|]; [|discriminate].
  destruct (decide _) as [Hle|]; [|discriminate].
  injection Hread as <-.
  destruct (Nat.ltb_spec i (len s)) as [Hi|Hi].
  - rewrite lookup_take_lt, lookup_drop by exact Hi.
    destruct (a !! (off s + i)%nat); reflexivity.
  - rewrite lookup_ge_None_2 by lia. reflexivity.
Qed.

Lemma indexRow_read (h : store) (s : slice) (l : list slice) (i : nat) :
  readRows h s = Some l ->
  indexRow s i h
  = (match l !! i with Some v => Returns v | None => Panics end, h).
Proof.
  intros Hread. pose proof (readRows_length _ _ _ Hread) as Hlen.
  unfold readRows in Hread. unfold indexRow.
  destruct (rowArrays h !! arr s) as [a|]; [|discriminate].
  destruct (decide _) as [Hle|]; [|discriminate].
  injection Hread as <-.
  destruct (Nat.ltb_spec i (len s)) as [Hi|Hi].
  - rewrite lookup_take_lt, lookup_drop by exact Hi.
    destruct (a !! (off s + i)%nat); reflexivity.
  - rewrite lookup_ge_None_2 by lia. reflexivity.
Qed.

Lemma readTable_inv (h : store) (p : loc) (T : Table) :
  readTable h p = Some T ->
  exists t rows,
    tableObjs h !! p = Some t /\
    Name T = tName t /\
    readStrings h (tColumns t) = Some (Columns T) /\
    readRows h (tData t) = Some rows /\
    Forall2 (fun s l => readStrings h s = Some l) rows (Data T).
Proof.
  unfold readTable.
  destruct (tableObjs h !! p) as [t|] eqn:Et; [|discriminate].
  cbn [mbind option_bind].
  destruct (readStrings h (tColumns t)) as [columns|] eqn:Ec; [|discriminate].
  cbn [mbind option_bind].
  destruct (readRows h (tData t)) as [rows|] eqn:Er; [|discriminate].
  cbn [mbind option_bind].
  destruct (mapM (readStrings h) rows) as [data|] eqn:Ed; [|discriminate].
  cbn [mbind option_bind]. intros [= <-].
  exists t, rows. apply mapM_Some in Ed. auto.
Qed.

Lemma readTable_intro (h : store) (p : loc) (t : TableStruct)
    (columns : list string) (rows : list slice) (data : list (list string)) :
  tableObjs h !! p = Some t ->
  readStrings h (tColumns t) = Some columns ->
  readRows h (tData t) = Some rows ->
  Forall2 (fun s l => readStrings h s = Some l) rows data ->
  readTable h p
  = Some {| Name := tName t; Columns := columns; Data := data |}.
Proof.
  intros Ht Hc Hr Hd. apply mapM_Some in Hd.
  unfold readTable. rewrite Ht. cbn [mbind option_bind].
  rewrite Hc. cbn [mbind option_bind].
  rewrite Hr. cbn [mbind option_bind].
  rewrite Hd. reflexivity.
Qed.

(** Filling a row from the store is filling the row it reads as. *)
Lemma fillRowS_refines (h : store) (curr : loc) (t : TableStruct)
    (columns : list string) (row : slice) (l : list string) :
  tableObjs h !! curr = Some t ->
  readStrings h (tColumns t) = Some columns ->
  readStrings h row = Some l ->
  forall n i idents,
  (i + n = len row)%nat ->
  fillRowS curr row n i idents h = (fillRow columns i (drop i l) idents, h).
Proof.
  intros Ht Hc Hl. pose proof (readStrings_length _ _ _ Hl) as Hlen.
  induction n as [|n IH]; intros i idents Hi; cbn [fillRowS].
  - rewrite drop_ge by lia. reflexivity.
  - destruct (lookup_lt_is_Some_2 l i) as [val Hval]; [lia|].
    rewrite (drop_S _ _ _ Hval). cbn [fillRow].
    unfold bind at 1. rewrite (indexString_read _ _ _ _ Hl), Hval.
    unfold bind at 1. unfold loadTable. rewrite Ht.
    unfold bind at 1. rewrite (indexString_read _ _ _ _ Hc).
    destruct (columns !! i) as [c|]; [|reflexivity].
    apply IH. lia.
Qed.

Lemma insert_at_end {A : Type} (l : list A) (x y : A) :
  <[length l := x]> (l ++ [y]) = l ++ [x].
Proof.
  rewrite insert_app_r_alt by reflexivity.
  rewrite Nat.sub_diag. reflexivity.
Qed.

Lemma lookup_at_end {A : Type} (l : list A) (x : A) :
  (l ++ [x]) !! length l = Some x.
Proof. apply list_lookup_middle. reflexivity. Qed.

Section WhereOnStore.

Variable Predicate : Expr.
Variable TO : list TableStruct.
Variable SA : list (list string).
Variable RA : list (list slice).
Variable curr : loc.
Variable t : TableStruct.
Variable columns : list string.
Variable rowsS : list slice.
Variable data : list (list string).

Hypothesis Ht : TO !! curr = Some t.
Hypothesis Hcolumns :
  readStrings {| tableObjs := TO; stringArrays := SA; rowArrays := RA |}
              (tColumns t) = Some columns.
Hypothesis Hrows :
  readRows {| tableObjs := TO; stringArrays := SA; rowArrays := RA |}
           (tData t) = Some rowsS.
Hypothesis Hdata :
  Forall2 (fun s l =>
             readStrings {| tableObjs := TO; stringArrays := SA; rowArrays := RA |} s
             = Some l)
          rowsS data.

Lemma building_extends (k : nat) (rowsA : list slice) :
  extends {| tableObjs := TO; stringArrays := SA; rowArrays := RA |}
          (building TO SA RA t k rowsA).
Proof.
  repeat split; simpl; try reflexivity; apply prefix_app_r; reflexivity.
Qed.

(** One turn of the loop, on the store and on the rows it reads as. *)
Lemma whereLoopS_step (n i k : nat) (idents : gmap string string)
    (rowsA : list slice) (row : slice) (l : list string) :
  rowsS !! i = Some row ->
  data !! i = Some l ->
  length rowsA = len (tData t) ->
  (k <= i)%nat ->
  whereLoopS Predicate curr (length TO) (tData t) (S n) i idents
             (building TO SA RA t k rowsA)
  = match fillRow columns 0 l idents with
    | Returns idents' =>
        match evalExpr Predicate idents' with
        | Err e => (Fails e, building TO SA RA t k rowsA)
        | Ok result =>
            if stringToBool result then
              whereLoopS Predicate curr (length TO) (tData t) n (S i) idents'
                         (building TO SA RA t (S k) (<[k := row]> rowsA))
            else
              whereLoopS Predicate curr (length TO) (tData t) n (S i) idents'
                         (building TO SA RA t k rowsA)
        end
    | Fails e => (Fails e, building TO SA RA t k rowsA)
    | Panics => (Panics, building TO SA RA t k rowsA)
    end.
Proof.
  intros Hrow Hl HlenA Hk.
  pose proof (building_extends k rowsA) as Hext.
  pose proof (readRows_extends _ _ _ _ Hext Hrows) as HrowsB.
  pose proof (readStrings_extends _ _ _ _ Hext Hcolumns) as HcolumnsB.
  assert (readStrings (building TO SA RA t k rowsA) row = Some l) as HlB.
  { apply (readStrings_extends _ _ _ _ Hext).
    exact (Forall2_lookup_lr _ _ _ _ _ _ Hdata Hrow Hl). }
  assert (tableObjs (building TO SA RA t k rowsA) !! curr = Some t) as HtB.
  { simpl. apply lookup_app_l_Some. exact Ht. }
  assert (i < len (tData t))%nat as Hi.
  { rewrite <- (readRows_length _ _ _ Hrows). eapply lookup_lt_Some. exact Hrow. }
  cbn [whereLoopS].
  unfold bind at 1. rewrite (indexRow_read _ _ _ _ HrowsB), Hrow.
  unfold bind at 1.
  rewrite (fillRowS_refines _ _ _ _ _ _ HtB HcolumnsB HlB (len row) 0 idents)
    by reflexivity.
  rewrite drop_0.
  destruct (fillRow columns 0 l idents) as [idents'|e|]; try reflexivity.
  destruct (evalExpr Predicate idents') as [result|e]; [|reflexivity].
  destruct (stringToBool result); [|reflexivity].
  unfold bind at 1. unfold bind at 1.
  unfold loadTable at 1. cbn [tableObjs building]. rewrite lookup_at_end.
  unfold bind at 1. unfold appendRow at 1.
  cbn [tData len cap arr off rowArrays tableObjs stringArrays building].
  destruct (Nat.ltb_spec k (len (tData t))) as [_|]; [|lia].
  rewrite lookup_at_end. rewrite Nat.add_0_l.
  destruct (Nat.ltb_spec k (length rowsA)) as [_|]; [|lia].
  unfold storeTable at 1.
  cbn [tData tName tColumns len cap arr off rowArrays tableObjs stringArrays
       building].
  rewrite lookup_at_end. rewrite !insert_at_end. reflexivity.
Qed.

Lemma whereLoopS_refines (n : nat) :
  forall (i : nat) (idents : gmap string string) (acc : list (list string))
         (rowsA : list slice),
  length rowsA = len (tData t) ->
  (length acc <= i)%nat ->
  (i + n = len (tData t))%nat ->
  Forall2 (fun s l =>
             readStrings {| tableObjs := TO; stringArrays := SA; rowArrays := RA |} s
             = Some l)
          (take (length acc) rowsA) acc ->
  match whereLoop Predicate columns (drop i data) idents acc with
  | Returns acc' =>
      exists rowsA',
        length rowsA' = len (tData t) /\
        (length acc' <= len (tData t))%nat /\
        Forall2 (fun s l =>
                   readStrings
                     {| tableObjs := TO; stringArrays := SA; rowArrays := RA |} s
                   = Some l)
                (take (length acc') rowsA') acc' /\
        whereLoopS Predicate curr (length TO) (tData t) n i idents
                   (building TO SA RA t (length acc) rowsA)
        = (Returns tt, building TO SA RA t (length acc') rowsA')
  | Fails e =>
      (whereLoopS Predicate curr (length TO) (tData t) n i idents
                  (building TO SA RA t (length acc) rowsA)).1 = Fails e
  | Panics =>
      (whereLoopS Predicate curr (length TO) (tData t) n i idents
                  (building TO SA RA t (length acc) rowsA)).1 = Panics
  end.
Proof.
  pose proof (readRows_length _ _ _ Hrows) as HlenS.
  pose proof (Forall2_length _ _ _ Hdata) as HlenD.
  induction n as [|n' IH]; intros i idents acc rowsA HlenA Hacc Hi Hread.
  - rewrite drop_ge by lia. cbn [whereLoop whereLoopS ret].
    exists rowsA. repeat split; try assumption. lia.
  - destruct (lookup_lt_is_Some_2 rowsS i) as [row Hrow]; [lia|].
    destruct (lookup_lt_is_Some_2 data i) as [l Hl]; [lia|].
    rewrite (whereLoopS_step n' i (length acc) idents rowsA row l
               Hrow Hl HlenA Hacc).
    rewrite (drop_S _ _ _ Hl). cbn [whereLoop].
    destruct (fillRow columns 0 l idents) as [idents'|e|]; try reflexivity.
    destruct (evalExpr Predicate idents') as [result|e]; [|reflexivity].
    destruct (stringToBool result).
    + specialize (IH (S i) idents' (acc ++ [l])%list (<[length acc := row]> rowsA)).
      rewrite length_app, Nat.add_1_r in IH. apply IH.
      * rewrite length_insert. exact HlenA.
      * lia.
      * lia.
      * rewrite (take_S_r _ _ row).
        -- apply Forall2_app.
           ++ rewrite take_insert_ge by reflexivity. exact Hread.
           ++ constructor; [|constructor].
              exact (Forall2_lookup_lr _ _ _ _ _ _ Hdata Hrow Hl).
        -- apply list_lookup_insert_eq. lia.
    + apply IH; try assumption; lia.
Qed.

End WhereOnStore.

Lemma refines_resultTable (pure : exec Table) (r : exec loc * store) :
  refines pure r -> resultTable r = pure.
Proof.
  unfold refines, resultTable. destruct pure as [T'|e|].
  - intros (p' & -> & ->). reflexivity.
  - intros ->. reflexivity.
  - intros ->. reflexivity.
Qed.

Lemma evalOperatorS_refines (op : TabularOperator) (curr : loc) (h : store)
    (T : Table) :
  readTable h curr = Some T ->
  refines (evalOperator op T) (evalOperatorS op curr h).
Proof.
  intros Hread.
  destruct (readTable_inv _ _ _ Hread) as (t & rowsS & Ht & Hname & Hc & Hr & Hd).
  pose proof (readRows_length _ _ _ Hr) as HlenS.
  pose proof (Forall2_length _ _ _ Hd) as HlenD.
  destruct h as [TO SA RA]. cbn [tableObjs] in Ht.
  destruct op; try reflexivity.
  - (* count *)
    cbn [evalOperator evalOperatorS refines].
    unfold bind, newStrings, loadTable, newRows, newTableObj, allocRows.
    cbn [tableObjs stringArrays rowArrays fst snd]. rewrite Ht.
    cbn [tableObjs stringArrays rowArrays fst snd].
    eexists. split; [reflexivity|].
    rewrite <- HlenD, HlenS.
    apply (readTable_intro _ _
             {| tName := "";
                tColumns := {| arr := length SA; off := 0; len := 1; cap := 1 |};
                tData := {| arr := length RA; off := 0; len := 1; cap := 1 |} |}
             ["count()"]
             [{| arr := length (SA ++ [["count()"]]); off := 0; len := 1; cap := 1 |}]).
    + apply lookup_at_end.
    + unfold readStrings. cbn [stringArrays tColumns arr off len].
      rewrite lookup_app_l by (rewrite length_app; simpl; lia).
      rewrite lookup_at_end. reflexivity.
    + unfold readRows. cbn [rowArrays tData arr off len].
      rewrite lookup_at_end. reflexivity.
    + constructor; [|constructor].
      unfold readStrings. cbn [stringArrays arr off len].
      rewrite lookup_at_end. reflexivity.
  - (* take *)
    cbn [evalOperator evalOperatorS].
    destruct (evalExpr RowCount ∅) as [rowCount|e]; [|reflexivity].
    destruct (Atoi rowCount) as [n|e]; [|reflexivity].
    destruct (n <? 0); [reflexivity|].
    unfold bind, loadTable, newTableObj. cbn [tableObjs]. rewrite Ht.
    cbn [refines fst snd]. eexists. split; [reflexivity|].
    rewrite <- HlenD, HlenS.
    set (m := Z.to_nat (Z.min n (Z.of_nat (len (tData t))))).
    assert (m <= len (tData t))%nat as Hm by (subst m; lia).
    apply (readTable_intro _ _
             {| tName := "";
                tColumns := tColumns t;
                tData := {| arr := arr (tData t); off := off (tData t);
                            len := m; cap := cap (tData t) |} |}
             (Columns T) (take m rowsS)).
    + apply lookup_at_end.
    + exact Hc.
    + unfold readRows in Hr |- *. cbn [rowArrays tData arr off len] in Hr |- *.
      destruct (RA !! arr (tData t)) as [a|]; [|discriminate].
      destruct (decide _) as [Hle|]; [|discriminate].
      injection Hr as <-.
      rewrite decide_True by lia.
      rewrite take_take. f_equal. f_equal. lia.
    + apply Forall2_take. exact Hd.
  - (* where *)
    cbn [evalOperator evalOperatorS].
    unfold bind at 1. unfold loadTable at 1. cbn [tableObjs]. rewrite Ht.
    unfold bind at 1. unfold makeRows at 1.
    unfold bind at 1. unfold newTableObj at 1.
    cbn [allocRows tableObjs stringArrays rowArrays].
    change {| tableObjs := TO ++ _; stringArrays := SA; rowArrays := RA ++ _ |}
      with (building TO SA RA t 0 (replicate (len (tData t)) nilSlice)).
    unfold bind at 1. unfold loadTable at 1. cbn [tableObjs building].
    rewrite (lookup_app_l_Some _ _ _ _ Ht).
    change {| tableObjs := TO ++ _; stringArrays := SA; rowArrays := RA ++ _ |}
      with (building TO SA RA t 0 (replicate (len (tData t)) nilSlice)).
    pose proof (whereLoopS_refines Predicate TO SA RA curr t (Columns T) rowsS
                  (Data T) Ht Hc Hr Hd (len (tData t)) 0 builtinIdents []
                  (replicate (len (tData t)) nilSlice)) as Hloop.
    rewrite drop_0 in Hloop. cbn [length] in Hloop.
    specialize (Hloop (length_replicate _ _) (Nat.le_refl 0) eq_refl
                      (List.Forall2_nil _)).
    unfold bind at 1.
    destruct (whereLoop Predicate (Columns T) (Data T) builtinIdents [])
      as [acc'|e|].
    + destruct Hloop as (rowsA' & HlenA & Hacc & Hread' & ->).
      cbn [refines ret fst snd]. eexists. split; [reflexivity|].
      pose proof (building_extends TO SA RA t (length acc') rowsA') as Hext.
      apply (readTable_intro _ _
               {| tName := "";
                  tColumns := tColumns t;
                  tData := {| arr := length RA; off := 0;
                              len := length acc'; cap := len (tData t) |} |}
               (Columns T) (take (length acc') rowsA')).
      * apply lookup_at_end.
      * exact (readStrings_extends _ _ _ _ Hext Hc).
      * unfold readRows. cbn [rowArrays building tData arr off len].
        rewrite lookup_at_end. rewrite decide_True by lia. reflexivity.
      * eapply Forall2_impl; [exact Hread'|].
        intros s l. apply readStrings_extends. exact Hext.
    + cbn [refines]. destruct (whereLoopS _ _ _ _ _ _ _ _) as [r h'].
      simpl in Hloop. subst r. reflexivity.
    + cbn [refines]. destruct (whereLoopS _ _ _ _ _ _ _ _) as [r h'].
      simpl in Hloop. subst r. reflexivity.
Qed.

Lemma evalOperatorsS_refines (ops : list TabularOperator) :
  forall (curr : loc) (h : store) (T : Table),
  readTable h curr = Some T ->
  refines (evalOperators ops T) (evalOperatorsS ops curr h).
Proof.
  induction ops as [|op ops IH]; intros curr h T Hread;
    cbn [evalOperators evalOperatorsS].
  - exists curr. split; [reflexivity | exact Hread].
  - pose proof (evalOperatorS_refines op curr h T Hread) as Hop.
    unfold bind. destruct (evalOperatorS op curr h) as [r h1].
    destruct (evalOperator op T) as [T1|e|]; cbn [refines fst snd] in Hop.
    + destruct Hop as (p1 & -> & Hread1). apply IH. exact Hread1.
    + subst r. reflexivity.
    + subst r. reflexivity.
Qed.

Lemma tableMapS_refines (h : store) (ptrs : list loc) (Ts : list Table) :
  Forall2 (fun p T => readTable h p = Some T) ptrs Ts ->
  forall m M,
  mapsAgree h m M ->
  exists m',
    tableMapS ptrs m h = (Returns m', h) /\
    mapsAgree h m' (foldl (fun M tab => <[Name tab := tab]> M) M Ts).
Proof.
  induction 1 as [|p T ptrs Ts Hread _ IH]; intros m M Hag;
    cbn [tableMapS foldl].
  - exists m. split; [reflexivity | exact Hag].
  - destruct (readTable_inv _ _ _ Hread) as (t & rows & Ht & Hname & _).
    unfold bind, loadTable. rewrite Ht.
    apply IH. intros name. rewrite Hname.
    destruct (decide (tName t = name)) as [<-|Hne].
    + rewrite !lookup_insert_eq. eauto.
    + rewrite !lookup_insert_ne by exact Hne. apply Hag.
Qed.

(** On a store in which the tables of the caller read as the values
    [Ts], [Eval] on the store does what [Eval] on [Ts] does: it fails
    with the same error, panics when it panics, and returns the location
    of a table that reads as the table it returns. *)
Theorem EvalS_refines_Eval
    (Parse : string -> result TabularExpr) (source : string)
    (ptrs : list loc) (Ts : list Table) (h : store) :
  Forall2 (fun p T => readTable h p = Some T) ptrs Ts ->
  resultTable (EvalS Parse source ptrs h) = Eval Parse source Ts.
Proof.
  intros Hread. apply refines_resultTable.
  unfold EvalS, Eval. destruct (Parse source) as [expr|e]; [|reflexivity].
  destruct (tableMapS_refines h ptrs Ts Hread ∅ ∅) as (m & Hm & Hag).
  { intros name. rewrite !lookup_empty. reflexivity. }
  unfold bind. rewrite Hm.
  unfold evalS, eval, tableMap. destruct (Source expr) as [src].
  specialize (Hag (parser.Name src)).
  destruct (foldl _ ∅ Ts !! parser.Name src) as [T|].
  - destruct Hag as (p & -> & Hp). apply evalOperatorsS_refines. exact Hp.
  - rewrite Hag. reflexivity.
Qed.

Lemma EvalS_refines_Eval_example :
  resultTable
    (EvalS (fun _ => Ok (pipeline "T" [TakeOperator (num "2"); CountOperator]))
           "T | take 2 | count" [0%nat] store_ab)
  = Returns {| Name := ""; Columns := ["count()"]; Data := [["2"]] |}.
Proof.
  rewrite (EvalS_refines_Eval _ _ [0%nat] [T_ab]).
  - vm_compute. reflexivity.
  - repeat constructor.
Qed.

(** * Further properties of the evaluator *)

(** ** Calls *)

Lemma evalExpr_call_loop (idents : gmap string string) (xs : list Expr) :
  forall args : list string,
  (fix loop (xs : list Expr) (args : list string) : result (list string) :=
     match xs with
     | [] => Ok args
     | a :: xs' =>
         match evalExpr a idents with
         | Err e => Err e
         | Ok aa => loop xs' (args ++ [aa])
         end
     end) xs args
  = match evalArgs xs idents with
    | Err e => Err e
    | Ok vs => Ok (args ++ vs)
    end.
Proof.
  induction xs as [|a xs IH]; intros args; cbn [evalArgs].
  - rewrite app_nil_r. reflexivity.
  - destruct (evalExpr a idents) as [aa|e]; [|reflexivity].
    rewrite IH. destruct (evalArgs xs idents) as [vs|e]; [|reflexivity].
    rewrite <- app_assoc. reflexivity.
Qed.

Lemma evalExpr_call (Func : Ident) (Args : list Expr)
    (idents : gmap string string) :
  evalExpr (CallExpr Func Args) idents
  = match evalFuncs !! parser.Name Func with
    | None => Err (ErrUnknownFunction (parser.Name Func))
    | Some f =>
        match evalArgs Args idents with
        | Err e => Err e
        | Ok vs => f vs
        end
    end.
Proof.
  cbn [evalExpr]. destruct (evalFuncs !! parser.Name Func) as [f|]; [|reflexivity].
  rewrite evalExpr_call_loop. destruct (evalArgs Args idents); reflexivity.
Qed.

Lemma evalExpr_not (q : bool) (Args : list Expr) (idents : gmap string string) :
  evalExpr (CallExpr {| parser.Name := "not"; Quoted := q |} Args) idents
  = match evalArgs Args idents with
    | Err e => Err e
    | Ok [x] => Ok (boolToString (negb (stringToBool x)))
    | Ok _ => Err ErrNotArity
    end.
Proof. rewrite evalExpr_call. reflexivity. Qed.

Lemma evalExpr_strcat_call (q : bool) (Args : list Expr)
    (idents : gmap string string) :
  evalExpr (CallExpr {| parser.Name := "strcat"; Quoted := q |} Args) idents
  = match evalArgs Args idents with
    | Err e => Err e
    | Ok [] => Err ErrStrcatArity
    | Ok vs => Ok (String.concat "" vs)
    end.
Proof.
  rewrite evalExpr_call. cbn [parser.Name].
  change (evalFuncs !! "strcat") with
    (Some (fun args : list string =>
             match args with
             | [] => @Err string ErrStrcatArity
             | _ => Ok (String.concat "" args)
             end)).
  destruct (evalArgs Args idents) as [[|v vs]|e]; reflexivity.
Qed.

Lemma evalArgs_app (xs ys : list Expr) (idents : gmap string string) :
  evalArgs (xs ++ ys) idents
  = match evalArgs xs idents with
    | Err e => Err e
    | Ok vs =>
        match evalArgs ys idents with
        | Err e => Err e
        | Ok ws => Ok (vs ++ ws)
        end
    end.
Proof.
  induction xs as [|a xs IH]; cbn [app evalArgs].
  - destruct (evalArgs ys idents); reflexivity.
  - destruct (evalExpr a idents) as [aa|e]; [|reflexivity].
    rewrite IH. destruct (evalArgs xs idents) as [vs|e]; [|reflexivity].
    destruct (evalArgs ys idents); reflexivity.
Qed.

Lemma evalArgs_Forall2 (xs : list Expr) (vs : list string)
    (idents : gmap string string) :
  Forall2 (fun x v => evalExpr x idents = Ok v) xs vs ->
  evalArgs xs idents = Ok vs.
Proof.
  induction 1 as [|x v xs vs Hx _ IH]; cbn [evalArgs]; [reflexivity|].
  rewrite Hx, IH. reflexivity.
Qed.

Lemma evalArgs_length (xs : list Expr) (idents : gmap string string) :
  forall vs, evalArgs xs idents = Ok vs -> length vs = length xs.
Proof.
  induction xs as [|a xs IH]; cbn [evalArgs]; intros vs.
  - intros [= <-]. reflexivity.
  - destruct (evalExpr a idents) as [aa|e]; [|discriminate].
    destruct (evalArgs xs idents) as [ws|e]; [|discriminate].
    intros [= <-]. simpl. f_equal. apply IH. reflexivity.
Qed.

Lemma string_app_nil_r (a : string) : a +:+ "" = a.
Proof.
  induction a as [|c a IH]; [reflexivity|].
  change (String c a +:+ "") with (String c (a +:+ "")). f_equal. exact IH.
Qed.

Lemma string_app_assoc (a b c : string) : (a +:+ b) +:+ c = a +:+ b +:+ c.
Proof.
  induction a as [|x a IH]; [reflexivity|].
  change (String x ((a +:+ b) +:+ c) = String x (a +:+ b +:+ c)).
  f_equal. exact IH.
Qed.

Lemma concat_empty_cons (a : string) (l : list string) :
  String.concat "" (a :: l) = a +:+ String.concat "" l.
Proof.
  destruct l as [|b l]; [|reflexivity].
  symmetry. apply string_app_nil_r.
Qed.

Lemma concat_empty_app (l1 l2 : list string) :
  String.concat "" (l1 ++ l2) = String.concat "" l1 +:+ String.concat "" l2.
Proof.
  induction l1 as [|a l1 IH]; [reflexivity|].
  cbn [app]. rewrite !concat_empty_cons, IH.
  symmetry. apply string_app_assoc.
Qed.

(** The comparison operators and [not]: [not(X == Y)] is [X != Y] and
    [not(X != Y)] is [X == Y], for the same value and for the same
    error. *)
Theorem not_of_comparison
    (X Y : Expr) (q : bool) (idents : gmap string string) :
  evalExpr (CallExpr {| parser.Name := "not"; Quoted := q |}
                     [BinaryExpr X TokenEq Y]) idents
  = evalExpr (BinaryExpr X TokenNE Y) idents /\
  evalExpr (CallExpr {| parser.Name := "not"; Quoted := q |}
                     [BinaryExpr X TokenNE Y]) idents
  = evalExpr (BinaryExpr X TokenEq Y) idents.
Proof.
  rewrite !evalExpr_not. cbn [evalArgs evalExpr].
  destruct (evalExpr X idents) as [a|e]; [|split; reflexivity].
  destruct (evalExpr Y idents) as [b|e]; [|split; reflexivity].
  destruct (String.eqb a b); split; reflexivity.
Qed.

(** [not] yields ["0"] or ["1"], so a second [not] gives the truth value
    of the operand as ["1"] or ["0"], and three of them are one: for the
    same value and for the same error. *)
Theorem not_normalizes
    (X : Expr) (q : bool) (idents : gmap string string) :
  (forall r,
     evalExpr (CallExpr {| parser.Name := "not"; Quoted := q |} [X]) idents = Ok r ->
     r = "0" \/ r = "1") /\
  (forall a,
     evalExpr X idents = Ok a ->
     evalExpr (CallExpr {| parser.Name := "not"; Quoted := q |}
                 [CallExpr {| parser.Name := "not"; Quoted := q |} [X]]) idents
     = Ok (if stringToBool a then "1" else "0")) /\
  evalExpr (CallExpr {| parser.Name := "not"; Quoted := q |}
              [CallExpr {| parser.Name := "not"; Quoted := q |}
                 [CallExpr {| parser.Name := "not"; Quoted := q |} [X]]]) idents
  = evalExpr (CallExpr {| parser.Name := "not"; Quoted := q |} [X]) idents.
Proof.
  split; [|split].
  - intros r. rewrite evalExpr_not. cbn [evalArgs].
    destruct (evalExpr X idents) as [a|e]; [|discriminate].
    intros [= <-]. destruct (stringToBool a); auto.
  - intros a Ha. rewrite evalExpr_not. cbn [evalArgs].
    rewrite evalExpr_not. cbn [evalArgs]. rewrite Ha.
    destruct (stringToBool a); reflexivity.
  - rewrite evalExpr_not. cbn [evalArgs].
    rewrite evalExpr_not. cbn [evalArgs].
    rewrite evalExpr_not. cbn [evalArgs].
    destruct (evalExpr X idents) as [a|e]; [|reflexivity].
    destruct (stringToBool a); reflexivity.
Qed.

Lemma not_normalizes_witness :
  evalExpr (call "not" [call "not" [lit "yes"]]) ∅ = Ok "1".
Proof.
  apply (proj1 (proj2 (not_normalizes (lit "yes") false ∅)) "yes").
  reflexivity.
Defined.

(** [strcat] of one argument is the argument, and a [strcat] among the
    arguments of a [strcat] can be replaced by its own arguments, when
    it has any: the value is the same and so is the error. *)
Theorem strcat_flattens
    (q q' : bool) (X : Expr) (As Xs Bs : list Expr)
    (idents : gmap string string) :
  evalExpr (CallExpr {| parser.Name := "strcat"; Quoted := q |} [X]) idents
  = evalExpr X idents /\
  (Xs <> [] ->
   evalExpr (CallExpr {| parser.Name := "strcat"; Quoted := q |}
               (As ++ CallExpr {| parser.Name := "strcat"; Quoted := q' |} Xs
                   :: Bs)) idents
   = evalExpr (CallExpr {| parser.Name := "strcat"; Quoted := q |}
                 (As ++ Xs ++ Bs)) idents).
Proof.
  split.
  - rewrite evalExpr_strcat_call. cbn [evalArgs].
    destruct (evalExpr X idents); reflexivity.
  - intros Hne. rewrite !evalExpr_strcat_call.
    rewrite !evalArgs_app. cbn [evalArgs].
    rewrite evalExpr_strcat_call.
    destruct (evalArgs As idents) as [va|e]; [|reflexivity].
    destruct (evalArgs Xs idents) as [vx|e] eqn:Ex; [|reflexivity].
    assert (vx <> []) as Hvx.
    { intros ->. apply evalArgs_length in Ex.
      destruct Xs; [contradiction | discriminate]. }
    destruct vx as [|x vx]; [contradiction|].
    destruct (evalArgs Bs idents) as [vb|e]; [|reflexivity].
    assert (String.concat "" (va ++ String.concat "" (x :: vx) :: vb)
            = String.concat "" (va ++ (x :: vx) ++ vb)) as Heq.
    { change (String.concat "" (x :: vx) :: vb)
        with ([String.concat "" (x :: vx)] ++ vb).
      rewrite !concat_empty_app. reflexivity. }
    destruct va as [|a va]; cbn [app] in *; rewrite Heq; reflexivity.
Qed.

Lemma strcat_flattens_witness :
  evalExpr (call "strcat" [lit "a"; call "strcat" [lit "b"; lit "c"]; lit "d"]) ∅
  = evalExpr (call "strcat" [lit "a"; lit "b"; lit "c"; lit "d"]) ∅.
Proof.
  apply (proj2 (strcat_flattens false false (lit "x") [lit "a"]
                  [lit "b"; lit "c"] [lit "d"] ∅)).
  discriminate.
Defined.

(** Errors of calls, in the order the code meets them: the function is
    looked up first, the arguments are evaluated from left to right and
    the first error among them is returned, and only then is the number
    of arguments checked: [not] wants exactly one, [strcat] at least
    one. *)
Theorem call_errors
    (f : Ident) (pre post : list Expr) (a : Expr) (vs : list string)
    (e : error) (idents : gmap string string)
    (Hf : parser.Name f = "not" \/ parser.Name f = "strcat")
    (Hpre : Forall2 (fun x v => evalExpr x idents = Ok v) pre vs)
    (Ha : evalExpr a idents = Err e) :
  evalExpr (CallExpr f (pre ++ a :: post)) idents = Err e /\
  (length pre <> 1%nat ->
   evalExpr (CallExpr {| parser.Name := "not"; Quoted := Quoted f |} pre) idents
   = Err ErrNotArity) /\
  evalExpr (CallExpr {| parser.Name := "strcat"; Quoted := Quoted f |} []) idents
  = Err ErrStrcatArity.
Proof.
  apply evalArgs_Forall2 in Hpre as Hvs.
  split; [|split].
  - rewrite evalExpr_call, evalArgs_app, Hvs. cbn [evalArgs]. rewrite Ha.
    destruct Hf as [-> | ->]; reflexivity.
  - intros Hlen. rewrite evalExpr_not, Hvs.
    apply Forall2_length in Hpre.
    destruct vs as [|v [|w vs]]; try reflexivity.
    simpl in Hpre. congruence.
  - reflexivity.
Qed.

Lemma call_errors_witness :
  evalExpr (call "not" [lit "1"; call "nosuch" []; lit "2"]) ∅
  = Err (ErrUnknownFunction "nosuch") /\
  evalExpr (call "not" [lit "1"; lit "2"]) ∅ = Err ErrNotArity.
Proof.
  split.
  - apply (call_errors {| parser.Name := "not"; Quoted := false |}
             [lit "1"] [lit "2"] (call "nosuch" []) ["1"]
             (ErrUnknownFunction "nosuch") ∅).
    + left. reflexivity.
    + repeat constructor.
    + reflexivity.
  - apply (call_errors {| parser.Name := "not"; Quoted := false |}
             [lit "1"; lit "2"] [] (call "nosuch" []) ["1"; "2"]
             (ErrUnknownFunction "nosuch") ∅).
    + left. reflexivity.
    + repeat constructor.
    + reflexivity.
    + simpl. lia.
Defined.

(** ** [in] *)

(** [X in (Y)] is [X == Y], for the same value and for the same error. *)
Theorem in_singleton_is_eq
    (X Y : Expr) (idents : gmap string string) :
  evalExpr (InExpr X [Y]) idents = evalExpr (BinaryExpr X TokenEq Y) idents.
Proof.
  cbn [evalExpr].
  destruct (evalExpr X idents) as [a|e]; [|reflexivity].
  destruct (evalExpr Y idents) as [b|e]; [|reflexivity].
  destruct (String.eqb a b); reflexivity.
Qed.

(** [in] stops at the first element equal to the left operand: the
    elements after it are not evaluated, so an error among them does not
    show; an error before any equal element is returned, whatever comes
    after; and an empty list gives ["0"]. *)
Theorem in_stops_at_first_match
    (X Y : Expr) (pre post : list Expr) (a : string) (vs : list string)
    (idents : gmap string string)
    (HX : evalExpr X idents = Ok a)
    (Hpre : Forall2 (fun y v => evalExpr y idents = Ok v) pre vs)
    (Hne : a ∉ vs) :
  (evalExpr Y idents = Ok a ->
   evalExpr (InExpr X (pre ++ Y :: post)) idents = Ok "1") /\
  (forall e, evalExpr Y idents = Err e ->
             evalExpr (InExpr X (pre ++ Y :: post)) idents = Err e) /\
  evalExpr (InExpr X pre) idents = Ok "0" /\
  evalExpr (InExpr X []) idents = Ok "0".
Proof.
  assert (forall rest,
            evalExpr (InExpr X (pre ++ rest)) idents
            = evalExpr (InExpr X rest) idents) as Hskip.
  { intros rest. cbn [evalExpr]. rewrite HX.
    induction Hpre as [|y v pre vs Hy _ IH]; [reflexivity|].
    cbn [app]. rewrite Hy.
    destruct (String.eqb_spec a v) as [->|_].
    - contradiction Hne. left.
    - apply IH. intros Hin. apply Hne. right. exact Hin. }
  repeat apply conj.
  - intros HY. rewrite Hskip. cbn [evalExpr]. rewrite HX, HY.
    rewrite String.eqb_refl. reflexivity.
  - intros e HY. rewrite Hskip. cbn [evalExpr]. rewrite HX, HY. reflexivity.
  - rewrite <- (app_nil_r pre), Hskip. cbn [evalExpr]. rewrite HX. reflexivity.
  - cbn [evalExpr]. rewrite HX. reflexivity.
Qed.

Lemma in_stops_at_first_match_witness :
  evalExpr (InExpr (lit "b") [lit "a"; lit "b"; call "nosuch" []]) ∅ = Ok "1".
Proof.
  apply (in_stops_at_first_match (lit "b") (lit "b") [lit "a"]
           [call "nosuch" []] "b" ["a"] ∅).
  - reflexivity.
  - repeat constructor.
  - intros Hin. apply elem_of_cons in Hin as [Hin|Hin];
      [discriminate | inversion Hin].
  - reflexivity.
Defined.

(** ** Truth values of [and] and [or] *)

(** Read as truth values, [and] and [or] are conjunction and
    disjunction, although they return an operand as it is. *)
Theorem and_or_truth
    (X Y : Expr) (idents : gmap string string) (a b : string)
    (HX : evalExpr X idents = Ok a)
    (HY : evalExpr Y idents = Ok b) :
  (exists r, evalExpr (BinaryExpr X TokenAnd Y) idents = Ok r /\
             stringToBool r = stringToBool a && stringToBool b) /\
  (exists r, evalExpr (BinaryExpr X TokenOr Y) idents = Ok r /\
             stringToBool r = stringToBool a || stringToBool b).
Proof.
  split; cbn [evalExpr]; rewrite HX; cbv zeta;
    destruct (stringToBool a) eqn:Ea; cbn [negb]; try rewrite HY;
    eexists; (split; [reflexivity|]); try rewrite Ea; reflexivity.
Qed.

Lemma and_or_truth_witness :
  exists r, evalExpr (BinaryExpr (lit "x") TokenAnd (lit "0")) ∅ = Ok r /\
            stringToBool r = false.
Proof.
  exact (proj1 (and_or_truth (lit "x") (lit "0") ∅ "x" "0" eq_refl eq_refl)).
Defined.

(** ** Identifiers read by an expression *)

(** [evalExpr] reads the identifier map only at the names that occur in
    the expression: two maps that agree on them give the same value or
    the same error. *)
Theorem evalExpr_reads_its_names (x : Expr) :
  forall m1 m2 : gmap string string,
  (forall name, name ∈ identNames x -> m1 !! name = m2 !! name) ->
  evalExpr x m1 = evalExpr x m2.
Proof.
  induction x as [X IH|k v|parts|op X IH|X op Y IHX IHY|X Vals IHX IHV
                 |f Args IHA|X i _ _] using Expr_nested_ind;
    intros m1 m2 Hag.
  - apply IH. exact Hag.
  - reflexivity.
  - destruct parts as [|part [|? ?]]; try reflexivity.
    cbn [evalExpr]. rewrite (Hag (parser.Name part)); [reflexivity|].
    cbn [identNames]. left.
  - cbn [evalExpr]. rewrite (IH m1 m2 Hag). reflexivity.
  - cbn [evalExpr identNames] in *.
    rewrite (IHX m1 m2), (IHY m1 m2); [reflexivity| |];
      intros name Hin; apply Hag; apply elem_of_app; auto.
  - cbn [evalExpr identNames] in *.
    rewrite (IHX m1 m2) by (intros name Hin; apply Hag; apply elem_of_app; auto).
    destruct (evalExpr X m2) as [a|e]; [|reflexivity].
    assert (forall name,
              name ∈ (fix all (ys : list Expr) : list string :=
                        match ys with
                        | [] => []
                        | y :: ys' => identNames y ++ all ys'
                        end) Vals ->
              m1 !! name = m2 !! name) as HagV
      by (intros name Hin; apply Hag; apply elem_of_app; auto).
    clear Hag IHX. induction IHV as [|y ys IHy _ IHys]; [reflexivity|].
    rewrite (IHy m1 m2) by (intros name Hin; apply HagV; apply elem_of_app; auto).
    destruct (evalExpr y m2) as [b|e]; [|reflexivity].
    destruct (String.eqb a b); [reflexivity|].
    apply IHys. intros name Hin. apply HagV. apply elem_of_app. auto.
  - rewrite !evalExpr_call.
    destruct (evalFuncs !! parser.Name f) as [fn|]; [|reflexivity].
    assert (evalArgs Args m1 = evalArgs Args m2) as ->; [|reflexivity].
    cbn [identNames] in Hag.
    induction IHA as [|y ys IHy _ IHys]; [reflexivity|].
    cbn [evalArgs].
    rewrite (IHy m1 m2) by (intros name Hin; apply Hag; apply elem_of_app; auto).
    rewrite IHys by (intros name Hin; apply Hag; apply elem_of_app; auto).
    reflexivity.
  - reflexivity.
Qed.

Lemma evalExpr_reads_its_names_witness :
  evalExpr (BinaryExpr (ident "a") TokenEq (lit "1"))
           (<["a" := "1"]> (<["b" := "2"]> ∅))
  = evalExpr (BinaryExpr (ident "a") TokenEq (lit "1"))
             (<["a" := "1"]> (<["b" := "3"]> ∅)).
Proof.
  apply evalExpr_reads_its_names.
  intros name Hin. cbn in Hin.
  apply elem_of_cons in Hin as [->|Hin]; [reflexivity | inversion Hin].
Defined.

(** ** Pipelines: what the operators keep *)

Lemma whereLoop_sublist (Predicate : Expr) (Columns : list string)
    (rows : list (list string)) :
  forall idents newData newData',
  whereLoop Predicate Columns rows idents newData = Returns newData' ->
  exists kept, newData' = newData ++ kept /\ kept `sublist_of` rows.
Proof.
  induction rows as [|row rows IH]; intros idents newData newData';
    cbn [whereLoop].
  - intros [= <-]. exists []. rewrite app_nil_r. split; [reflexivity | constructor].
  - destruct (fillRow Columns 0 row idents) as [idents'| |]; try discriminate.
    destruct (evalExpr Predicate idents') as [result|]; [|discriminate].
    intros Hloop. apply IH in Hloop as (kept & -> & Hsub).
    destruct (stringToBool result).
    + exists (row :: kept). rewrite <- app_assoc. split; [reflexivity|].
      apply sublist_skip. exact Hsub.
    + exists kept. split; [reflexivity|]. apply sublist_cons. exact Hsub.
Qed.

Lemma evalOperator_selects (op : TabularOperator) (T T' : Table) :
  selectsRows op = true ->
  evalOperator op T = Returns T' ->
  Name T' = "" /\ Columns T' = Columns T /\ Data T' `sublist_of` Data T.
Proof.
  destruct op; try discriminate; intros _; cbn [evalOperator].
  - destruct (evalExpr RowCount ∅) as [rowCount|]; [|discriminate].
    destruct (Atoi rowCount) as [n|]; [|discriminate].
    destruct (n <? 0); [discriminate|].
    intros [= <-]. cbn. repeat split. apply sublist_take.
  - destruct (whereLoop Predicate (Columns T) (Data T) builtinIdents [])
      as [newData| |] eqn:E; try discriminate.
    intros [= <-]. cbn. repeat split.
    apply whereLoop_sublist in E as (kept & -> & Hsub). exact Hsub.
Qed.

(** [take] and [where] only ever drop rows: after any pipeline of them
    that returns, whatever the table, the columns are those of the
    input and the rows are rows of the input, in their order. *)
Theorem selection_keeps_columns_and_order (ops : list TabularOperator) :
  forall T T' : Table,
  forallb selectsRows ops = true ->
  evalOperators ops T = Returns T' ->
  Columns T' = Columns T /\
  Data T' `sublist_of` Data T /\
  (length (Data T') <= length (Data T))%nat.
Proof.
  induction ops as [|op ops IH]; intros T T' Hops; cbn [evalOperators].
  - intros [= <-]. repeat split; reflexivity.
  - cbn [forallb] in Hops. apply andb_true_iff in Hops as [Hop Hops].
    destruct (evalOperator op T) as [T1| |] eqn:E1; try discriminate.
    intros Hrest.
    destruct (evalOperator_selects _ _ _ Hop E1) as (_ & Hc1 & Hd1).
    destruct (IH _ _ Hops Hrest) as (Hc & Hd & _).
    assert (Data T' `sublist_of` Data T) as Hsub
      by (etransitivity; eassumption).
    repeat split; [congruence | exact Hsub |].
    apply sublist_length. exact Hsub.
Qed.

Lemma selection_keeps_columns_and_order_witness :
  Columns {| Name := ""; Columns := ["a"; "b"]; Data := [["5"; "4"]] |}
  = Columns T_ab /\
  Data {| Name := ""; Columns := ["a"; "b"]; Data := [["5"; "4"]] |}
    `sublist_of` Data T_ab /\
  (length (Data {| Name := ""; Columns := ["a"; "b"]; Data := [["5"; "4"]] |})
   <= length (Data T_ab))%nat.
Proof.
  apply (selection_keeps_columns_and_order
           [WhereOperator (BinaryExpr (ident "a") TokenNE (lit "1"));
            WhereOperator (ident "b"); TakeOperator (num "7")]).
  - reflexivity.
  - vm_compute. reflexivity.
Defined.

(** ** Pipelines: rectangular tables *)

Lemma Forall_filter_bool {A : Type} (P : A -> Prop) (f : A -> bool)
    (l : list A) :
  Forall P l -> Forall P (List.filter f l).
Proof.
  induction 1 as [|x l Hx _ IH]; cbn [List.filter]; [constructor|].
  destruct (f x); [constructor; assumption | assumption].
Qed.

Lemma evalOperator_rectangular (op : TabularOperator) (T : Table) :
  rectangular T ->
  evalOperator op T <> Panics /\
  (forall T', evalOperator op T = Returns T' -> rectangular T').
Proof.
  intros Hrect. destruct op; cbn [evalOperator];
    try (split; [discriminate | intros T'; discriminate]).
  - split; [discriminate|]. intros T' [= <-].
    repeat constructor.
  - destruct (evalExpr RowCount ∅) as [rowCount|];
      [|split; [discriminate | intros T'; discriminate]].
    destruct (Atoi rowCount) as [n|];
      [|split; [discriminate | intros T'; discriminate]].
    destruct (n <? 0); [split; [discriminate | intros T'; discriminate]|].
    split; [discriminate|]. intros T' [= <-].
    unfold rectangular. cbn. apply Forall_take. exact Hrect.
  - rewrite whereLoop_rectangular; [|exact Hrect|reflexivity].
    destruct (firstError Predicate (Columns T) (Data T));
      [split; [discriminate | intros T'; discriminate]|].
    split; [discriminate|]. intros T' [= <-].
    unfold rectangular. cbn. apply Forall_filter_bool. exact Hrect.
Qed.

Lemma evalOperators_rectangular (ops : list TabularOperator) :
  forall T : Table,
  rectangular T ->
  evalOperators ops T <> Panics /\
  (forall T', evalOperators ops T = Returns T' -> rectangular T').
Proof.
  induction ops as [|op ops IH]; intros T Hrect; cbn [evalOperators].
  - split; [discriminate|]. intros T' [= <-]. exact Hrect.
  - destruct (evalOperator_rectangular op T Hrect) as [Hnp Hret].
    destruct (evalOperator op T) as [T1| |]; [|split; [discriminate | intros T'; discriminate]|contradiction].
    apply IH. apply Hret. reflexivity.
Qed.

Lemma tableMap_fold_lookup (tables : list Table) :
  forall (M : gmap string Table) (name : string) (T : Table),
  foldl (fun m tab => <[Name tab := tab]> m) M tables !! name = Some T ->
  (T ∈ tables /\ Name T = name) \/ M !! name = Some T.
Proof.
  induction tables as [|tab tables IH]; intros M name T; cbn [foldl].
  - auto.
  - intros H. apply IH in H as [[Hin Hn]|H].
    + left. split; [right; exact Hin | exact Hn].
    + destruct (decide (Name tab = name)) as [Heq|Hne].
      * rewrite <- Heq, lookup_insert_eq in H. injection H as <-.
        left. split; [left | exact Heq].
      * rewrite lookup_insert_ne in H by exact Hne. right. exact H.
Qed.

Lemma tableMapLoop_Some (tables : list Table) :
  forall m : gmap string Table,
  pql.tableMapLoop (map Some tables) m
  = Returns (foldl (fun m tab => <[Name tab := tab]> m) m tables).
Proof.
  induction tables as [|tab tables IH]; intros m; cbn [map pql.tableMapLoop foldl].
  - reflexivity.
  - apply IH.
Qed.

Lemma tableMapLoop_nil (tables : list (option Table)) :
  None ∈ tables ->
  forall m : gmap string Table, pql.tableMapLoop tables m = Panics.
Proof.
  induction tables as [|[tab|] tables IH]; intros Hin m;
    cbn [pql.tableMapLoop].
  - inversion Hin.
  - apply IH. apply elem_of_cons in Hin as [Heq|Hin]; [discriminate|exact Hin].
  - reflexivity.
Qed.

Lemma tableMapLoop_all (tables : list (option Table)) :
  None ∈ tables \/ exists ts, tables = map Some ts.
Proof.
  induction tables as [|[tab|] tables [Hin|[ts ->]]].
  - right. exists []. reflexivity.
  - left. right. exact Hin.
  - right. exists (tab :: ts). reflexivity.
  - left. left.
  - left. left.
Qed.

(** [Eval] on the pointers the caller passes.  A nil pointer among them
    makes [Eval] panic as soon as the source parses (a source that does
    not parse is the parse error, whatever the tables).  On pointers
    that are all non-nil [Eval] is the evaluation of the tables they
    point to; if moreover these tables have one cell per column in every
    row, [Eval] never panics, and the table it returns is of that kind
    again: every operator keeps tables rectangular. *)
Theorem Eval_rectangular
    (Parse : string -> result TabularExpr) (source : string) :
  (forall (tables : list (option Table)) (e : error),
     Parse source = Err e -> pql.Eval Parse source tables = Fails e) /\
  (forall (tables : list (option Table)) (expr : TabularExpr),
     Parse source = Ok expr ->
     (pql.Eval Parse source tables = Panics <->
      None ∈ tables \/
      exists ts, tables = map Some ts /\ Eval Parse source ts = Panics)) /\
  (forall tables : list Table,
     pql.Eval Parse source (map Some tables) = Eval Parse source tables) /\
  (forall tables : list Table,
     Forall rectangular tables ->
     pql.Eval Parse source (map Some tables) <> Panics /\
     (forall T',
        pql.Eval Parse source (map Some tables) = Returns T' ->
        rectangular T')).
Proof.
  assert (forall tables : list Table,
            pql.Eval Parse source (map Some tables) = Eval Parse source tables)
    as Hsome.
  { intros tables. unfold pql.Eval, Eval.
    destruct (Parse source) as [expr|e]; [|reflexivity].
    rewrite tableMapLoop_Some. reflexivity. }
  repeat apply conj.
  - intros tables e Hparse. unfold pql.Eval. rewrite Hparse. reflexivity.
  - intros tables expr Hparse. split.
    + intros Hpanic.
      destruct (tableMapLoop_all tables) as [Hin|[ts ->]]; [left; exact Hin|].
      right. exists ts. split; [reflexivity|]. rewrite <- Hsome. exact Hpanic.
    + intros [Hin|(ts & -> & Hpanic)].
      * unfold pql.Eval. rewrite Hparse, (tableMapLoop_nil tables Hin).
        reflexivity.
      * rewrite Hsome. exact Hpanic.
  - exact Hsome.
  - intros tables Hrect. rewrite Hsome.
    unfold Eval. destruct (Parse source) as [expr|e];
      [|split; [discriminate | intros T'; discriminate]].
    unfold eval. destruct (Source expr) as [src].
    destruct (tableMap tables !! parser.Name src) as [curr|] eqn:E;
      [|split; [discriminate | intros T'; discriminate]].
    apply evalOperators_rectangular.
    apply tableMap_fold_lookup in E as [[Hin _]|E].
    + exact (proj1 (Forall_forall _ _) Hrect curr Hin).
    + rewrite lookup_empty in E. discriminate.
Qed.

Lemma Eval_rectangular_witness :
  pql.Eval
    (fun _ => Ok (pipeline "T" [WhereOperator (ident "b"); CountOperator]))
    "T | where b | count" [Some T_ab]
  <> Panics /\
  pql.Eval
    (fun _ => Ok (pipeline "T" [WhereOperator (ident "b"); CountOperator]))
    "T | where b | count" [Some T_ab; None]
  = Panics.
Proof.
  split.
  - apply (proj2 (proj2 (proj2 (Eval_rectangular _ _))) [T_ab]).
    repeat constructor.
  - apply (proj1 (proj2 (Eval_rectangular _ "T | where b | count"))
             [Some T_ab; None]
             (pipeline "T" [WhereOperator (ident "b"); CountOperator])).
    + reflexivity.
    + left. right. left.
Defined.

(** ** Pipelines: [take] and [count] *)

Lemma take_min_length {A : Type} (a : nat) (l : list A) :
  take (Nat.min a (length l)) l = take a l.
Proof.
  destruct (Nat.le_gt_cases a (length l)) as [Hle|Hgt].
  - rewrite Nat.min_l by exact Hle. reflexivity.
  - rewrite Nat.min_r by lia. rewrite !take_ge by lia. reflexivity.
Qed.

Lemma evalOperator_take (RowCount : Expr) (s : string) (n : Z) (T : Table) :
  evalExpr RowCount ∅ = Ok s -> Atoi s = Ok n -> 0 <= n ->
  evalOperator (TakeOperator RowCount) T
  = Returns {| Name := ""; Columns := Columns T;
               Data := take (Z.to_nat n) (Data T) |}.
Proof.
  intros Hs Hn Hpos. cbn [evalOperator]. rewrite Hs, Hn.
  destruct (Z.ltb_spec n 0); [lia|].
  rewrite Z2Nat.inj_min, Nat2Z.id, take_min_length. reflexivity.
Qed.

(** Two [take]s in a row are one [take] of the smaller count, in either
    order. *)
Theorem take_take_is_min
    (N M : Expr) (sn sm : string) (n m : Z) (T : Table)
    (HN : evalExpr N ∅ = Ok sn) (Hn : Atoi sn = Ok n) (Hn0 : 0 <= n)
    (HM : evalExpr M ∅ = Ok sm) (Hm : Atoi sm = Ok m) (Hm0 : 0 <= m) :
  evalOperators [TakeOperator N; TakeOperator M] T
  = Returns {| Name := ""; Columns := Columns T;
               Data := take (Z.to_nat (Z.min n m)) (Data T) |} /\
  evalOperators [TakeOperator M; TakeOperator N] T
  = evalOperators [TakeOperator N; TakeOperator M] T.
Proof.
  assert (forall (A B : Expr) sa sb a b,
            evalExpr A ∅ = Ok sa -> Atoi sa = Ok a -> 0 <= a ->
            evalExpr B ∅ = Ok sb -> Atoi sb = Ok b -> 0 <= b ->
            evalOperators [TakeOperator A; TakeOperator B] T
            = Returns {| Name := ""; Columns := Columns T;
                         Data := take (Z.to_nat (Z.min a b)) (Data T) |})
    as Hboth.
  { intros A B sa sb a b HA Ha Ha0 HB Hb Hb0. cbn [evalOperators].
    rewrite (evalOperator_take A sa a T HA Ha Ha0).
    rewrite (evalOperator_take B sb b _ HB Hb Hb0).
    cbn [Columns Data]. rewrite take_take, Z2Nat.inj_min.
    rewrite Nat.min_comm. reflexivity. }
  split.
  - apply (Hboth N M sn sm n m); assumption.
  - rewrite (Hboth N M sn sm n m), (Hboth M N sm sn m n) by assumption.
    rewrite Z.min_comm. reflexivity.
Qed.

Lemma take_take_is_min_witness :
  evalOperators [TakeOperator (num "2"); TakeOperator (num "1")] T_ab
  = Returns {| Name := ""; Columns := ["a"; "b"]; Data := [["1"; "2"]] |}.
Proof.
  apply (proj1 (take_take_is_min (num "2") (num "1") "2" "1" 2 1 T_ab
                  eq_refl eq_refl ltac:(lia) eq_refl eq_refl ltac:(lia))).
Defined.

(** [count] returns one row of one cell under the column [count()]: the
    cell is the number of rows that a [take] before it let through, the
    number of rows that a [where] before it kept, and ["1"] after
    another [count]. *)
Theorem count_after
    (T : Table) :
  (forall (N : Expr) (s : string) (n : Z),
     evalExpr N ∅ = Ok s -> Atoi s = Ok n -> 0 <= n ->
     evalOperators [TakeOperator N; CountOperator] T
     = Returns {| Name := ""; Columns := ["count()"];
                  Data := [[Itoa (Z.min n (Z.of_nat (length (Data T))))]] |}) /\
  (forall (Predicate : Expr),
     rectangular T ->
     firstError Predicate (Columns T) (Data T) = None ->
     evalOperators [WhereOperator Predicate; CountOperator] T
     = Returns {| Name := ""; Columns := ["count()"];
                  Data := [[Itoa (Z.of_nat
                                    (length (List.filter
                                               (keepsRow Predicate (Columns T))
                                               (Data T))))]] |}) /\
  evalOperators [CountOperator; CountOperator] T
  = Returns {| Name := ""; Columns := ["count()"]; Data := [["1"]] |}.
Proof.
  split; [|split].
  - intros N s n Hs Hn Hn0. cbn [evalOperators].
    rewrite (evalOperator_take N s n T Hs Hn Hn0).
    cbn [evalOperator Data]. rewrite length_take.
    replace (Z.of_nat (Nat.min (Z.to_nat n) (length (Data T))))
      with (Z.min n (Z.of_nat (length (Data T)))) by lia.
    reflexivity.
  - intros Predicate Hrect Hok. cbn [evalOperators evalOperator].
    rewrite whereLoop_rectangular; [|exact Hrect|reflexivity].
    rewrite Hok. reflexivity.
  - reflexivity.
Qed.

Lemma count_after_witness :
  evalOperators [TakeOperator (num "2"); CountOperator] T_ab
  = Returns {| Name := ""; Columns := ["count()"]; Data := [["2"]] |} /\
  evalOperators [WhereOperator (ident "b"); CountOperator] T_ab
  = Returns {| Name := ""; Columns := ["count()"]; Data := [["2"]] |}.
Proof.
  split.
  - apply (proj1 (count_after T_ab) (num "2") "2" 2); [reflexivity | reflexivity | lia].
  - apply (proj1 (proj2 (count_after T_ab)) (ident "b")).
    + repeat constructor.
    + vm_compute. reflexivity.
Defined.

(** ** Pipelines: [where] after [where] *)

Lemma evalExpr_and (P Q : Expr) (idents : gmap string string) :
  evalExpr (BinaryExpr P TokenAnd Q) idents
  = match evalExpr P idents with
    | Err e => Err e
    | Ok a => if stringToBool a then evalExpr Q idents else Ok a
    end.
Proof.
  cbn [evalExpr]. destruct (evalExpr P idents) as [a|e]; [|reflexivity].
  cbv zeta. destruct (stringToBool a); cbn [negb]; [|reflexivity].
  destruct (evalExpr Q idents); reflexivity.
Qed.

Lemma firstError_and (P Q : Expr) (Columns : list string)
    (rows : list (list string)) :
  firstError (BinaryExpr P TokenAnd Q) Columns rows = None <->
  firstError P Columns rows = None /\
  firstError Q Columns (List.filter (keepsRow P Columns) rows) = None.
Proof.
  induction rows as [|row rows IH]; cbn [firstError List.filter].
  - tauto.
  - unfold keepsRow at 1. rewrite evalExpr_and.
    destruct (evalExpr P (rowIdents Columns row)) as [a|e];
      [|split; [discriminate | intros [? _]; discriminate]].
    destruct (stringToBool a); [|exact IH].
    cbn [firstError].
    destruct (evalExpr Q (rowIdents Columns row)) as [b|e]; [exact IH|].
    split; [discriminate | intros [_ ?]; discriminate].
Qed.

Lemma keepsRow_and (P Q : Expr) (Columns row : list string) :
  keepsRow (BinaryExpr P TokenAnd Q) Columns row
  = match evalExpr P (rowIdents Columns row) with
    | Err _ => false
    | Ok a => if stringToBool a then keepsRow Q Columns row else false
    end.
Proof.
  unfold keepsRow. rewrite evalExpr_and.
  destruct (evalExpr P (rowIdents Columns row)) as [a|e]; [|reflexivity].
  destruct (stringToBool a) eqn:Ea; [reflexivity | exact Ea].
Qed.

Lemma filter_and (P Q : Expr) (Columns : list string)
    (rows : list (list string)) :
  firstError P Columns rows = None ->
  List.filter (keepsRow (BinaryExpr P TokenAnd Q) Columns) rows
  = List.filter (keepsRow Q Columns) (List.filter (keepsRow P Columns) rows).
Proof.
  induction rows as [|row rows IH]; cbn [firstError List.filter];
    [reflexivity|].
  rewrite keepsRow_and.
  assert (keepsRow P Columns row
          = match evalExpr P (rowIdents Columns row) with
            | Ok a => stringToBool a
            | Err _ => false
            end) as -> by reflexivity.
  destruct (evalExpr P (rowIdents Columns row)) as [a|e]; [|discriminate].
  intros Hok. rewrite (IH Hok).
  destruct (stringToBool a); reflexivity.
Qed.

(** On a rectangular table, [where P | where Q] and [where P and Q] are
    the same filter: one returns a table exactly when the other returns
    that table, and one fails exactly when the other does. *)
Theorem where_where_is_and
    (P Q : Expr) (T : Table)
    (Hrect : rectangular T) :
  (forall T',
     evalOperators [WhereOperator P; WhereOperator Q] T = Returns T' <->
     evalOperator (WhereOperator (BinaryExpr P TokenAnd Q)) T = Returns T') /\
  ((exists e, evalOperators [WhereOperator P; WhereOperator Q] T = Fails e) <->
   (exists e, evalOperator (WhereOperator (BinaryExpr P TokenAnd Q)) T = Fails e)).
Proof.
  cbn [evalOperators evalOperator].
  rewrite !whereLoop_rectangular; try exact Hrect; try reflexivity.
  pose proof (firstError_and P Q (Columns T) (Data T)) as Hand.
  destruct (firstError P (Columns T) (Data T)) as [e|] eqn:EP.
  - destruct (firstError (BinaryExpr P TokenAnd Q) (Columns T) (Data T)) as [e'|].
    + split; [intros T'; split; discriminate | split; eauto].
    + destruct (proj1 Hand eq_refl) as [? _]. discriminate.
  - cbn [app Columns Data].
    rewrite whereLoop_rectangular;
      [|apply Forall_filter_bool; exact Hrect|reflexivity].
    rewrite (filter_and P Q _ _ EP).
    destruct (firstError Q (Columns T) (List.filter (keepsRow P (Columns T)) (Data T)))
      as [e|] eqn:EQ.
    + destruct (firstError (BinaryExpr P TokenAnd Q) (Columns T) (Data T)) as [e'|].
      * split; [intros T'; split; discriminate | split; eauto].
      * destruct (proj1 Hand eq_refl) as [_ ?]. discriminate.
    + rewrite (proj2 Hand (conj eq_refl eq_refl)).
      split; [intros T'; reflexivity|].
      split; intros [e He]; discriminate.
Qed.

Lemma where_where_is_and_witness :
  evalOperator
    (WhereOperator (BinaryExpr (ident "b") TokenAnd
                               (BinaryExpr (ident "a") TokenNE (lit "5")))) T_ab
  = Returns {| Name := ""; Columns := ["a"; "b"]; Data := [["1"; "2"]] |}.
Proof.
  apply (proj1 (where_where_is_and (ident "b")
                  (BinaryExpr (ident "a") TokenNE (lit "5")) T_ab
                  ltac:(repeat constructor))).
  vm_compute. reflexivity.
Defined.

(** ** [Eval]: the table a pipeline starts from *)

Lemma tableMap_fold_last (tables : list Table) (name : string) :
  forall M : gmap string Table,
  foldl (fun m tab => <[Name tab := tab]> m) M tables !! name
  = match last (List.filter (fun tab => String.eqb (Name tab) name) tables) with
    | Some T => Some T
    | None => M !! name
    end.
Proof.
  induction tables as [|tab tables IH]; intros M; cbn [foldl List.filter].
  - reflexivity.
  - rewrite IH. destruct (String.eqb_spec (Name tab) name) as [Heq|Hne].
    + destruct (List.filter _ tables) as [|t ts].
      * cbn [last]. rewrite <- Heq. apply lookup_insert_eq.
      * change (last (tab :: t :: ts)) with (last (t :: ts)).
        destruct (last (t :: ts)) eqn:El; [reflexivity|].
        apply last_None in El. discriminate.
    + destruct (last (List.filter _ tables)); [reflexivity|].
      apply lookup_insert_ne. exact Hne.
Qed.

(** [Eval] starts from the last of the given tables that bears the name
    of the source; a pipeline without operators returns that very table,
    and a name that no table bears is the unknown-table error, whatever
    the operators. *)
Theorem Eval_source_table
    (Parse : string -> result TabularExpr) (source : string)
    (tables : list Table) (src : Ident) (ops : list TabularOperator)
    (HParse : Parse source
              = Ok {| Source := TableRef src; Operators := ops |}) :
  Eval Parse source tables
  = match last (List.filter (fun tab => String.eqb (Name tab) (parser.Name src))
                            tables) with
    | Some T => evalOperators ops T
    | None => Fails (ErrUnknownTable (parser.Name src))
    end /\
  (ops = [] ->
   forall T, Eval Parse source tables = Returns T -> T ∈ tables) /\
  (Forall (fun tab => Name tab <> parser.Name src) tables ->
   Eval Parse source tables = Fails (ErrUnknownTable (parser.Name src))).
Proof.
  assert (Eval Parse source tables
          = match last (List.filter
                          (fun tab => String.eqb (Name tab) (parser.Name src))
                          tables) with
            | Some T => evalOperators ops T
            | None => Fails (ErrUnknownTable (parser.Name src))
            end) as Heval.
  { unfold Eval. rewrite HParse. unfold eval, tableMap. cbn [Source Operators].
    rewrite tableMap_fold_last, lookup_empty.
    destruct (last _); reflexivity. }
  split; [exact Heval|]. split.
  - intros -> T. rewrite Heval.
    destruct (last _) as [T0|] eqn:El; [|discriminate].
    cbn [evalOperators]. intros [= <-].
    apply last_Some_elem_of in El.
    apply list_elem_of_In, List.filter_In in El as [Hin _].
    apply list_elem_of_In. exact Hin.
  - intros Hnone. rewrite Heval.
    assert (List.filter (fun tab => String.eqb (Name tab) (parser.Name src)) tables
            = []) as ->; [|reflexivity].
    clear Heval.
    induction Hnone as [|tab tables Hne _ IH]; [reflexivity|].
    cbn [List.filter]. destruct (String.eqb_spec (Name tab) (parser.Name src));
      [contradiction | exact IH].
Qed.

Lemma Eval_source_table_witness :
  Eval (fun _ => Ok (pipeline "T" [])) "T"
       [T_ab; {| Name := "U"; Columns := []; Data := [] |};
        {| Name := "T"; Columns := ["c"]; Data := [["9"]] |}]
  = Returns {| Name := "T"; Columns := ["c"]; Data := [["9"]] |}.
Proof.
  refine (eq_trans
            (proj1 (Eval_source_table (fun _ => Ok (pipeline "T" [])) "T" _
                      {| parser.Name := "T"; Quoted := false |} [] eq_refl)) _).
  vm_compute. reflexivity.
Defined.

(** ** [strconv]: printing and parsing *)

Lemma digitsValue_of_uint_acc (d : Decimal.uint) :
  forall p : positive,
  digitsValue (NilEmpty.string_of_uint d) (Z.pos p)
  = Some (Z.pos (Pos.of_uint_acc d p)).
Proof.
  induction d; intros p; cbn [NilEmpty.string_of_uint digitsValue Pos.of_uint_acc];
    [reflexivity|..];
    (match goal with
     | |- context [digitVal ?c] =>
         let v := eval vm_compute in (digitVal c) in
         change (digitVal c) with v
     end);
    cbv iota beta; rewrite <- IHd; f_equal; lia.
Qed.

Lemma digitsValue_of_uint (d : Decimal.uint) :
  digitsValue (NilEmpty.string_of_uint d) 0 = Some (Z.of_uint d).
Proof.
  unfold Z.of_uint.
  induction d; cbn [NilEmpty.string_of_uint digitsValue Pos.of_uint];
    [reflexivity|..];
    (match goal with
     | |- context [digitVal ?c] =>
         let v := eval vm_compute in (digitVal c) in
         change (digitVal c) with v
     end);
    cbv iota beta; cbn [Z.mul Z.add Z.of_N];
    first [exact IHd | apply digitsValue_of_uint_acc].
Qed.

Lemma string_of_uint_head (d : Decimal.uint) :
  d <> Decimal.Nil ->
  exists c rest,
    NilEmpty.string_of_uint d = String c rest /\
    Ascii.eqb c "-" = false /\ Ascii.eqb c "+" = false.
Proof.
  intros Hd. destruct d; [contradiction|..];
    cbn [NilEmpty.string_of_uint]; eexists _, _; repeat split.
Qed.

Lemma string_of_uint_nonnil (d : Decimal.uint) :
  d <> Decimal.Nil -> NilZero.string_of_uint d = NilEmpty.string_of_uint d.
Proof. destruct d; [contradiction | reflexivity..]. Qed.

Lemma decimalInt_Itoa (n : Z) : decimalInt (Itoa n) = Some n.
Proof.
  unfold Itoa. destruct n as [|p|p]; cbn [Z.to_int NilZero.string_of_int].
  - reflexivity.
  - pose proof (DecimalPos.Unsigned.to_uint_nonnil p) as Hnn.
    rewrite (string_of_uint_nonnil _ Hnn).
    destruct (string_of_uint_head _ Hnn) as (c & rest & Hs & Hm & Hp).
    unfold decimalInt. rewrite Hs, Hm, Hp, <- Hs.
    rewrite digitsValue_of_uint. unfold Z.of_uint.
    rewrite DecimalPos.Unsigned.of_to. reflexivity.
  - pose proof (DecimalPos.Unsigned.to_uint_nonnil p) as Hnn.
    rewrite (string_of_uint_nonnil _ Hnn).
    destruct (string_of_uint_head _ Hnn) as (c & rest & Hs & _ & _).
    unfold decimalInt. cbn [Ascii.eqb Bool.eqb]. rewrite Hs, <- Hs.
    rewrite digitsValue_of_uint. unfold Z.of_uint.
    rewrite DecimalPos.Unsigned.of_to. reflexivity.
Qed.

(** Parsing what [strconv.Itoa] prints gives the integer back, for
    every integer of the 64-bit [int]; so a [take] whose row count is the
    decimal literal of [n] takes [n] rows, and the cell that [count]
    produces parses back to the number of rows counted. *)
Theorem Atoi_Itoa
    (n : Z) (Hn : - 2 ^ 63 <= n < 2 ^ 63) :
  Atoi (Itoa n) = Ok n /\
  (forall (k : LitKind) (T : Table),
     0 <= n ->
     evalOperator (TakeOperator (BasicLit k (Itoa n))) T
     = Returns {| Name := ""; Columns := Columns T;
                  Data := take (Z.to_nat n) (Data T) |}) /\
  (forall (T : Table),
     n = Z.of_nat (length (Data T)) ->
     exists cell,
       evalOperator CountOperator T
       = Returns {| Name := ""; Columns := ["count()"]; Data := [[cell]] |} /\
       Atoi cell = Ok n).
Proof.
  assert (Atoi (Itoa n) = Ok n) as HA
    by (apply Atoi_Ok; split; [apply decimalInt_Itoa | exact Hn]).
  split; [exact HA|]. split.
  - intros k T Hn0. apply (evalOperator_take _ (Itoa n) n); auto.
  - intros T ->. eexists. split; [reflexivity | exact HA].
Qed.

Lemma Atoi_Itoa_witness :
  Atoi (Itoa 1234567890123) = Ok 1234567890123.
Proof.
  apply (Atoi_Itoa 1234567890123). lia.
Defined.

(** ** The store: what the operators allocate *)

(** On a store where the input reads as a table on which [where]
    returns, [where] allocates one table object and one backing array
    for its rows, of the capacity that [make] asked for, and nothing
    else: [append] never moves the rows to a larger array, and no string
    is copied.  [take] allocates the table object only: its rows are the
    backing array of its input. *)
Theorem operators_allocate
    (curr : loc) (h : store) (T : Table)
    (Hread : readTable h curr = Some T) :
  (forall (Predicate : Expr) (T' : Table),
     evalOperator (WhereOperator Predicate) T = Returns T' ->
     exists (t' : TableStruct) (rowsA : list slice),
       evalOperatorS (WhereOperator Predicate) curr h
       = (Returns (length (tableObjs h)),
          {| tableObjs := tableObjs h ++ [t'];
             stringArrays := stringArrays h;
             rowArrays := rowArrays h ++ [rowsA] |}) /\
       arr (tData t') = length (rowArrays h) /\
       len (tData t') = length (Data T') /\
       cap (tData t') = length (Data T) /\
       length rowsA = length (Data T)) /\
  (forall (RowCount : Expr) (T' : Table),
     evalOperator (TakeOperator RowCount) T = Returns T' ->
     exists (t t' : TableStruct),
       tableObjs h !! curr = Some t /\
       evalOperatorS (TakeOperator RowCount) curr h
       = (Returns (length (tableObjs h)),
          {| tableObjs := tableObjs h ++ [t'];
             stringArrays := stringArrays h;
             rowArrays := rowArrays h |}) /\
       arr (tData t') = arr (tData t) /\
       off (tData t') = off (tData t) /\
       cap (tData t') = cap (tData t) /\
       len (tData t') = length (Data T')).
Proof.
  destruct (readTable_inv _ _ _ Hread) as (t & rowsS & Ht & Hname & Hc & Hr & Hd).
  pose proof (readRows_length _ _ _ Hr) as HlenS.
  pose proof (Forall2_length _ _ _ Hd) as HlenD.
  destruct h as [TO SA RA]. cbn [tableObjs stringArrays rowArrays] in *.
  split.
  - intros Predicate T'. cbn [evalOperator evalOperatorS].
    unfold bind at 1. unfold loadTable at 1. cbn [tableObjs]. rewrite Ht.
    unfold bind at 1. unfold makeRows at 1.
    unfold bind at 1. unfold newTableObj at 1.
    cbn [allocRows tableObjs stringArrays rowArrays].
    change {| tableObjs :=
                TO ++ [{| tName := ""; tColumns := tColumns t;
                          tData := {| arr := length RA; off := 0%nat;
                                      len := 0%nat; cap := len (tData t) |} |}];
              stringArrays := SA;
              rowArrays := RA ++ [replicate (len (tData t)) nilSlice] |}
      with (building TO SA RA t 0 (replicate (len (tData t)) nilSlice)).
    unfold bind at 1. unfold loadTable at 1. cbn [tableObjs building].
    rewrite (lookup_app_l_Some _ _ _ _ Ht).
    change {| tableObjs :=
                TO ++ [{| tName := ""; tColumns := tColumns t;
                          tData := {| arr := length RA; off := 0%nat;
                                      len := 0%nat; cap := len (tData t) |} |}];
              stringArrays := SA;
              rowArrays := RA ++ [replicate (len (tData t)) nilSlice] |}
      with (building TO SA RA t 0 (replicate (len (tData t)) nilSlice)).
    pose proof (whereLoopS_refines Predicate TO SA RA curr t (Columns T) rowsS
                  (Data T) Ht Hc Hr Hd (len (tData t)) 0 builtinIdents []
                  (replicate (len (tData t)) nilSlice)) as Hloop.
    rewrite drop_0 in Hloop. cbn [length] in Hloop.
    specialize (Hloop (length_replicate _ _) (Nat.le_refl 0) eq_refl
                      (List.Forall2_nil _)).
    unfold bind at 1.
    destruct (whereLoop Predicate (Columns T) (Data T) builtinIdents [])
      as [acc'|e|]; try discriminate.
    intros [= <-].
    destruct Hloop as (rowsA' & HlenA & _ & _ & ->).
    cbn [ret Data]. eexists _, rowsA'.
    split; [reflexivity|]. cbn [tData arr len cap].
    repeat split; congruence.
  - intros RowCount T'. cbn [evalOperator evalOperatorS].
    destruct (evalExpr RowCount ∅) as [rowCount|e]; [|discriminate].
    destruct (Atoi rowCount) as [n|e]; [|discriminate].
    destruct (n <? 0); [discriminate|].
    intros [= <-].
    unfold bind, loadTable, newTableObj. cbn [tableObjs]. rewrite Ht.
    exists t. eexists. split; [reflexivity|]. split; [reflexivity|].
    cbn [tData arr off len cap Data]. repeat split.
    rewrite length_take. lia.
Qed.

Lemma operators_allocate_witness :
  exists (t' : TableStruct) (rowsA : list slice),
    evalOperatorS (WhereOperator (ident "b")) 0%nat store_ab
    = (Returns 1%nat,
       {| tableObjs := tableObjs store_ab ++ [t'];
          stringArrays := stringArrays store_ab;
          rowArrays := rowArrays store_ab ++ [rowsA] |}) /\
    arr (tData t') = 1%nat /\
    len (tData t') = 2%nat /\
    cap (tData t') = 3%nat /\
    length rowsA = 3%nat.
Proof.
  apply (proj1 (operators_allocate 0%nat store_ab T_ab eq_refl) (ident "b")
           {| Name := ""; Columns := ["a"; "b"];
              Data := [["1"; "2"]; ["5"; "4"]] |}).
  vm_compute. reflexivity.
Defined.

(** * Properties of the command line *)

(** ** Opening and closing the inputs *)

Lemma closedReaders_app (a b : list event) :
  closedReaders (a ++ b) = closedReaders a ++ closedReaders b.
Proof. apply List.flat_map_app. Qed.

Lemma openedFiles_app (a b : list event) :
  openedFiles (a ++ b) = openedFiles a ++ openedFiles b.
Proof. apply List.flat_map_app. Qed.

Lemma closable_app (a b : list Reader) :
  closable (a ++ b) = closable a ++ closable b.
Proof. apply List.filter_app. Qed.

Section InputsProperties.

Variable osOpen : list event -> string -> File + oserror.
Variable rawRead : list event -> Reader -> nat -> string * option oserror.
Variable rawClose : list event -> Reader -> option oserror.
Variable IsTerminal : File -> bool.

Lemma readerClose_events (r : Reader) (tr : list event) :
  exists evs,
    (readerClose rawClose r tr).2 = tr ++ evs /\
    closedReaders evs = closable [r] /\
    openedFiles evs = [].
Proof.
  destruct r; cbn [readerClose ioret snd].
  - eexists. split; [reflexivity|]. split; reflexivity.
  - exists []. rewrite app_nil_r. repeat split.
  - eexists. split; [reflexivity|]. split; reflexivity.
Qed.

Lemma readerRead_events (r : Reader) (n : nat) (tr : list event) :
  exists evs,
    (readerRead rawRead r n tr).2 = tr ++ evs /\
    closedReaders evs = [] /\
    openedFiles evs = [].
Proof.
  induction r as [f|r IH|rs]; cbn [readerRead snd].
  - eexists. split; [reflexivity|]. split; reflexivity.
  - exact IH.
  - eexists. split; [reflexivity|]. split; reflexivity.
Qed.

Lemma closeAll_events (readers : list Reader) :
  forall tr,
  exists evs,
    (closeAll rawClose readers tr).2 = tr ++ evs /\
    closedReaders evs = closable readers /\
    openedFiles evs = [].
Proof.
  induction readers as [|c readers IH]; intros tr; cbn [closeAll].
  - exists []. rewrite app_nil_r. repeat split.
  - unfold iobind.
    destruct (readerClose_events c tr) as (evs1 & H1 & Hc1 & Ho1).
    destruct (readerClose rawClose c tr) as [e tr1]. cbn [snd] in H1. subst tr1.
    destruct (IH (tr ++ evs1)) as (evs2 & H2 & Hc2 & Ho2).
    exists (evs1 ++ evs2). rewrite H2, app_assoc.
    split; [reflexivity|].
    rewrite closedReaders_app, openedFiles_app, Hc1, Hc2, Ho1, Ho2.
    split; [|reflexivity].
    change (c :: readers) with ([c] ++ readers). rewrite closable_app.
    reflexivity.
Qed.

Lemma makeInputLoop_events (args : list string) :
  forall (readers : list Reader) (tr : list event),
  exists evs,
    (makeInputLoop osOpen rawClose args readers tr).2 = tr ++ evs /\
    match (makeInputLoop osOpen rawClose args readers tr).1 with
    | inr _ => closedReaders evs = closable readers ++ openedFiles evs
    | inl r =>
        closedReaders evs = [] /\
        exists rs,
          r = multiReadCloser (readers ++ rs) /\
          length rs = length args /\
          closable rs = openedFiles evs
    end.
Proof.
  induction args as [|path args IH]; intros readers tr; cbn [makeInputLoop].
  - exists []. rewrite app_nil_r. split; [reflexivity|].
    cbn [ioret fst]. split; [reflexivity|].
    exists []. rewrite app_nil_r. repeat split.
  - destruct (String.eqb path "-").
    + destruct (IH (readers ++ [nopReadCloser (osFile Stdin)]) tr)
        as (evs & Htr & Hres).
      exists evs. split; [exact Htr|].
      destruct (makeInputLoop _ _ _ _ _).1 as [r|e].
      * destruct Hres as (Hc & rs & -> & Hlen & Hcl).
        split; [exact Hc|].
        exists (nopReadCloser (osFile Stdin) :: rs).
        rewrite <- app_assoc. repeat split; [simpl; lia | exact Hcl].
      * rewrite closable_app in Hres. cbn in Hres.
        rewrite app_nil_r in Hres. exact Hres.
    + unfold iobind, openFile.
      destruct (osOpen tr path) as [f|err].
      * destruct (IH (readers ++ [osFile f]) (tr ++ [EvOpen path (inl f)]))
          as (evs & Htr & Hres).
        exists (EvOpen path (inl f) :: evs).
        split; [rewrite Htr, <- app_assoc; reflexivity|].
        destruct (makeInputLoop _ _ _ _ _).1 as [r|e].
        -- destruct Hres as (Hc & rs & -> & Hlen & Hcl).
           split; [exact Hc|].
           exists (osFile f :: rs).
           rewrite <- app_assoc.
           repeat split; [simpl; lia|].
           change (osFile f :: closable rs = osFile f :: openedFiles evs).
           rewrite Hcl. reflexivity.
        -- rewrite closable_app, <- app_assoc in Hres. exact Hres.
      * destruct (closeAll_events readers (tr ++ [EvOpen path (inr err)]))
          as (evs & Htr & Hc & Ho).
        destruct (closeAll rawClose readers _) as [[] tr1].
        cbn [snd] in Htr. subst tr1. cbn [ioret fst snd].
        exists (EvOpen path (inr err) :: evs).
        split; [rewrite <- app_assoc; reflexivity|].
        change (closedReaders evs = closable readers ++ openedFiles evs).
        rewrite Hc, Ho, app_nil_r. reflexivity.
Qed.

Lemma opensAnswered_app (tr a b : list event) :
  opensAnswered osOpen tr a -> opensAnswered osOpen (tr ++ a) b ->
  opensAnswered osOpen tr (a ++ b).
Proof.
  revert tr. induction a as [|ev a IH]; intros tr Ha Hb.
  - rewrite app_nil_r in Hb. exact Hb.
  - destruct Ha as [Hev Ha]. split; [exact Hev|].
    apply IH; [exact Ha|]. rewrite <- app_assoc. exact Hb.
Qed.

Lemma opensAnswered_closes (closes : list event) (rs : list Reader) :
  Forall2 (fun ev r => exists cerr, ev = EvClose r cerr) closes rs ->
  forall tr, opensAnswered osOpen tr closes.
Proof.
  induction 1 as [|ev r closes rs [cerr ->] _ IH]; intros tr.
  - exact I.
  - split; [exact I | apply IH].
Qed.

Lemma closeAll_closes (readers : list Reader) :
  forall tr,
  exists closes,
    (closeAll rawClose readers tr).2 = tr ++ closes /\
    Forall2 (fun ev r => exists cerr, ev = EvClose r cerr)
            closes (closable readers).
Proof.
  induction readers as [|c readers IH]; intros tr; cbn [closeAll].
  - exists []. rewrite app_nil_r. split; [reflexivity | constructor].
  - unfold iobind.
    assert (exists cl,
              (readerClose rawClose c tr).2 = tr ++ cl /\
              Forall2 (fun ev r => exists cerr, ev = EvClose r cerr)
                      cl (closable [c])) as (cl & Hcl & Hshape).
    { destruct c; cbn [readerClose ioret snd].
      - eexists. split; [reflexivity|]. repeat constructor. eauto.
      - exists []. rewrite app_nil_r. split; [reflexivity | constructor].
      - eexists. split; [reflexivity|]. repeat constructor. eauto. }
    destruct (readerClose rawClose c tr) as [cerr tr1].
    cbn [snd] in Hcl. subst tr1.
    destruct (IH (tr ++ cl)) as (closes & Htr & Hshape').
    exists (cl ++ closes). rewrite Htr, <- app_assoc.
    split; [reflexivity|].
    change (c :: readers) with ([c] ++ readers). rewrite closable_app.
    apply Forall2_app; assumption.
Qed.

Lemma makeInputLoop_trace (args : list string) :
  forall (readers : list Reader) (tr : list event),
  exists evs,
    (makeInputLoop osOpen rawClose args readers tr).2 = tr ++ evs /\
    opensAnswered osOpen tr evs /\
    match (makeInputLoop osOpen rawClose args readers tr).1 with
    | inl r =>
        exists (new : list Reader) (opened : list (string * File)),
          r = multiReadCloser (readers ++ new) /\
          Forall2 (fun arg c =>
                     if String.eqb arg "-"
                     then c = nopReadCloser (osFile Stdin)
                     else exists f, c = osFile f)
                  args new /\
          evs = map (fun o => EvOpen o.1 (inl o.2)) opened /\
          map fst opened
          = List.filter (fun arg => negb (String.eqb arg "-")) args /\
          closable new = map (fun o => osFile o.2) opened
    | inr err =>
        exists (pre : list string) (path : string) (post : list string)
               (opened : list (string * File)) (closes : list event),
          args = pre ++ path :: post /\
          path <> "-" /\
          evs = map (fun o => EvOpen o.1 (inl o.2)) opened
                ++ EvOpen path (inr err) :: closes /\
          map fst opened
          = List.filter (fun arg => negb (String.eqb arg "-")) pre /\
          Forall2 (fun ev r => exists cerr, ev = EvClose r cerr)
                  closes
                  (closable readers ++ map (fun o => osFile o.2) opened)
    end.
Proof.
  induction args as [|path args IH]; intros readers tr; cbn [makeInputLoop].
  - exists []. rewrite app_nil_r. split; [reflexivity|]. split; [exact I|].
    cbn [ioret fst]. exists [], []. rewrite app_nil_r.
    repeat split. constructor.
  - destruct (String.eqb path "-") eqn:Heq.
    + destruct (IH (readers ++ [nopReadCloser (osFile Stdin)]) tr)
        as (evs & Htr & Hans & Hres).
      exists evs. split; [exact Htr|]. split; [exact Hans|].
      destruct (makeInputLoop _ _ _ _ _).1 as [r|err].
      * destruct Hres as (new & opened & -> & Hargs & -> & Hpaths & Hcl).
        exists (nopReadCloser (osFile Stdin) :: new), opened.
        rewrite <- app_assoc. split; [reflexivity|].
        split; [constructor; [rewrite Heq; reflexivity | exact Hargs]|].
        split; [reflexivity|].
        cbn [List.filter]. rewrite Heq. cbn [negb].
        split; [exact Hpaths | exact Hcl].
      * destruct Hres
          as (pre & path' & post & opened & closes & -> & Hne & -> & Hpaths & Hcl).
        exists (path :: pre), path', post, opened, closes.
        split; [reflexivity|]. split; [exact Hne|]. split; [reflexivity|].
        cbn [List.filter]. rewrite Heq. cbn [negb].
        split; [exact Hpaths|].
        rewrite closable_app in Hcl. cbn in Hcl. rewrite app_nil_r in Hcl.
        exact Hcl.
    + unfold iobind, openFile.
      destruct (osOpen tr path) as [f|err] eqn:Eopen.
      * destruct (IH (readers ++ [osFile f]) (tr ++ [EvOpen path (inl f)]))
          as (evs & Htr & Hans & Hres).
        exists (EvOpen path (inl f) :: evs).
        split; [rewrite Htr, <- app_assoc; reflexivity|].
        split; [split; [symmetry; exact Eopen | exact Hans]|].
        destruct (makeInputLoop _ _ _ _ _).1 as [r|err].
        -- destruct Hres as (new & opened & -> & Hargs & -> & Hpaths & Hcl).
           exists (osFile f :: new), ((path, f) :: opened).
           rewrite <- app_assoc. split; [reflexivity|].
           split; [constructor; [rewrite Heq; eauto | exact Hargs]|].
           split; [reflexivity|].
           cbn [List.filter map fst snd]. rewrite Heq. cbn [negb].
           rewrite Hpaths. split; [reflexivity|].
           change (closable (osFile f :: new)) with (osFile f :: closable new).
           rewrite Hcl. reflexivity.
        -- destruct Hres
             as (pre & path' & post & opened & closes & -> & Hne & -> & Hpaths & Hcl).
           exists (path :: pre), path', post, ((path, f) :: opened), closes.
           split; [reflexivity|]. split; [exact Hne|]. split; [reflexivity|].
           cbn [List.filter map fst snd]. rewrite Heq. cbn [negb].
           rewrite Hpaths. split; [reflexivity|].
           rewrite closable_app, <- app_assoc in Hcl. exact Hcl.
      * destruct (closeAll_closes readers (tr ++ [EvOpen path (inr err)]))
          as (closes & Htr & Hshape).
        destruct (closeAll rawClose readers _) as [[] tr1].
        cbn [snd] in Htr. subst tr1. cbn [ioret fst snd].
        exists (EvOpen path (inr err) :: closes).
        split; [rewrite <- app_assoc; reflexivity|].
        split.
        { split; [symmetry; exact Eopen|].
          exact (opensAnswered_closes _ _ Hshape _). }
        exists [], path, args, [], closes.
        split; [reflexivity|].
        split; [intros ->; discriminate|].
        split; [reflexivity|]. split; [reflexivity|].
        cbn [map]. rewrite app_nil_r. exact Hshape.
Qed.

(** [makeInput], by the arguments it is given.  With no argument or the
    single argument [-] it returns standard input in a [nopReadCloser]
    and calls nothing.  With one other argument it opens that file and
    returns the file, or the error.  With two or more it opens the
    arguments other than [-] in order ([-] opens nothing and stands for
    standard input in a [nopReadCloser]); every [os.Open] event carries
    what the system answered.  If all succeed, nothing else happens and
    the [multiReadCloser] it returns holds one reader per argument, in
    order, its files being exactly the ones opened; [isTerminal] never
    takes it for a terminal.  If one fails, no later argument is
    opened, the files opened before are closed, each once and in the
    order of opening, nothing else is closed, and the error returned is
    the one of that [os.Open]. *)
Theorem makeInput_opens_and_closes
    (args : list string) (tr : list event) :
  (args = [] \/ args = ["-"] ->
   makeInput osOpen rawClose args tr
   = (inl (nopReadCloser (osFile Stdin)), tr)) /\
  (forall arg : string,
     args = [arg] -> arg <> "-" ->
     makeInput osOpen rawClose args tr
     = (match osOpen tr arg with
        | inl f => inl (osFile f)
        | inr err => inr err
        end,
        tr ++ [EvOpen arg (osOpen tr arg)])) /\
  ((2 <= length args)%nat ->
   exists evs,
     (makeInput osOpen rawClose args tr).2 = tr ++ evs /\
     opensAnswered osOpen tr evs /\
     match (makeInput osOpen rawClose args tr).1 with
     | inl r =>
         exists (readers : list Reader) (opened : list (string * File)),
           r = multiReadCloser readers /\
           isTerminal IsTerminal r = false /\
           Forall2 (fun arg c =>
                      if String.eqb arg "-"
                      then c = nopReadCloser (osFile Stdin)
                      else exists f, c = osFile f)
                   args readers /\
           evs = map (fun o => EvOpen o.1 (inl o.2)) opened /\
           map fst opened
           = List.filter (fun arg => negb (String.eqb arg "-")) args /\
           closable readers = map (fun o => osFile o.2) opened
     | inr err =>
         exists (pre : list string) (path : string) (post : list string)
                (opened : list (string * File)) (closes : list event),
           args = pre ++ path :: post /\
           path <> "-" /\
           evs = map (fun o => EvOpen o.1 (inl o.2)) opened
                 ++ EvOpen path (inr err) :: closes /\
           map fst opened
           = List.filter (fun arg => negb (String.eqb arg "-")) pre /\
           Forall2 (fun ev o => exists cerr, ev = EvClose (osFile o.2) cerr)
                   closes opened
     end).
Proof.
  repeat apply conj.
  - intros [->| ->]; reflexivity.
  - intros arg -> Hne. cbn [makeInput].
    destruct (String.eqb_spec arg "-") as [Heq|_]; [contradiction|].
    unfold iobind, openFile, ioret.
    destruct (osOpen tr arg); reflexivity.
  - intros Hlen.
    destruct args as [|arg [|arg2 args]]; [simpl in Hlen; lia..|].
    cbn [makeInput].
    destruct (makeInputLoop_trace (arg :: arg2 :: args) [] tr)
      as (evs & Htr & Hans & Hres).
    exists evs. split; [exact Htr|]. split; [exact Hans|].
    destruct (makeInputLoop _ _ _ _ _).1 as [r|err].
    + destruct Hres as (new & opened & -> & Hargs & -> & Hpaths & Hcl).
      exists new, opened. cbn [app isTerminal]. auto 10.
    + destruct Hres
        as (pre & path & post & opened & closes & Hargs & Hne & -> & Hpaths & Hcl).
      exists pre, path, post, opened, closes.
      split; [exact Hargs|]. split; [exact Hne|]. split; [reflexivity|].
      split; [exact Hpaths|].
      cbn [closable List.filter app] in Hcl.
      apply Forall2_fmap_r in Hcl. exact Hcl.
Qed.

Example makeInput_fails_on_third :
  makeInput (fun tr path => if String.eqb path "missing"
                            then inr (OsError "no such file")
                            else inl (3 + length tr)%nat)
            (fun _ _ => None)
            ["a.pql"; "-"; "b.pql"; "missing"; "c.pql"] []
  = (inr (OsError "no such file"),
     [EvOpen "a.pql" (inl 3%nat); EvOpen "b.pql" (inl 4%nat);
      EvOpen "missing" (inr (OsError "no such file"));
      EvClose (osFile 3%nat) None; EvClose (osFile 4%nat) None]).
Proof. vm_compute. reflexivity. Qed.

End InputsProperties.

Lemma makeInput_opens_and_closes_witness :
  makeInput (fun tr _ => inl (3 + length tr)%nat) (fun _ _ => None) ["-"] []
  = (inl (nopReadCloser (osFile Stdin)), []) /\
  exists evs,
    (makeInput (fun tr path => if String.eqb path "missing"
                               then inr (OsError "no such file")
                               else inl (3 + length tr)%nat)
               (fun _ _ => None)
               ["a.pql"; "-"; "b.pql"; "missing"; "c.pql"] []).2
    = [] ++ evs /\
    exists (pre : list string) (path : string) (post : list string)
           (opened : list (string * File)) (closes : list event),
      ["a.pql"; "-"; "b.pql"; "missing"; "c.pql"] = pre ++ path :: post /\
      path <> "-" /\
      evs = map (fun o => EvOpen o.1 (inl o.2)) opened
            ++ EvOpen path (inr (OsError "no such file")) :: closes /\
      map fst opened
      = List.filter (fun arg => negb (String.eqb arg "-")) pre /\
      Forall2 (fun ev o => exists cerr, ev = EvClose (osFile o.2) cerr)
              closes opened.
Proof.
  split.
  - apply (proj1 (makeInput_opens_and_closes
                    (fun tr _ => inl (3 + length tr)%nat) (fun _ _ => None)
                    (fun _ => true) ["-"] [])).
    right. reflexivity.
  - destruct (proj2 (proj2 (makeInput_opens_and_closes
                              (fun tr path => if String.eqb path "missing"
                                              then inr (OsError "no such file")
                                              else inl (3 + length tr)%nat)
                              (fun _ _ => None) (fun _ => true)
                              ["a.pql"; "-"; "b.pql"; "missing"; "c.pql"] []))
                    ltac:(simpl; lia))
      as (evs & Htr & _ & Hres).
    exists evs. split; [exact Htr | exact Hres].
Defined.

(** ** Reading through a [multiReadCloser] *)

Section MultiReadCloserProperties.

Variable rawRead : list event -> Reader -> nat -> string * option oserror.
Variable rawClose : list event -> Reader -> option oserror.

Lemma mrcRead_events (readers : list Reader) (n : nat) :
  forall tr data err readers' tr',
  mrcRead rawRead rawClose readers n tr = (data, err, readers', tr') ->
  exists evs,
    tr' = tr ++ evs /\
    openedFiles evs = [] /\
    closedReaders evs ++ closable readers' = closable readers /\
    readers' `suffix_of` readers /\
    (err = Some EOF -> readers' = []).
Proof.
  induction readers as [|r rest IH]; intros tr data err readers' tr';
    cbn [mrcRead].
  - intros [= <- <- <- <-]. exists []. rewrite app_nil_r.
    split; [reflexivity|]. split; [reflexivity|]. split; [reflexivity|].
    split; [reflexivity | intros _; reflexivity].
  - unfold iobind at 1.
    destruct (readerRead_events rawRead r n tr) as (evs1 & H1 & Hc1 & Ho1).
    destruct (readerRead rawRead r n tr) as [[data1 err1] tr1].
    cbn [fst snd] in *. subst tr1.
    destruct err1 as [[| |msg]|].
    + unfold iobind at 1.
      destruct (readerClose_events rawClose r (tr ++ evs1))
        as (evs2 & H2 & Hc2 & Ho2).
      destruct (readerClose rawClose r (tr ++ evs1)) as [cerr tr2].
      cbn [snd] in H2. subst tr2.
      destruct (0 <? String.length data1)%nat.
      * intros [= <- <- <- <-]. exists (evs1 ++ evs2).
        rewrite app_assoc, openedFiles_app, closedReaders_app, Hc1, Hc2, Ho1, Ho2.
        split; [reflexivity|]. split; [reflexivity|]. split; [|split].
        -- change (r :: rest) with ([r] ++ rest). rewrite closable_app.
           reflexivity.
        -- apply suffix_cons_r. reflexivity.
        -- destruct rest; [reflexivity | discriminate].
      * intros Hrec.
        destruct (IH _ _ _ _ _ Hrec) as (evs3 & -> & Ho3 & Hc3 & Hs3 & He3).
        exists (evs1 ++ evs2 ++ evs3).
        rewrite !app_assoc. split; [reflexivity|].
        rewrite !openedFiles_app, !closedReaders_app, Hc1, Hc2, Ho1, Ho2, Ho3.
        split; [reflexivity|]. split; [|split].
        -- change (r :: rest) with ([r] ++ rest). rewrite closable_app.
           rewrite <- Hc3. cbn [app]. rewrite <- !app_assoc. reflexivity.
        -- apply suffix_cons_r. exact Hs3.
        -- exact He3.
    + intros [= <- <- <- <-]. exists evs1.
      rewrite Hc1, Ho1.
      split; [reflexivity|]. split; [reflexivity|]. split; [reflexivity|].
      split; [reflexivity | discriminate].
    + intros [= <- <- <- <-]. exists evs1.
      rewrite Hc1, Ho1.
      split; [reflexivity|]. split; [reflexivity|]. split; [reflexivity|].
      split; [reflexivity | discriminate].
    + intros [= <- <- <- <-]. exists evs1.
      rewrite Hc1, Ho1.
      split; [reflexivity|]. split; [reflexivity|]. split; [reflexivity|].
      split; [reflexivity | discriminate].
Qed.

Lemma mrcCloseLoop_events (readers : list Reader) :
  forall firstError tr,
  exists evs,
    (mrcCloseLoop rawClose readers firstError tr).2 = tr ++ evs /\
    openedFiles evs = [] /\
    closedReaders evs = closable readers.
Proof.
  induction readers as [|rc readers IH]; intros firstError tr;
    cbn [mrcCloseLoop].
  - exists []. rewrite app_nil_r. repeat split.
  - unfold iobind.
    destruct (readerClose_events rawClose rc tr) as (evs1 & H1 & Hc1 & Ho1).
    destruct (readerClose rawClose rc tr) as [err tr1]. cbn [snd] in H1.
    subst tr1.
    destruct (IH (match firstError with None => err | Some _ => firstError end)
                 (tr ++ evs1)) as (evs2 & H2 & Ho2 & Hc2).
    exists (evs1 ++ evs2). rewrite H2, app_assoc.
    split; [reflexivity|].
    rewrite openedFiles_app, closedReaders_app, Hc1, Hc2, Ho1, Ho2.
    split; [reflexivity|].
    change (rc :: readers) with ([rc] ++ readers). rewrite closable_app.
    reflexivity.
Qed.

Lemma mrcCalls_nil (calls : list mrcCall) :
  forall tr, mrcCalls rawRead rawClose calls [] tr = ([], tr).
Proof.
  induction calls as [|[n|] calls IH]; intros tr; cbn [mrcCalls];
    [reflexivity|..]; unfold iobind; cbn; apply IH.
Qed.


Lemma mrcCalls_events
    (calls : list mrcCall) (readers : list Reader) (tr : list event) :
  exists evs,
    (mrcCalls rawRead rawClose calls readers tr).2 = tr ++ evs /\
    openedFiles evs = [] /\
    closedReaders evs ++ closable (mrcCalls rawRead rawClose calls readers tr).1
    = closable readers /\
    (CallClose ∈ calls ->
     (mrcCalls rawRead rawClose calls readers tr).1 = [] /\
     closedReaders evs = closable readers).
Proof.
  revert readers tr.
  induction calls as [|call calls IH]; intros readers tr; cbn [mrcCalls].
  - exists []. rewrite app_nil_r. cbn [ioret fst snd].
    split; [reflexivity|]. split; [reflexivity|]. split; [reflexivity|].
    intros Hin. inversion Hin.
  - destruct call as [n|].
    + unfold iobind.
      destruct (mrcRead rawRead rawClose readers n tr) as [[[data err] rs1] tr1]
        eqn:ERead.
      destruct (mrcRead_events _ _ _ _ _ _ _ ERead) as (evs1 & H1 & Ho1 & Hc1 & _).
      cbn [fst snd] in *. subst tr1.
      destruct (IH rs1 (tr ++ evs1)) as (evs2 & H2 & Ho2 & Hc2 & Hclose).
      exists (evs1 ++ evs2). rewrite H2, app_assoc.
      split; [reflexivity|].
      rewrite openedFiles_app, closedReaders_app, Ho1, Ho2.
      split; [reflexivity|].
      split; [rewrite <- app_assoc, Hc2; exact Hc1|].
      intros Hin. apply elem_of_cons in Hin as [Hin|Hin]; [discriminate|].
      destruct (Hclose Hin) as [Hnil Hall]. split; [exact Hnil|].
      rewrite <- Hc1, Hall. reflexivity.
    + unfold iobind, mrcClose, iobind, ioret.
      destruct (mrcCloseLoop_events readers None tr) as (evs1 & H1 & Ho1 & Hc1).
      destruct (mrcCloseLoop rawClose readers None tr) as [err tr1].
      cbn [fst snd] in *. subst tr1.
      rewrite mrcCalls_nil. cbn [fst snd].
      exists evs1.
      split; [reflexivity|]. split; [exact Ho1|].
      cbn. rewrite app_nil_r.
      split; [exact Hc1|]. intros _. split; [reflexivity | exact Hc1].
Qed.

Variable osOpen : list event -> string -> File + oserror.

(** Over any sequence of [Read] and [Close] calls, the readers closed so
    far followed by the readers still held are the readers held at
    first, in order: no reader is closed twice, none is closed out of
    turn, and once [Close] has been called every reader has been closed
    (a [nopReadCloser] apart, whose [Close] does nothing) and none is
    held.  So the files that [makeInput] opened for several arguments
    have each been closed exactly once, in the order of opening, once
    the reader it returned has been closed, whatever was read before. *)
Theorem multiReadCloser_closes_once
    (calls : list mrcCall) (readers : list Reader) (tr : list event) :
  (exists evs,
     (mrcCalls rawRead rawClose calls readers tr).2 = tr ++ evs /\
     closedReaders evs ++ closable (mrcCalls rawRead rawClose calls readers tr).1
     = closable readers /\
     (CallClose ∈ calls ->
      (mrcCalls rawRead rawClose calls readers tr).1 = [] /\
      closedReaders evs = closable readers)) /\
  (forall (args : list string) (tr0 : list event),
     makeInput osOpen rawClose args tr0 = (inl (multiReadCloser readers), tr) ->
     CallClose ∈ calls ->
     exists evs,
       (mrcCalls rawRead rawClose calls readers tr).2 = tr0 ++ evs /\
       closedReaders evs = openedFiles evs).
Proof.
  destruct (mrcCalls_events calls readers tr) as (evs2 & Htr2 & Ho2 & Hc2 & Hcl).
  split; [exists evs2; auto|].
  intros args tr0 Hmake Hclose.
  destruct (Hcl Hclose) as [_ Hall].
  assert (exists evs1, tr = tr0 ++ evs1 /\ closedReaders evs1 = [] /\
                       closable readers = openedFiles evs1)
    as (evs1 & -> & Hc1 & Ho1).
  { destruct args as [|arg [|arg2 args]]; cbn [makeInput] in Hmake.
    - discriminate.
    - destruct (String.eqb arg "-"); [discriminate|].
      unfold iobind, openFile, ioret in Hmake.
      destruct (osOpen tr0 arg); discriminate.
    - destruct (makeInputLoop_events osOpen rawClose (arg :: arg2 :: args) [] tr0)
        as (evs1 & Htr1 & Hres).
      rewrite Hmake in Htr1, Hres. cbn [fst snd] in Htr1, Hres.
      destruct Hres as (Hc1 & rs & [= ->] & _ & Ho1).
      exists evs1. auto. }
  exists (evs1 ++ evs2). rewrite Htr2, app_assoc.
  split; [reflexivity|].
  rewrite closedReaders_app, openedFiles_app, Hc1, Ho2, Hall, Ho1, app_nil_r.
  reflexivity.
Qed.

End MultiReadCloserProperties.


Example multiReadCloser_calls :
  mrcCalls (fun _ r _ => match r with
                         | osFile 3%nat => ("", Some EOF)
                         | _ => ("data", None)
                         end)
           (fun _ _ => None)
           [CallRead 16%nat; CallClose; CallRead 16%nat; CallClose]
           [osFile 3%nat; nopReadCloser (osFile Stdin); osFile 4%nat] []
  = ([],
     [EvRead (osFile 3%nat) "" (Some EOF); EvClose (osFile 3%nat) None;
      EvRead (osFile Stdin) "data" None; EvClose (osFile 4%nat) None]).
Proof. vm_compute. reflexivity. Qed.

Lemma multiReadCloser_closes_once_witness :
  exists evs,
    [EvOpen "a" (inl 3%nat); EvOpen "b" (inl 4%nat);
     EvRead (osFile 3%nat) "" (Some EOF); EvClose (osFile 3%nat) None;
     EvRead (osFile 4%nat) "data" None; EvClose (osFile 4%nat) None]
    = [] ++ evs /\
    closedReaders evs = openedFiles evs.
Proof.
  apply (proj2 (multiReadCloser_closes_once
                  (fun _ r _ => match r with
                                | osFile 3%nat => ("", Some EOF)
                                | _ => ("data", None)
                                end)
                  (fun _ _ => None)
                  (fun tr _ => inl (3 + length tr)%nat)
                  [CallRead 16%nat; CallClose]
                  [osFile 3%nat; osFile 4%nat]
                  [EvOpen "a" (inl 3%nat); EvOpen "b" (inl 4%nat)])
           ["a"; "b"] []).
  - vm_compute. reflexivity.
  - right. left.
Defined.

(** ** Loading tables *)



Section RunEvalProperties.

Variable osOpen : list event -> string -> File + oserror.
Variable rawClose : list event -> Reader -> option oserror.
Variable IsTerminal : File -> bool.
Variable csvFile : list event -> File -> list (list string + oserror).
Variable Base : string -> string.
Variable Token : Type.
Variable SplitStatements : string -> list string.
Variable Scan : string -> list Token.
Variable Parse : string -> result TabularExpr.

Lemma readRowsLoop_reads (path : string) (reads : list (list string + oserror)) :
  forall data data',
  main.readRowsLoop path reads data = inl data' ->
  exists rows rest,
    data' = data ++ rows /\
    reads = map inl rows ++ rest /\
    (rest = [] \/ exists rest', rest = inr EOF :: rest').
Proof.
  induction reads as [|[row|err] reads IH]; intros data data';
    cbn [main.readRowsLoop].
  - intros [= <-]. exists [], []. rewrite app_nil_r. auto.
  - intros H. apply IH in H as (rows & rest & -> & -> & Hrest).
    exists (row :: rows), rest. rewrite <- app_assoc. auto.
  - destruct err; try discriminate.
    intros [= <-]. exists [], (inr EOF :: reads). rewrite app_nil_r.
    repeat split. right. eauto.
Qed.

(** [readTable] closes the file it opened, once, on every way out, and
    opens and closes nothing else.  The table it returns has the first
    record of the file as its columns and the records after it, up to
    the end of the file, as its rows, in order; a file without any
    record is an error; and as [encoding/csv] only returns records of
    one length, the table is rectangular. *)
Theorem readTable_reads_and_closes
    (path : string) (tr : list event) :
  match osOpen tr path with
  | inr err =>
      main.readTable osOpen rawClose csvFile Base path tr
      = (inr (OpenError err), tr ++ [EvOpen path (inr err)])
  | inl f =>
      let tr1 := tr ++ [EvOpen path (inl f)] in
      (main.readTable osOpen rawClose csvFile Base path tr).2
      = tr1 ++ [EvClose (osFile f) (rawClose tr1 (osFile f))] /\
      (csvFile tr1 f = [] ->
       (main.readTable osOpen rawClose csvFile Base path tr).1
       = inr (ReadError path ErrUnexpectedEOF)) /\
      (forall T,
         (main.readTable osOpen rawClose csvFile Base path tr).1 = inl T ->
         Name T = TrimSuffix (Base path) ".csv" /\
         (exists rest,
            csvFile tr1 f = map inl (Columns T :: Data T) ++ rest /\
            (rest = [] \/ exists rest', rest = inr EOF :: rest')) /\
         (sameFieldCount (csvFile tr1 f) -> rectangular T))
  end.
Proof.
  unfold main.readTable, iobind, openFile.
  destruct (osOpen tr path) as [f|err]; [|reflexivity].
  cbv zeta. cbn [fst snd readerClose].
  split; [reflexivity|]. split.
  - intros ->. reflexivity.
  - intros T.
    destruct (csvFile (tr ++ [EvOpen path (inl f)]) f) as [|[columns|err] reads];
      [discriminate| |destruct err; discriminate].
    destruct (main.readRowsLoop path reads []) as [data|err] eqn:E;
      [|discriminate].
    intros [= <-]. cbn [Name Columns Data].
    apply readRowsLoop_reads in E as (rows & rest & -> & -> & Hrest).
    cbn [app]. split; [reflexivity|]. split.
    + exists rest. split; [reflexivity | exact Hrest].
    + unfold sameFieldCount, rectangular. cbn [Columns Data].
      intros Hsame. apply Forall_app in Hsame as [Hrows _].
      apply Forall_fmap in Hrows. exact Hrows.
Qed.

End RunEvalProperties.

(** ** Evaluating the statements of the input *)


Section RunEvalStatements.

Variable osOpen : list event -> string -> File + oserror.
Variable rawClose : list event -> Reader -> option oserror.
Variable IsTerminal : File -> bool.
Variable csvFile : list event -> File -> list (list string + oserror).
Variable Base : string -> string.
Variable Token : Type.
Variable SplitStatements : string -> list string.
Variable Scan : string -> list Token.
Variable Parse : string -> result TabularExpr.




















End RunEvalStatements.

Lemma readTable_reads_and_closes_witness :
  rectangular {| Name := "T"; Columns := ["a"; "b"];
                 Data := [["1"; "2"]; ["3"; "0"]] |}.
Proof.
  apply (proj2 (proj2 (readTable_reads_and_closes
                         (fun tr _ => inl (3 + length tr)%nat)
                         (fun _ _ => None)
                         (fun _ _ => csv_ab)
                         (fun path => path)
                         "T.csv" []))).
  - vm_compute. reflexivity.
  - repeat constructor.
Defined.

Example runEval_run :
  main.runEval (fun tr _ => inl (3 + length tr)%nat) (fun _ _ => None)
    (fun _ => true) (fun _ _ => csv_ab) (fun path => path)
    ascii splitAtSemicolon scanChars parseCount
    ["T.csv"] (nopReadCloser (osFile Stdin)) ["T |"; " count; T"; "; T | count"] []
  = (Done (Some StatementsFailed),
     [EvStderr "Reading from terminal (use semicolons to end statements)...";
      EvOpen "T.csv" (inl 4%nat); EvClose (osFile 4%nat) None;
      EvWrite ["count()"]; EvWrite ["2"];
      EvLog (ErrParse " T
");
      EvWrite ["count()"]; EvWrite ["2"]]).
Proof. vm_compute. reflexivity. Qed.

